(** * Fretboard trainer: note mapping, cents matching and the YIN estimator

    A shallow embedding of [fretboard.js] (note table, [frequencyToNote],
    [isNoteMatch]), of the calibration helpers of the application class and
    of [AudioPitchDetector.yinDetect].

    JavaScript numbers are modelled by [num]: a finite real, one of the two
    infinities, or NaN.  The special values are kept because the code depends
    on them: [0/0] is NaN, every comparison with NaN is false, and
    [isFinite] guards the parabolic interpolation.  The sign of zero is not
    modelled (a division of a non-zero number by zero keeps the sign of the
    numerator).

    The arithmetic is embedded at two levels.  The first definitions compute
    finite results as exact reals; they carry the properties that rounding
    does not decide: the structure of the table, the guards, the session and
    the calibration state, and bounds that hold with a margin.  The module
    [Float] repeats the functions whose results depend on rounding, with
    every operation rounded to binary64 as the code rounds it and every
    store into the [Float32Array] of the estimator rounded to binary32; it
    carries what is said of the computed values themselves: the note of a
    frequency, the lags under the threshold, the confidence, the position of
    the meter. *)

From Stdlib Require Import Reals Lra Lia ZArith List String Bool Arith Sorted.
From stdpp Require Import gmap.
Import ListNotations.

Open Scope R_scope.

(** ** JavaScript numbers *)

Inductive num : Type :=
| Fin (r : R)
| PInf
| NInf
| NaN.

Definition Rltb (x y : R) : bool := if Rlt_dec x y then true else false.
Definition Rleb (x y : R) : bool := if Rle_dec x y then true else false.
Definition Reqb (x y : R) : bool := if Req_dec_T x y then true else false.

(** [x < y], [x > y], [x <= y], [x >= y]: false as soon as one side is NaN. *)
Definition nlt (x y : num) : bool :=
  match x, y with
  | Fin a, Fin b => Rltb a b
  | NInf, Fin _ | NInf, PInf | Fin _, PInf => true
  | _, _ => false
  end.

Definition nle (x y : num) : bool :=
  match x, y with
  | Fin a, Fin b => Rleb a b
  | NInf, Fin _ | NInf, PInf | Fin _, PInf | PInf, PInf | NInf, NInf => true
  | _, _ => false
  end.

Definition ngt (x y : num) : bool := nlt y x.
Definition nge (x y : num) : bool := nle y x.

Definition nneg (x : num) : num :=
  match x with
  | Fin a => Fin (- a)
  | PInf => NInf
  | NInf => PInf
  | NaN => NaN
  end.

Definition nadd (x y : num) : num :=
  match x, y with
  | NaN, _ | _, NaN => NaN
  | Fin a, Fin b => Fin (a + b)
  | PInf, NInf | NInf, PInf => NaN
  | PInf, _ | _, PInf => PInf
  | NInf, _ | _, NInf => NInf
  end.

Definition nsub (x y : num) : num := nadd x (nneg y).

(** The infinity with the sign of [a] ([a] is not zero). *)
Definition inf_of_sign (a : R) : num := if Rlt_dec 0 a then PInf else NInf.

Definition nmul (x y : num) : num :=
  match x, y with
  | NaN, _ | _, NaN => NaN
  | Fin a, Fin b => Fin (a * b)
  | Fin a, PInf | PInf, Fin a => if Req_dec_T a 0 then NaN else inf_of_sign a
  | Fin a, NInf | NInf, Fin a => if Req_dec_T a 0 then NaN else inf_of_sign (- a)
  | PInf, PInf | NInf, NInf => PInf
  | PInf, NInf | NInf, PInf => NInf
  end.

Definition ndiv (x y : num) : num :=
  match x, y with
  | NaN, _ | _, NaN => NaN
  | Fin a, Fin b =>
      if Req_dec_T b 0
      then (if Req_dec_T a 0 then NaN else inf_of_sign a)
      else Fin (a / b)
  | Fin _, PInf | Fin _, NInf => Fin 0
  | PInf, Fin b => if Rlt_dec b 0 then NInf else PInf
  | NInf, Fin b => if Rlt_dec b 0 then PInf else NInf
  | _, _ => NaN
  end.

(** [Math.abs], [Math.sqrt], [Math.floor], [Math.round] (ties go up),
    [Math.log2], [Math.pow(2, y)] and [isFinite]. *)
Definition nabs (x : num) : num :=
  match x with
  | Fin a => Fin (Rabs a)
  | PInf | NInf => PInf
  | NaN => NaN
  end.

Definition nsqrt (x : num) : num :=
  match x with
  | Fin a => if Rlt_dec a 0 then NaN else Fin (R_sqrt.sqrt a)
  | PInf => PInf
  | NInf | NaN => NaN
  end.

Definition nfloor (x : num) : num :=
  match x with
  | Fin a => Fin (IZR (Zfloor a))
  | _ => x
  end.

Definition Rround (a : R) : Z := Zfloor (a + / 2).

Definition nround (x : num) : num :=
  match x with
  | Fin a => Fin (IZR (Rround a))
  | _ => x
  end.

Definition Rlog2 (a : R) : R := ln a / ln 2.

Definition nlog2 (x : num) : num :=
  match x with
  | Fin a =>
      if Rlt_dec 0 a then Fin (Rlog2 a)
      else if Req_dec_T a 0 then NInf else NaN
  | PInf => PInf
  | NInf | NaN => NaN
  end.

Definition npow2 (y : num) : num :=
  match y with
  | Fin b => Fin (Rpower 2 b)
  | PInf => PInf
  | NInf => Fin 0
  | NaN => NaN
  end.

Definition isFinite (x : num) : bool :=
  match x with
  | Fin _ => true
  | _ => false
  end.

(** The remainder operator [%]: the result has the sign of the dividend
    (the quotient is truncated toward zero). *)
Definition Rtrunc (a : R) : Z :=
  if Rle_dec 0 a then Zfloor a else (- Zfloor (- a))%Z.

Definition nrem (x y : num) : num :=
  match x, y with
  | Fin a, Fin b =>
      if Req_dec_T b 0 then NaN else Fin (a - b * IZR (Rtrunc (a / b)))
  | Fin a, PInf | Fin a, NInf => Fin a
  | _, _ => NaN
  end.

(** Truthiness of a number: [0] and NaN are falsy. *)
Definition truthy (x : num) : bool :=
  match x with
  | Fin a => negb (Reqb a 0)
  | PInf | NInf => true
  | NaN => false
  end.

(** [arr[k]] for a number [k]: an element when [k] is an integer index inside
    the array, [undefined] (here [None]) otherwise. *)
Definition index {A : Type} (arr : list A) (k : num) : option A :=
  match k with
  | Fin a =>
      if Req_dec_T a (IZR (Zfloor a))
      then (if (Zfloor a <? 0)%Z then None else nth_error arr (Z.to_nat (Zfloor a)))
      else None
  | _ => None
  end.

Coercion Fin : R >-> num.

(** ** fretboard.js: the note table *)

Definition NOTE_NAMES : list string :=
  ["C"; "C#"; "D"; "D#"; "E"; "F"; "F#"; "G"; "G#"; "A"; "A#"; "B"]%string.

(** An entry of [OPEN_STRINGS].  The table holds literals only, so the MIDI
    number and the octave are integers and the frequency a finite real. *)
Record openString : Type := mkOpenString {
  os_note : string;
  os_octave : Z;
  os_frequency : R;
  os_midi : Z
}.

(** String numbers: 6 = low E, 1 = high E; any other key is absent. *)
Definition OPEN_STRINGS (stringNum : nat) : option openString :=
  match stringNum with
  | 6%nat => Some (mkOpenString "E" 2 82.41 40)
  | 5%nat => Some (mkOpenString "A" 2 110.00 45)
  | 4%nat => Some (mkOpenString "D" 3 146.83 50)
  | 3%nat => Some (mkOpenString "G" 3 196.00 55)
  | 2%nat => Some (mkOpenString "B" 3 246.94 59)
  | 1%nat => Some (mkOpenString "E" 4 329.63 64)
  | _ => None
  end.

(** An entry of [FRETBOARD].  [p_note] is [None] when the table lookup
    yields [undefined]. *)
Record position : Type := mkPosition {
  p_string : nat;
  p_fret : nat;
  p_note : option string;
  p_octave : Z;
  p_frequency : R;
  p_midiNote : Z
}.

(** [arr[k]] for an integer [k]. *)
Definition zindex {A : Type} (arr : list A) (k : Z) : option A :=
  if (k <? 0)%Z then None else nth_error arr (Z.to_nat k).

(** The body of the inner loop of [generateFretboard].  All operands are
    integers, so [%] is [Z.rem] and [Math.floor(midiNote / 12)] is the floor
    division of [Z]. *)
Definition fretPosition (openStr : openString) (stringNum fret : nat) : position :=
  let midiNote := (os_midi openStr + Z.of_nat fret)%Z in
  let noteIndex := Z.rem midiNote 12 in
  let octave := (midiNote / 12 - 1)%Z in
  let frequency := 440 * Rpower 2 (IZR (midiNote - 69) / 12) in
  mkPosition stringNum fret (zindex NOTE_NAMES noteIndex) octave frequency midiNote.

(** The equal-tempered frequency of an open string, 440 * 2^((midi - 69)/12),
    which [generateFretboard] uses in place of the tabulated one. *)
Definition openReference (openStr : openString) : R :=
  440 * Rpower 2 (IZR (os_midi openStr - 69) / 12).

(** [for (let i = start; i < stop; i++) body], threading the loop state. *)
Definition forLoop {S : Type} (start stop : nat) (body : nat -> S -> S) (s : S) : S :=
  fold_left (fun acc i => body i acc) (seq start (stop - start)) s.

(** [generateFretboard]: strings 1 to 6, frets 0 to 12, one [push] per
    iteration.  The result is [None] if a string were missing from the table
    (reading a property of [undefined] raises). *)
Definition generateFretboard : option (list position) :=
  forLoop 1 7
    (fun stringNum acc =>
       forLoop 0 13
         (fun fret acc =>
            match acc, OPEN_STRINGS stringNum with
            | Some fretboard, Some openStr =>
                Some (fretboard ++ [fretPosition openStr stringNum fret])
            | _, _ => None
            end)
         acc)
    (Some []).

Definition FRETBOARD : list position :=
  match generateFretboard with
  | Some fretboard => fretboard
  | None => []
  end.

(** ** fretboard.js: frequency to note, and the cents match *)

(** The object returned by [frequencyToNote]. *)
Record noteInfo : Type := mkNoteInfo {
  ni_note : option string;
  ni_midiNote : num;
  ni_octave : num
}.

(** [frequencyToNote(freq)]; [None] is the [null] result.  The arithmetic is
    exact here; [Float.frequencyToNote] rounds it as the code does. *)
Definition frequencyToNote (freq : num) : option noteInfo :=
  if nlt freq 20 || ngt freq 5000 then None
  else
    let midiNote := nround (nadd (nmul 12 (nlog2 (ndiv freq 440))) 69) in
    let noteIndex := nrem (nadd (nrem midiNote 12) 12) 12 in
    Some (mkNoteInfo (index NOTE_NAMES noteIndex)
                     midiNote
                     (nsub (nfloor (ndiv midiNote 12)) 1)).

(** [!x] for an argument that may be missing ([undefined] or [null]). *)
Definition falsy (x : option num) : bool :=
  match x with
  | Some v => negb (truthy v)
  | None => true
  end.

(** The number read from an argument that may be missing. *)
Definition toNumber (x : option num) : num :=
  match x with
  | Some v => v
  | None => NaN
  end.

(** [isNoteMatch(detectedFreq, targetFreq, toleranceCents = 50)].
    [detectedFreq = None] is a missing ([undefined] or [null]) detection,
    which never gets past [!detectedFreq]; [toleranceCents = None] is an
    omitted argument, which takes the default. *)
Definition isNoteMatch (detectedFreq : option num) (targetFreq : num)
    (toleranceCents : option num) : bool :=
  let toleranceCents := match toleranceCents with Some t => t | None => Fin 50 end in
  if falsy detectedFreq || nlt (toNumber detectedFreq) 20 then false
  else
    let centsDifference :=
      nmul 1200 (nlog2 (ndiv (toNumber detectedFreq) targetFreq)) in
    nle (nabs centsDifference) toleranceCents.

(** ** The application class: calibration *)

(** [this.calibrationOffsets]: an object from string numbers to cents. *)
Definition calibrationOffsets : Type := gmap nat num.

(** [this.calibrationOffsets[stringNum] || 0] *)
Definition getCalibrationOffset (offsets : calibrationOffsets) (stringNum : nat) : num :=
  match offsets !! stringNum with
  | Some v => if truthy v then v else Fin 0
  | None => Fin 0
  end.

Definition getCalibratedTargetFrequency (offsets : calibrationOffsets)
    (targetFreq : num) (stringNum : nat) : num :=
  let offsetCents := getCalibrationOffset offsets stringNum in
  nmul targetFreq (npow2 (ndiv offsetCents 1200)).

(** ** AudioPitchDetector: the YIN estimator *)

(** The fields of the detector that [yinDetect] and [detectPitch] read. *)
Record AudioPitchDetector : Type := mkDetector {
  minFrequency : num;
  maxFrequency : num;
  yinThreshold : num;
  yinProbabilityThreshold : num
}.

(** The values set by the constructor. *)
Definition constructor : AudioPitchDetector :=
  mkDetector 70 1200 0.15 0.8.

Record pitchResult : Type := mkResult {
  frequency : num;
  probability : num
}.

(** [{ frequency: -1, probability: 0 }] *)
Definition noDetection : pitchResult := mkResult (-1) 0.

(** The samples are finite reals; a read past the end of a typed array is
    [undefined], which arithmetic turns into NaN. *)
Definition sample (buffer : list R) (i : nat) : num :=
  match buffer !! i with
  | Some x => Fin x
  | None => NaN
  end.

(** A read of the [Float32Array] [yinBuffer]: the value that was stored, or
    [undefined] past the end, which arithmetic and comparisons read as NaN. *)
Definition yinAt (yinBuffer : list num) (tau : nat) : num :=
  match yinBuffer !! tau with
  | Some v => v
  | None => NaN
  end.

Definition halfBufferOf (buffer : list R) : nat := (length buffer / 2)%nat.

(** [Math.sqrt(sum of squares / bufferSize)] *)
Definition rmsOf (buffer : list R) : num :=
  let bufferSize := length buffer in
  let rms :=
    forLoop 0 bufferSize
      (fun i rms => nadd rms (nmul (sample buffer i) (sample buffer i)))
      (Fin 0) in
  nsqrt (ndiv rms (INR bufferSize)).

(** The inner loop: the difference function d(tau). *)
Definition differenceAt (buffer : list R) (halfBuffer tau : nat) : num :=
  forLoop 0 halfBuffer
    (fun i delta =>
       let diff := nsub (sample buffer i) (sample buffer (i + tau)) in
       nadd delta (nmul diff diff))
    (Fin 0).

(** The outer loop: the state is [(runningSum, yinBuffer)].  A write past the
    end of a typed array is ignored, as [<[ _ := _ ]>] does.  The quotient is
    kept as an exact real here; [Float.yinStep] rounds it as the store into
    the [Float32Array] does. *)
Definition yinStep (buffer : list R) (halfBuffer tau : nat)
    (st : num * list num) : num * list num :=
  let delta := differenceAt buffer halfBuffer tau in
  let runningSum := nadd (fst st) delta in
  (runningSum, <[ tau := ndiv (nmul delta (INR tau)) runningSum ]> (snd st)).

Definition yinBufferOf (buffer : list R) : list num :=
  let halfBuffer := halfBufferOf buffer in
  let yinBuffer := <[ 0%nat := Fin 1 ]> (replicate halfBuffer (Fin 0)) in
  snd (forLoop 1 halfBuffer (yinStep buffer halfBuffer) (Fin 0, yinBuffer)).

(** [while (tau + 1 < halfBuffer && yinBuffer[tau + 1] < yinBuffer[tau]) tau++].
    [steps] bounds the number of iterations; [halfBuffer] always suffices
    (lemma [walkDip_spec]). *)
Fixpoint walkDip (yinBuffer : list num) (halfBuffer steps tau : nat) : nat :=
  match steps with
  | O => tau
  | S steps' =>
      if (tau + 1 <? halfBuffer)%nat
         && nlt (yinAt yinBuffer (tau + 1)) (yinAt yinBuffer tau)
      then walkDip yinBuffer halfBuffer steps' (S tau)
      else tau
  end.

(** The scan [for (let tau = ...; tau < halfBuffer; tau++)] with its [break];
    [count] is the number of lags left.  [None] is the sentinel [-1]. *)
Fixpoint scanFrom (threshold : num) (yinBuffer : list num) (halfBuffer count tau : nat)
    : option nat :=
  match count with
  | O => None
  | S count' =>
      if nlt (yinAt yinBuffer tau) threshold
      then Some (walkDip yinBuffer halfBuffer halfBuffer tau)
      else scanFrom threshold yinBuffer halfBuffer count' (S tau)
  end.

Definition tauEstimateOf (threshold : num) (yinBuffer : list num) (halfBuffer : nat)
    : option nat :=
  scanFrom threshold yinBuffer halfBuffer (halfBuffer - 2) 2.

(** Step 4: parabolic interpolation. *)
Definition betterTauOf (yinBuffer : list num) (halfBuffer tauEstimate : nat) : num :=
  if (0 <? tauEstimate)%nat && (Z.of_nat tauEstimate <? Z.of_nat halfBuffer - 1)%Z
  then
    let s0 := yinAt yinBuffer (tauEstimate - 1) in
    let s1 := yinAt yinBuffer tauEstimate in
    let s2 := yinAt yinBuffer (tauEstimate + 1) in
    let adjustment :=
      ndiv (nsub s2 s0) (nmul 2 (nsub (nsub (nmul 2 s1) s2) s0)) in
    if isFinite adjustment
    then nadd (INR tauEstimate) adjustment
    else Fin (INR tauEstimate)
  else Fin (INR tauEstimate).

Definition yinDetect (this : AudioPitchDetector) (buffer : list R) (sampleRate : R)
    : pitchResult :=
  let halfBuffer := halfBufferOf buffer in
  if nlt (rmsOf buffer) 0.01 then noDetection
  else
    let yinBuffer := yinBufferOf buffer in
    match tauEstimateOf (yinThreshold this) yinBuffer halfBuffer with
    | None => noDetection
    | Some tauEstimate =>
        let betterTau := betterTauOf yinBuffer halfBuffer tauEstimate in
        let frequency := ndiv sampleRate betterTau in
        let probability := nsub 1 (yinAt yinBuffer tauEstimate) in
        if nlt frequency (minFrequency this) || ngt frequency (maxFrequency this)
        then noDetection
        else mkResult frequency probability
    end.

(** The guard of [detectPitch] in front of the callback:
    [this.onPitchDetected && result.frequency > 0 &&
     result.probability >= this.yinProbabilityThreshold]. *)
Definition reportsPitch (this : AudioPitchDetector) (onPitchDetected : bool)
    (result : pitchResult) : bool :=
  onPitchDetected && ngt (frequency result) 0
  && nge (probability result) (yinProbabilityThreshold this).

(** ** The difference function as the design states it

    d(tau) is the sum over the first half of the buffer of
    (x[i] - x[i+tau])^2, and d'(tau) = d(tau) * tau / (d(1) + ... + d(tau)),
    which is NaN when the sum is zero. *)

Definition sumR (l : list R) : R := fold_right Rplus 0 l.

Definition sampleR (buffer : list R) (i : nat) : R := nth i buffer 0.

Definition differenceSpec (buffer : list R) (tau : nat) : R :=
  sumR (map (fun i => (sampleR buffer i - sampleR buffer (i + tau)) ^ 2)
            (seq 0 (halfBufferOf buffer))).

Definition cumulativeSpec (buffer : list R) (tau : nat) : R :=
  sumR (map (differenceSpec buffer) (seq 1 tau)).

Definition dPrime (buffer : list R) (tau : nat) : num :=
  ndiv (Fin (differenceSpec buffer tau * INR tau)) (Fin (cumulativeSpec buffer tau)).

(** The root mean square of a buffer. *)
Definition rmsSpec (buffer : list R) : R :=
  R_sqrt.sqrt (sumR (map (fun x => x ^ 2) buffer) / INR (length buffer)).

(** Step 4 of the design: the first lag from 2 on whose d' is under the
    threshold, and the local minimum reached from it by walking down. *)
Definition firstDip (threshold : num) (buffer : list R) (t0 : nat) : Prop :=
  (2 <= t0 < halfBufferOf buffer)%nat
  /\ nlt (dPrime buffer t0) threshold = true
  /\ forall t, (2 <= t < t0)%nat -> nlt (dPrime buffer t) threshold = false.

Definition dipMinimum (buffer : list R) (t0 tauE : nat) : Prop :=
  (t0 <= tauE < halfBufferOf buffer)%nat
  /\ (forall t, (t0 <= t < tauE)%nat ->
        nlt (dPrime buffer (t + 1)) (dPrime buffer t) = true)
  /\ ((tauE + 1 < halfBufferOf buffer)%nat ->
      nlt (dPrime buffer (tauE + 1)) (dPrime buffer tauE) = false).

(** ** fretboard.js: the random challenge *)

(** [getRandomChallenge], with the value of [Math.random()] as argument;
    [None] is [undefined]. *)
Definition getRandomChallenge (random : R) : option position :=
  let idx := nfloor (nmul random (INR (length FRETBOARD))) in
  index FRETBOARD idx.

(** ** The application class: the cents offset *)

Definition calculateCentsOffset (detectedFreq targetFreq : num) : num :=
  nmul 1200 (nlog2 (ndiv detectedFreq targetFreq)).

(** ** The application class: the pitch meter *)

(** [Math.min] and [Math.max] of two numbers: NaN as soon as one is NaN. *)
Definition nmin (x y : num) : num :=
  match x, y with
  | NaN, _ | _, NaN => NaN
  | _, _ => if nle x y then x else y
  end.

Definition nmax (x y : num) : num :=
  match x, y with
  | NaN, _ | _, NaN => NaN
  | _, _ => if nle x y then y else x
  end.

(** What [updatePitchMeter] writes: the [left] style of the indicator (a
    percentage), the text of the cents display and the class of the
    indicator. *)
Inductive centsLabel : Type :=
| InTune
| CentsSharp (cents : num)
| CentsFlat (cents : num).

Inductive meterClass : Type :=
| in_tune
| close
| far.

Record pitchMeter : Type := mkPitchMeter {
  meter_left : num;
  meter_text : centsLabel;
  meter_class : meterClass
}.

(** [updatePitchMeter(centsOffset)] when both display elements exist.  The
    position is exact here; [Float.updatePitchMeter] rounds it. *)
Definition updatePitchMeter (centsOffset : num) : pitchMeter :=
  let clampedOffset := nmax (-50) (nmin 50 centsOffset) in
  let position := nmul (ndiv (nadd clampedOffset 50) 100) 100 in
  let roundedCents := nround centsOffset in
  let text :=
    if nlt (nabs roundedCents) 3 then InTune
    else if ngt roundedCents 0 then CentsSharp roundedCents
    else CentsFlat (nabs roundedCents) in
  let absOffset := nabs centsOffset in
  let class :=
    if nle absOffset 10 then in_tune
    else if nle absOffset 30 then close
    else far in
  mkPitchMeter position text class.

(** ** The application class: session and calibration state

    The fields of the trainer that the pitch handlers read and write.  The
    writes to the page, the detector and [localStorage] are left out; the
    value of [Date.now()] and of [Math.random()] is an argument; a callback
    deferred with [setTimeout] is an event of its own. *)

Module Trainer.

Record state : Type := mkState {
  isRunning : bool;
  currentChallenge : option position;
  score : Z;
  correctStreak : Z;
  correctStartTime : option Z;
  detectionHoldTime : Z;
  tolerance : num;
  offsets : calibrationOffsets;
  isCalibrating : bool;
  currentCalibrationString : option nat;
  calibrationSamples : list R;
  calibrationStartTime : option Z;
  calibrationDuration : Z
}.

Definition withSession (running : bool) (challenge : option position)
    (points streak : Z) (started : option Z) (st : state) : state :=
  mkState running challenge points streak started
          (detectionHoldTime st) (tolerance st) (offsets st) (isCalibrating st)
          (currentCalibrationString st) (calibrationSamples st)
          (calibrationStartTime st) (calibrationDuration st).

Definition withCalibration (running : bool) (stored : calibrationOffsets)
    (calibrating : bool) (current : option nat) (samples : list R)
    (started : option Z) (st : state) : state :=
  mkState running (currentChallenge st) (score st) (correctStreak st)
          (correctStartTime st) (detectionHoldTime st) (tolerance st)
          stored calibrating current samples started (calibrationDuration st).

(** The state left by the constructor, given what [loadCalibration] and
    [loadTolerance] returned. *)
Definition initial (loadedOffsets : calibrationOffsets) (loadedTolerance : num) : state :=
  mkState false None 0 0 None 150 loadedTolerance loadedOffsets
          false None [] None 2000.

(** [handleCorrect]: the deferred [nextChallenge] is [successTimeout]. *)
Definition handleCorrect (st : state) : state :=
  if negb (isRunning st) then st
  else withSession (isRunning st) None (score st + 1) (correctStreak st + 1)
                   (correctStartTime st) st.

(** [nextChallenge]; [None] when reading [this.currentChallenge.note] raises
    because no challenge was drawn. *)
Definition nextChallenge (random : R) (st : state) : option state :=
  match getRandomChallenge random with
  | Some challenge =>
      Some (withSession (isRunning st) (Some challenge) (score st)
                        (correctStreak st) None st)
  | None => None
  end.

Definition successTimeout (random : R) (st : state) : option state :=
  if isRunning st then nextChallenge random st else Some st.

(** [handlePitchDetected(frequency, probability)] at time [now]; the
    probability is only displayed. *)
Definition handlePitchDetected (now : Z) (frequency : num) (st : state) : state :=
  match currentChallenge st with
  | None => st
  | Some challenge =>
      if negb (isRunning st) then st
      else
        match frequencyToNote frequency with
        | None => st
        | Some noteInfo =>
            let calibratedTarget :=
              getCalibratedTargetFrequency (offsets st)
                (Fin (p_frequency challenge)) (p_string challenge) in
            let isMatch :=
              isNoteMatch (Some frequency) calibratedTarget (Some (tolerance st)) in
            if isMatch then
              match correctStartTime st with
              | None =>
                  withSession (isRunning st) (currentChallenge st) (score st)
                              (correctStreak st) (Some now) st
              | Some started =>
                  if (now - started >=? detectionHoldTime st)%Z
                  then handleCorrect st
                  else st
              end
            else
              withSession (isRunning st) (currentChallenge st) (score st)
                          (correctStreak st) None st
        end
  end.

(** [[...samples].sort((a, b) => a - b)] on finite numbers: the ascending
    arrangement of the samples. *)
Fixpoint insertSorted (x : R) (l : list R) : list R :=
  match l with
  | [] => [x]
  | y :: l' => if Rle_dec x y then x :: l else y :: insertSorted x l'
  end.

Definition sortAscending (l : list R) : list R := fold_right insertSorted [] l.

(** [Fretboard.OPEN_STRINGS[this.currentCalibrationString].frequency];
    [None] when the read raises. *)
Definition expectedFreqOf (st : state) : option R :=
  match currentCalibrationString st with
  | Some stringNum =>
      match OPEN_STRINGS stringNum with
      | Some openStr => Some (os_frequency openStr)
      | None => None
      end
  | None => None
  end.

Definition showCalibrationString (stringNum : nat) (st : state) : state :=
  withCalibration (isRunning st) (offsets st) (isCalibrating st)
                  (Some stringNum) [] None st.

(** [startCalibration], given whether the detector could be started. *)
Definition startCalibration (started : bool) (st : state) : state :=
  let st := withCalibration false (offsets st) (isCalibrating st)
              (currentCalibrationString st) (calibrationSamples st)
              (calibrationStartTime st) st in
  if negb started then st
  else
    showCalibrationString 6
      (withCalibration (isRunning st) ∅ true (currentCalibrationString st)
                       (calibrationSamples st) (calibrationStartTime st) st).

Definition finishCalibration (st : state) : state :=
  withCalibration (isRunning st) (offsets st) false
                  (currentCalibrationString st) (calibrationSamples st)
                  (calibrationStartTime st) st.

Definition cancelCalibration (st : state) : state :=
  withCalibration (isRunning st) (offsets st) false
                  (currentCalibrationString st) (calibrationSamples st)
                  (calibrationStartTime st) st.

Definition nextCalibrationString (st : state) : state :=
  match currentCalibrationString st with
  | Some current =>
      let nextString := (current - 1)%nat in
      if (1 <=? nextString)%nat then showCalibrationString nextString st
      else finishCalibration st
  | None => finishCalibration st
  end.

(** [skipCalibrationString]: with no current string the 0 goes under the
    key [undefined], which no string number reads. *)
Definition skipCalibrationString (st : state) : state :=
  let stored :=
    match currentCalibrationString st with
    | Some current => <[ current := Fin 0 ]> (offsets st)
    | None => offsets st
    end in
  nextCalibrationString
    (withCalibration (isRunning st) stored (isCalibrating st)
                     (currentCalibrationString st) (calibrationSamples st)
                     (calibrationStartTime st) st).

(** [completeStringCalibration]; the deferred [nextCalibrationString] is an
    event of its own. *)
Definition completeStringCalibration (st : state) : option state :=
  let sorted := sortAscending (calibrationSamples st) in
  let medianFreq := toNumber (option_map Fin (sorted !! (length sorted / 2)%nat)) in
  match currentCalibrationString st, expectedFreqOf st with
  | Some current, Some expectedFreq =>
      let offsetCents := nmul 1200 (nlog2 (ndiv medianFreq expectedFreq)) in
      Some (withCalibration (isRunning st) (<[ current := offsetCents ]> (offsets st))
                            (isCalibrating st) (currentCalibrationString st)
                            (calibrationSamples st) (calibrationStartTime st) st)
  | _, _ => None
  end.

(** [handleCalibrationPitch(frequency, probability)]; [nowStart] and
    [nowElapsed] are the two readings of [Date.now()]. *)
Definition handleCalibrationPitch (nowStart nowElapsed : Z)
    (frequency probability : R) (st : state) : option state :=
  if negb (isCalibrating st) || nlt probability 0.8 then Some st
  else
    match expectedFreqOf st with
    | None => None
    | Some expectedFreq =>
        let centsOff := nmul 1200 (nlog2 (ndiv frequency expectedFreq)) in
        if ngt (nabs centsOff) 100
        then Some (withCalibration (isRunning st) (offsets st) (isCalibrating st)
                                   (currentCalibrationString st) [] None st)
        else
          let started :=
            match calibrationStartTime st with
            | None => nowStart
            | Some t => t
            end in
          let st :=
            withCalibration (isRunning st) (offsets st) (isCalibrating st)
                            (currentCalibrationString st)
                            (calibrationSamples st ++ [frequency])
                            (Some started) st in
          let elapsed := (nowElapsed - started)%Z in
          if (elapsed >=? calibrationDuration st)%Z
          then completeStringCalibration st
          else Some st
    end.

(** What can happen once a calibration has been started. *)
Inductive event : Type :=
| Pitch (nowStart nowElapsed : Z) (frequency probability : R)
| NextStringTimeout
| SkipClicked
| CancelClicked
| CalibrateClicked (started : bool).

Definition step (ev : event) (st : state) : option state :=
  match ev with
  | Pitch nowStart nowElapsed frequency probability =>
      handleCalibrationPitch nowStart nowElapsed frequency probability st
  | NextStringTimeout => Some (nextCalibrationString st)
  | SkipClicked => Some (skipCalibrationString st)
  | CancelClicked => Some (cancelCalibration st)
  | CalibrateClicked started => Some (startCalibration started st)
  end.

Fixpoint run (evs : list event) (st : state) : option state :=
  match evs with
  | [] => Some st
  | ev :: evs' =>
      match step ev st with
      | Some st' => run evs' st'
      | None => None
      end
  end.

End Trainer.

(** ** AudioPitchDetector: the autocorrelation estimator *)

(** A read [buffer[i]] at an integer index that may be negative. *)
Definition sampleZ (buffer : list R) (i : Z) : num :=
  if (i <? 0)%Z then NaN else sample buffer (Z.to_nat i).

(** [for (let i = 0; i < buffer.length / 2; i++)] looking for the first
    sample below zero followed by one that is not; [start] stays 0 without
    one.  [steps] bounds the iterations; the length of the buffer suffices. *)
Fixpoint crossingUp (buffer : list R) (steps i : nat) : nat :=
  match steps with
  | O => 0%nat
  | S steps' =>
      if nlt (INR i) (ndiv (INR (length buffer)) 2)
      then
        if nlt (sample buffer i) 0 && nge (sample buffer (i + 1)) 0
        then i
        else crossingUp buffer steps' (S i)
      else 0%nat
  end.

(** [for (let i = buffer.length - 1; i >= buffer.length / 2; i--)]; [end]
    stays [buffer.length - 1] without a crossing. *)
Fixpoint crossingDown (buffer : list R) (steps : nat) (i : Z) : Z :=
  match steps with
  | O => (Z.of_nat (length buffer) - 1)%Z
  | S steps' =>
      if nge (IZR i) (ndiv (INR (length buffer)) 2)
      then
        if nlt (sampleZ buffer i) 0 && nge (sampleZ buffer (i - 1)) 0
        then i
        else crossingDown buffer steps' (i - 1)
      else (Z.of_nat (length buffer) - 1)%Z
  end.

(** [buffer.slice(start, end)] for [start >= 0]: a negative [end] counts
    from the end of the buffer. *)
Definition slice (buffer : list R) (start : nat) (stop : Z) : list R :=
  let len := Z.of_nat (length buffer) in
  let stop := if (stop <? 0)%Z then Z.max (len + stop) 0 else Z.min stop len in
  take (Z.to_nat stop - start) (drop start buffer).

(** [correlations[lag]]: the sum of [trimmedBuffer[i] * trimmedBuffer[i + lag]]. *)
Definition correlationAt (trimmedBuffer : list R) (lag : nat) : num :=
  forLoop 0 (length trimmedBuffer - lag)
    (fun i sum => nadd sum (nmul (sample trimmedBuffer i) (sample trimmedBuffer (i + lag))))
    (Fin 0).

Definition correlationsOf (trimmedBuffer : list R) : list num :=
  map (correlationAt trimmedBuffer) (seq 0 (length trimmedBuffer)).

(** The walk over the lags from 1 on, with its state [foundPeak], [peakLag]
    and [prevCorr]; it returns [peakLag] at the [break] or at the end. *)
Fixpoint peakSearch (correlations : list num) (lags : list nat)
    (foundPeak : bool) (peakLag : nat) (prevCorr : num) : nat :=
  match lags with
  | [] => peakLag
  | lag :: lags' =>
      let corr := toNumber (correlations !! lag) in
      if negb foundPeak
      then
        if ngt corr prevCorr
           && nlt prevCorr (nmul (toNumber (correlations !! 0%nat)) 0.5)
        then peakSearch correlations lags' true lag corr
        else peakSearch correlations lags' foundPeak peakLag corr
      else
        if ngt corr (toNumber (correlations !! peakLag))
        then peakSearch correlations lags' foundPeak lag corr
        else
          if nlt corr (nmul (toNumber (correlations !! peakLag)) 0.9)
          then peakLag
          else peakSearch correlations lags' foundPeak peakLag corr
  end.

(** [x || 0] for an array read [x]. *)
Definition orZero (x : option num) : num :=
  match x with
  | Some v => if truthy v then v else Fin 0
  | None => Fin 0
  end.

(** [autoCorrelate(buffer, sampleRate)]; the sentinel is [-1]. *)
Definition autoCorrelate (this : AudioPitchDetector) (buffer : list R)
    (sampleRate : R) : num :=
  if nlt (rmsOf buffer) 0.01 then Fin (-1)
  else
    let start := crossingUp buffer (length buffer) 0 in
    let stop := crossingDown buffer (length buffer) (Z.of_nat (length buffer) - 1) in
    let trimmedBuffer := slice buffer start stop in
    let size := length trimmedBuffer in
    let correlations := correlationsOf trimmedBuffer in
    let peakLag :=
      peakSearch correlations (seq 1 (size - 1)) false 0
                 (toNumber (correlations !! 0%nat)) in
    if (peakLag =? 0)%nat then Fin (-1)
    else
      let y1 := orZero (correlations !! (peakLag - 1)%nat) in
      let y2 := toNumber (correlations !! peakLag) in
      let y3 := orZero (correlations !! (peakLag + 1)%nat) in
      let refinedLag :=
        nadd (INR peakLag)
             (ndiv (nsub y3 y1) (nmul 2 (nsub (nsub (nmul 2 y2) y1) y3))) in
      let frequency := ndiv sampleRate refinedLag in
      if nlt frequency (minFrequency this) || ngt frequency (maxFrequency this)
      then Fin (-1)
      else frequency.

(** ** FretboardDiagram: where the indicator is drawn *)

(** [x === y] on numbers. *)
Definition nstrictEq (x y : num) : bool :=
  match x, y with
  | Fin a, Fin b => Reqb a b
  | PInf, PInf | NInf, NInf => true
  | _, _ => false
  end.

Module Diagram.

(** The dimensions that [getFretX] and [getStringY] read. *)
Record dimensions : Type := mkDimensions {
  numStrings : num;
  numFrets : num;
  width : num;
  height : num;
  nutWidth : num;
  padding_left : num;
  padding_right : num;
  padding_top : num;
  padding_bottom : num
}.

(** The values set by the constructor. *)
Definition constructor : dimensions :=
  mkDimensions 6 12 400 150 8 30 10 15 15.

Definition getFretX (this : dimensions) (fret : num) : num :=
  if nstrictEq fret 0 then nadd (padding_left this) (ndiv (nutWidth this) 2)
  else
    let playableWidth :=
      nsub (nsub (nsub (width this) (padding_left this)) (padding_right this))
           (nutWidth this) in
    let fretSpacing := ndiv playableWidth (numFrets this) in
    nadd (nadd (padding_left this) (nutWidth this))
         (nmul (nsub fret 0.5) fretSpacing).

Definition getStringY (this : dimensions) (stringNum : num) : num :=
  let playableHeight :=
    nsub (nsub (height this) (padding_top this)) (padding_bottom this) in
  let stringSpacing := ndiv playableHeight (nsub (numStrings this) 1) in
  nadd (padding_top this) (nmul (nsub stringNum 1) stringSpacing).

(** The centre [(cx, cy)] that [show(string, fret)] gives the indicator. *)
Definition show (this : dimensions) (stringNum fret : num) : num * num :=
  (getFretX this fret, getStringY this stringNum).

End Diagram.

(** A positive frequency within 100 cents of the expected one, up to a
    thousandth of a cent. *)
Definition nearExpected (expectedFreq f : R) : Prop :=
  0 < f /\ Rabs (1200 * Rlog2 (f / expectedFreq)) <= 100 + / 1000.

(** ** Binary floating-point rounding

    The code computes in binary64, and the YIN estimator keeps its d' in a
    [Float32Array], which rounds each stored value to binary32.  Rounding is
    to the nearest number of the format, ties to the one with an even last
    digit; below the smallest normal number the last place stays at the
    smallest one (subnormal numbers), and a rounded magnitude of 2^emax or
    more is an infinity. *)

(** The nearest integer, ties to the even one. *)
Definition Znearest_even (x : R) : Z :=
  let f := Zfloor x in
  if Rltb (x - IZR f) (/ 2) then f
  else if Rltb (/ 2) (x - IZR f) then (f + 1)%Z
  else if Z.even f then f else (f + 1)%Z.

(** The exponent of the last place of [x] in a format with [prec] digits
    whose smallest normal numbers have exponent [emin]. *)
Definition lastPlace (prec emin : Z) (x : R) : Z :=
  Z.max (Zfloor (Rlog2 (Rabs x)) - (prec - 1)) (emin - (prec - 1)).

Definition roundNearest (prec emin : Z) (x : R) : R :=
  let e := lastPlace prec emin x in
  IZR (Znearest_even (x * powerRZ 2 (- e))) * powerRZ 2 e.

Definition roundTo (prec emin emax : Z) (x : num) : num :=
  match x with
  | Fin a =>
      let r := roundNearest prec emin a in
      if Rleb (powerRZ 2 emax) (Rabs r) then inf_of_sign r else Fin r
  | _ => x
  end.

(** A JavaScript number is a binary64 number; a [Float32Array] element is a
    binary32 number. *)
Definition binary64 : num -> num := roundTo 53 (-1022) 1024.
Definition binary32 : num -> num := roundTo 24 (-126) 128.

(** The binary64 number next to a real that is not out of range. *)
Definition round64 (a : R) : R := roundNearest 53 (-1022) a.

(** [x + y], [x - y], [x * y], [x / y] and [Math.sqrt(x)] as the code
    computes them: the exact result, rounded. *)
Definition add64 (x y : num) : num := binary64 (nadd x y).
Definition sub64 (x y : num) : num := binary64 (nsub x y).
Definition mul64 (x y : num) : num := binary64 (nmul x y).
Definition div64 (x y : num) : num := binary64 (ndiv x y).
Definition sqrt64 (x : num) : num := binary64 (nsqrt x).

(** A decimal literal of the source. *)
Definition literal64 (a : R) : num := binary64 (Fin a).

(** A number that is not below zero: a finite real from 0 on, or +Infinity. *)
Definition nonneg (x : num) : Prop :=
  match x with
  | Fin a => 0 <= a
  | PInf => True
  | _ => False
  end.

Definition nanOrNonneg (x : num) : Prop := x = NaN \/ nonneg x.

(** ** The code in binary64

    The functions whose results depend on rounding, with every arithmetic
    operation rounded as the code rounds it.  [Math.round], [Math.floor],
    [Math.abs], [%] and the comparisons are exact on binary64 numbers and
    stay as above.  [Math.log2] is left to the platform by the language
    standard: it is a parameter. *)

Module Float.

Section Platform.

Variable Math_log2 : num -> num.

(** [frequencyToNote(freq)] *)
Definition frequencyToNote (freq : num) : option noteInfo :=
  if nlt freq 20 || ngt freq 5000 then None
  else
    let midiNote := nround (add64 (mul64 12 (Math_log2 (div64 freq 440))) 69) in
    let noteIndex := nrem (add64 (nrem midiNote 12) 12) 12 in
    Some (mkNoteInfo (index NOTE_NAMES noteIndex)
                     midiNote
                     (sub64 (nfloor (div64 midiNote 12)) 1)).

End Platform.

(** [updatePitchMeter(centsOffset)] when both display elements exist. *)
Definition updatePitchMeter (centsOffset : num) : pitchMeter :=
  let clampedOffset := nmax (-50) (nmin 50 centsOffset) in
  let position := mul64 (div64 (add64 clampedOffset 50) 100) 100 in
  let roundedCents := nround centsOffset in
  let text :=
    if nlt (nabs roundedCents) 3 then InTune
    else if ngt roundedCents 0 then CentsSharp roundedCents
    else CentsFlat (nabs roundedCents) in
  let absOffset := nabs centsOffset in
  let class :=
    if nle absOffset 10 then in_tune
    else if nle absOffset 30 then close
    else far in
  mkPitchMeter position text class.

(** The values set by the constructor of [AudioPitchDetector]. *)
Definition constructor : AudioPitchDetector :=
  mkDetector 70 1200 (literal64 0.15) (literal64 0.8).

(** [Math.sqrt(sum of squares / bufferSize)] *)
Definition rmsOf (buffer : list R) : num :=
  let bufferSize := length buffer in
  let rms :=
    forLoop 0 bufferSize
      (fun i rms => add64 rms (mul64 (sample buffer i) (sample buffer i)))
      (Fin 0) in
  sqrt64 (div64 rms (INR bufferSize)).

(** The inner loop: the difference function d(tau). *)
Definition differenceAt (buffer : list R) (halfBuffer tau : nat) : num :=
  forLoop 0 halfBuffer
    (fun i delta =>
       let diff := sub64 (sample buffer i) (sample buffer (i + tau)) in
       add64 delta (mul64 diff diff))
    (Fin 0).

(** The outer loop: the state is [(runningSum, yinBuffer)]; the write into
    the [Float32Array] rounds to binary32. *)
Definition yinStep (buffer : list R) (halfBuffer tau : nat)
    (st : num * list num) : num * list num :=
  let delta := differenceAt buffer halfBuffer tau in
  let runningSum := add64 (fst st) delta in
  (runningSum,
   <[ tau := binary32 (div64 (mul64 delta (INR tau)) runningSum) ]> (snd st)).

Definition yinBufferOf (buffer : list R) : list num :=
  let halfBuffer := halfBufferOf buffer in
  let yinBuffer := <[ 0%nat := Fin 1 ]> (replicate halfBuffer (Fin 0)) in
  snd (forLoop 1 halfBuffer (yinStep buffer halfBuffer) (Fin 0, yinBuffer)).

(** Step 4: parabolic interpolation. *)
Definition betterTauOf (yinBuffer : list num) (halfBuffer tauEstimate : nat) : num :=
  if (0 <? tauEstimate)%nat && (Z.of_nat tauEstimate <? Z.of_nat halfBuffer - 1)%Z
  then
    let s0 := yinAt yinBuffer (tauEstimate - 1) in
    let s1 := yinAt yinBuffer tauEstimate in
    let s2 := yinAt yinBuffer (tauEstimate + 1) in
    let adjustment :=
      div64 (sub64 s2 s0) (mul64 2 (sub64 (sub64 (mul64 2 s1) s2) s0)) in
    if isFinite adjustment
    then add64 (INR tauEstimate) adjustment
    else Fin (INR tauEstimate)
  else Fin (INR tauEstimate).

(** [yinDetect(buffer, sampleRate)]; the scan and the walk are [scanFrom]
    and [walkDip] above, on the stored values. *)
Definition yinDetect (this : AudioPitchDetector) (buffer : list R) (sampleRate : R)
    : pitchResult :=
  let halfBuffer := halfBufferOf buffer in
  if nlt (rmsOf buffer) (literal64 0.01) then noDetection
  else
    let yinBuffer := yinBufferOf buffer in
    match tauEstimateOf (yinThreshold this) yinBuffer halfBuffer with
    | None => noDetection
    | Some tauEstimate =>
        let betterTau := betterTauOf yinBuffer halfBuffer tauEstimate in
        let frequency := div64 sampleRate betterTau in
        let probability := sub64 1 (yinAt yinBuffer tauEstimate) in
        if nlt frequency (minFrequency this) || ngt frequency (maxFrequency this)
        then noDetection
        else mkResult frequency probability
    end.

(** What the loops leave for a lag: the running sum after the lag, and the
    stored d', the quotient d(tau) * tau / runningSum rounded to binary64
    and then to binary32. *)
Fixpoint runningSumAt (buffer : list R) (tau : nat) : num :=
  match tau with
  | O => Fin 0
  | S tau' =>
      add64 (runningSumAt buffer tau')
            (differenceAt buffer (halfBufferOf buffer) tau)
  end.

Definition dPrime (buffer : list R) (tau : nat) : num :=
  binary32
    (div64 (mul64 (differenceAt buffer (halfBufferOf buffer) tau) (INR tau))
           (runningSumAt buffer tau)).

(** The first lag from 2 on whose stored d' is under the threshold, and the
    local minimum reached from it by walking down. *)
Definition firstDip (threshold : num) (buffer : list R) (t0 : nat) : Prop :=
  (2 <= t0 < halfBufferOf buffer)%nat
  /\ nlt (dPrime buffer t0) threshold = true
  /\ forall t, (2 <= t < t0)%nat -> nlt (dPrime buffer t) threshold = false.

Definition dipMinimum (buffer : list R) (t0 tauE : nat) : Prop :=
  (t0 <= tauE < halfBufferOf buffer)%nat
  /\ (forall t, (t0 <= t < tauE)%nat ->
        nlt (dPrime buffer (t + 1)) (dPrime buffer t) = true)
  /\ ((tauE + 1 < halfBufferOf buffer)%nat ->
      nlt (dPrime buffer (tauE + 1)) (dPrime buffer tauE) = false).

End Float.

(** Evaluates the closed integer expressions under [IZR] in the goal. *)
Ltac evalZ :=
  repeat match goal with
         | |- context [IZR ?z] =>
             lazymatch z with
             | Z0 => fail
             | Zpos _ => fail
             | Zneg _ => fail
             | _ => let v := eval vm_compute in z in change z with v
             end
         end.

(** Two six-sample buffers of whole numbers, on which every sum of the
    estimator is exact: one whose d'(2) is 1/10, and one whose d'(2) is
    2299083750 / 15327225012, a little under 0.15. *)
Definition ramp : list R := map IZR [0; 4; -1; 3; -2; 0]%Z.

Definition underThreshold : list R :=
  map IZR [0; 61598; -19575; 42023; -39150; 0]%Z.

(** * Properties *)

(** ** Comparisons and arithmetic on finite numbers *)

Lemma Rltb_true_iff (x y : R) : Rltb x y = true <-> x < y.
Proof. unfold Rltb. destruct (Rlt_dec x y); split; intros; try easy. Qed.

Lemma Rltb_false_iff (x y : R) : Rltb x y = false <-> y <= x.
Proof.
  unfold Rltb. destruct (Rlt_dec x y); split; intros; try easy; lra.
Qed.

Lemma Rleb_true_iff (x y : R) : Rleb x y = true <-> x <= y.
Proof. unfold Rleb. destruct (Rle_dec x y); split; intros; try easy. Qed.

Lemma Rleb_false_iff (x y : R) : Rleb x y = false <-> y < x.
Proof.
  unfold Rleb. destruct (Rle_dec x y); split; intros; try easy; lra.
Qed.

Lemma nlt_Fin (x y : R) : nlt (Fin x) (Fin y) = true <-> x < y.
Proof. apply Rltb_true_iff. Qed.

Lemma nlt_Fin_false (x y : R) : nlt (Fin x) (Fin y) = false <-> y <= x.
Proof. apply Rltb_false_iff. Qed.

Lemma nle_Fin (x y : R) : nle (Fin x) (Fin y) = true <-> x <= y.
Proof. apply Rleb_true_iff. Qed.

Lemma ndiv_Fin (a b : R) : b <> 0 -> ndiv (Fin a) (Fin b) = Fin (a / b).
Proof. intros Hb. simpl. destruct (Req_dec_T b 0); [contradiction | reflexivity]. Qed.

Lemma ndiv_zero_zero : ndiv (Fin 0) (Fin 0) = NaN.
Proof.
  simpl. destruct (Req_dec_T 0 0) as [_ | H]; [reflexivity | now contradiction H].
Qed.

Lemma nlog2_Fin (a : R) : 0 < a -> nlog2 (Fin a) = Fin (Rlog2 a).
Proof. intros Ha. simpl. destruct (Rlt_dec 0 a); [reflexivity | contradiction]. Qed.

Lemma nsqrt_Fin (a : R) : 0 <= a -> nsqrt (Fin a) = Fin (R_sqrt.sqrt a).
Proof. intros Ha. simpl. destruct (Rlt_dec a 0); [lra | reflexivity]. Qed.

(** ** Logarithm and power of two *)

Lemma ln2_pos : 0 < ln 2.
Proof. pose proof ln_lt_2. lra. Qed.

Lemma Rlog2_pow2 (y : R) : Rlog2 (Rpower 2 y) = y.
Proof.
  unfold Rlog2, Rpower. rewrite ln_exp. field. pose proof ln2_pos. lra.
Qed.

Lemma Rpower2_log2 (x : R) : 0 < x -> Rpower 2 (Rlog2 x) = x.
Proof.
  intros Hx. unfold Rlog2, Rpower.
  replace (ln x / ln 2 * ln 2) with (ln x).
  - now apply exp_ln.
  - field. pose proof ln2_pos. lra.
Qed.

Lemma Rlog2_1 : Rlog2 1 = 0.
Proof. unfold Rlog2. rewrite ln_1. field. pose proof ln2_pos. lra. Qed.


Lemma Rpower2_0 : Rpower 2 0 = 1.
Proof. apply Rpower_O. lra. Qed.

Lemma Rpower2_pos (y : R) : 0 < Rpower 2 y.
Proof. unfold Rpower. apply exp_pos. Qed.

Lemma Rpower2_lt (x y : R) : x < y -> Rpower 2 x < Rpower 2 y.
Proof. intros H. apply Rpower_lt; lra. Qed.

(** ** Integers as numbers: floor, rounding, remainder, indexing *)

Lemma Zfloor_div12 (m : Z) : Zfloor (IZR m / 12) = (m / 12)%Z.
Proof.
  apply Zfloor_eq.
  pose proof (Z.div_mod m 12 ltac:(lia)) as Hdm.
  pose proof (Z.mod_pos_bound m 12 ltac:(lia)) as Hb.
  assert (H1 : (12 * (m / 12) <= m)%Z) by lia.
  assert (H2 : (m < 12 * (m / 12) + 12)%Z) by lia.
  apply IZR_le in H1. apply IZR_lt in H2.
  rewrite mult_IZR in H1. rewrite plus_IZR, mult_IZR in H2.
  split; lra.
Qed.

Lemma Rtrunc_div12 (m : Z) : Rtrunc (IZR m / 12) = Z.quot m 12.
Proof.
  unfold Rtrunc. destruct (Rle_dec 0 (IZR m / 12)) as [Hle | Hlt].
  - assert (Hm : (0 <= m)%Z).
    { apply le_IZR. lra. }
    rewrite Zfloor_div12. symmetry. apply Z.quot_div_nonneg; lia.
  - assert (Hm : (m < 0)%Z).
    { apply lt_IZR. lra. }
    replace (- (IZR m / 12)) with (IZR (- m) / 12) by (rewrite opp_IZR; lra).
    rewrite Zfloor_div12.
    rewrite <- (Z.quot_div_nonneg (- m) 12) by lia.
    rewrite Z.quot_opp_l by lia. lia.
Qed.

Lemma nrem_IZR_12 (m : Z) : nrem (Fin (IZR m)) (Fin 12) = Fin (IZR (Z.rem m 12)).
Proof.
  simpl. destruct (Req_dec_T 12 0) as [H | _]; [lra |].
  rewrite Rtrunc_div12. f_equal.
  pose proof (Z.quot_rem' m 12) as Hqr.
  assert (Hr : Z.rem m 12 = (m - 12 * Z.quot m 12)%Z) by lia.
  rewrite Hr, minus_IZR, mult_IZR. reflexivity.
Qed.

Lemma index_IZR {A : Type} (arr : list A) (k : Z) :
  index arr (Fin (IZR k)) = zindex arr k.
Proof.
  unfold index, zindex. rewrite ZfloorZ.
  destruct (Req_dec_T (IZR k) (IZR k)) as [_ | H]; [reflexivity | now contradiction H].
Qed.

(** The double remainder of [frequencyToNote] is the mathematical modulo. *)
Lemma rem_guard_mod (m : Z) : Z.rem (Z.rem m 12 + 12) 12 = (m mod 12)%Z.
Proof.
  pose proof (Z.rem_bound_abs m 12 ltac:(lia)) as Habs.
  pose proof (Z.quot_rem' m 12) as Hqr.
  assert (Hrange : (-12 < Z.rem m 12 < 12)%Z) by lia.
  rewrite Z.rem_mod_nonneg by lia.
  assert (Hm : m = (Z.rem m 12 + 12 + (Z.quot m 12 - 1) * 12)%Z) by lia.
  rewrite Hm at 2. now rewrite Z.mod_add by lia.
Qed.

Lemma Rround_IZR (m : Z) : Rround (IZR m) = m.
Proof. unfold Rround. apply Zfloor_eq. lra. Qed.

(** ** frequencyToNote *)

(** The value computed for a finite frequency that gets past the guard. *)
Lemma frequencyToNote_accepted (freq : R) :
  20 <= freq <= 5000 ->
  let midi := Rround (12 * Rlog2 (freq / 440) + 69) in
  frequencyToNote freq =
    Some (mkNoteInfo (zindex NOTE_NAMES (Z.rem (Z.rem midi 12 + 12) 12))
                     (IZR midi)
                     (IZR (midi / 12 - 1))).
Proof.
  intros [Hlo Hhi] midi. unfold frequencyToNote.
  assert (Hg1 : nlt freq 20 = false) by (apply nlt_Fin_false; lra).
  assert (Hg2 : ngt freq 5000 = false) by (apply nlt_Fin_false; lra).
  rewrite Hg1, Hg2. simpl orb. cbv iota.
  rewrite ndiv_Fin by lra.
  rewrite nlog2_Fin by (apply Rdiv_lt_0_compat; lra).
  cbn [nmul nadd nround]. fold midi.
  rewrite nrem_IZR_12. cbn [nadd].
  replace (IZR (Z.rem midi 12) + 12) with (IZR (Z.rem midi 12 + 12))
    by (now rewrite plus_IZR).
  rewrite nrem_IZR_12, index_IZR.
  rewrite ndiv_Fin by lra. cbn [nfloor nsub nneg nadd].
  rewrite Zfloor_div12.
  replace (IZR (midi / 12) + Ropp 1) with (IZR (midi / 12 - 1))
    by (rewrite minus_IZR; lra).
  reflexivity.
Qed.

Lemma zindex_NOTE_NAMES_mod (m : Z) :
  zindex NOTE_NAMES (m mod 12) = NOTE_NAMES !! Z.to_nat (m mod 12)
  /\ is_Some (NOTE_NAMES !! Z.to_nat (m mod 12)).
Proof.
  pose proof (Z.mod_pos_bound m 12 ltac:(lia)) as Hb.
  split.
  - unfold zindex. destruct (Z.ltb_spec (m mod 12) 0); [lia |].
    generalize (Z.to_nat (m mod 12)). intros n. revert n.
    generalize NOTE_NAMES. induction l as [| x l IH]; intros [| n]; simpl; auto.
  - apply lookup_lt_is_Some. simpl. lia.
Qed.

(** C8, as stated, fails at both end points: 20 Hz and 5000 Hz are outside
    the open interval, yet the guard lets them through. *)
Lemma frequencyToNote_endpoints_accepted :
  (~ 20 < 20 < 5000) /\ frequencyToNote 20 <> None
  /\ (~ 20 < 5000 < 5000) /\ frequencyToNote 5000 <> None.
Proof.
  repeat split; try lra.
  - rewrite (frequencyToNote_accepted 20) by lra. discriminate.
  - rewrite (frequencyToNote_accepted 5000) by lra. discriminate.
Qed.

(** C8 (amended): the result is [null] exactly for a frequency below 20 or
    above 5000 (the infinities included); the end points and everything in
    between give a record, and so does NaN, which no comparison rejects. *)
Theorem frequencyToNote_null_iff :
  (forall freq : R, frequencyToNote freq = None <-> (freq < 20 \/ 5000 < freq))
  /\ frequencyToNote PInf = None
  /\ frequencyToNote NInf = None
  /\ frequencyToNote NaN <> None
  /\ (forall freq : R, 20 <= freq <= 5000 -> frequencyToNote freq <> None).
Proof.
  assert (Hin : forall freq : R, 20 <= freq <= 5000 -> frequencyToNote freq <> None).
  { intros freq H. rewrite (frequencyToNote_accepted freq H). discriminate. }
  repeat split; try easy.
  - intros Hnone.
    destruct (Rlt_dec freq 20); [now left |].
    destruct (Rlt_dec 5000 freq); [now right |].
    exfalso. apply (Hin freq); [lra | exact Hnone].
  - intros Hout. unfold frequencyToNote.
    destruct Hout as [H | H].
    + apply nlt_Fin in H. now rewrite H.
    + apply nlt_Fin in H. unfold ngt. rewrite H. now rewrite orb_true_r.
Qed.

Lemma frequencyToNote_null_iff_witness :
  frequencyToNote 10 = None /\ frequencyToNote 6000 = None
  /\ frequencyToNote 82.41 <> None.
Proof.
  destruct frequencyToNote_null_iff as (Hiff & _ & _ & _ & Hin).
  split; [apply Hiff; lra |]. split; [apply Hiff; lra |]. apply Hin. lra.
Defined.

(** The concert pitch: 440 Hz is A, octave 4, MIDI 69. *)
Example frequencyToNote_A440 :
  frequencyToNote 440 = Some (mkNoteInfo (Some "A"%string) 69 4).
Proof.
  rewrite frequencyToNote_accepted by lra.
  replace (440 / 440) with 1 by lra. rewrite Rlog2_1.
  replace (12 * 0 + 69) with (IZR 69) by lra.
  rewrite Rround_IZR. reflexivity.
Qed.

(** ** isNoteMatch *)

Lemma bool_eq_of_iff (b1 b2 : bool) (P : Prop) :
  (b1 = true <-> P) -> (b2 = true <-> P) -> b1 = b2.
Proof. intros H1 H2. apply Bool.eq_iff_eq_true. tauto. Qed.

(** A finite detection of at least 20 Hz against a positive target. *)
Lemma isNoteMatch_cents (detected target tol : R) :
  20 <= detected -> 0 < target ->
  isNoteMatch (Some (Fin detected)) target (Some (Fin tol)) = true
  <-> Rabs (1200 * Rlog2 (detected / target)) <= tol.
Proof.
  intros Hd Ht. unfold isNoteMatch, falsy, toNumber, truthy, Reqb.
  destruct (Req_dec_T detected 0) as [H0 | _]; [lra |].
  assert (Hg : nlt detected 20 = false) by (apply nlt_Fin_false; lra).
  rewrite Hg. simpl negb. simpl orb. cbv iota.
  rewrite ndiv_Fin by lra.
  rewrite nlog2_Fin by (apply Rdiv_lt_0_compat; lra).
  cbn [nmul nabs]. apply nle_Fin.
Qed.





(** A detection equal to its target matches at every non-negative tolerance. *)
Example isNoteMatch_reflexive (f tol : R) :
  20 <= f -> 0 <= tol -> isNoteMatch (Some (Fin f)) f (Some (Fin tol)) = true.
Proof.
  intros Hf Htol. apply isNoteMatch_cents; try lra.
  replace (f / f) with 1 by (field; lra).
  rewrite Rlog2_1, Rmult_0_r, Rabs_R0. exact Htol.
Qed.

(** ** Calibration *)

Lemma nmul_one_r (t : num) : nmul t (Fin 1) = t.
Proof.
  destruct t as [a | | |]; simpl.
  - f_equal. lra.
  - destruct (Req_dec_T 1 0); [lra |]. unfold inf_of_sign.
    destruct (Rlt_dec 0 1); [reflexivity | lra].
  - destruct (Req_dec_T 1 0); [lra |]. unfold inf_of_sign.
    destruct (Rlt_dec 0 (Ropp 1)); [lra | reflexivity].
  - reflexivity.
Qed.

Lemma getCalibrationOffset_stored (offsets : calibrationOffsets) (stringNum : nat)
    (offset : R) :
  offsets !! stringNum = Some (Fin offset) ->
  getCalibrationOffset offsets stringNum = Fin offset.
Proof.
  intros Hs. unfold getCalibrationOffset. rewrite Hs. unfold truthy, Reqb.
  destruct (Req_dec_T offset 0) as [-> | _]; reflexivity.
Qed.

(** C7: with a stored (finite) offset the adjusted target is
    rawTargetFreq * 2^(offset/1200); without one the offset read is 0 and
    the target is returned unchanged. *)
Theorem getCalibratedTargetFrequency_spec
    (offsets : calibrationOffsets) (stringNum : nat) :
  (forall rawTargetFreq offset : R,
     offsets !! stringNum = Some (Fin offset) ->
     getCalibratedTargetFrequency offsets rawTargetFreq stringNum
     = Fin (rawTargetFreq * Rpower 2 (offset / 1200)))
  /\ (offsets !! stringNum = None ->
      getCalibrationOffset offsets stringNum = Fin 0
      /\ (forall rawTargetFreq : R,
            getCalibratedTargetFrequency offsets rawTargetFreq stringNum
            = Fin (rawTargetFreq * Rpower 2 (0 / 1200)))
      /\ (forall targetFreq : num,
            getCalibratedTargetFrequency offsets targetFreq stringNum = targetFreq)).
Proof.
  split.
  - intros raw offset Hs. unfold getCalibratedTargetFrequency.
    rewrite (getCalibrationOffset_stored _ _ _ Hs).
    rewrite ndiv_Fin by lra. reflexivity.
  - intros Hnone.
    assert (Hoff : getCalibrationOffset offsets stringNum = Fin 0).
    { unfold getCalibrationOffset. now rewrite Hnone. }
    split; [exact Hoff |].
    unfold getCalibratedTargetFrequency. rewrite Hoff.
    rewrite ndiv_Fin by lra. cbn [npow2].
    split; [reflexivity |].
    intros target. replace (0 / 1200) with 0 by lra.
    rewrite Rpower2_0. apply nmul_one_r.
Qed.

Lemma getCalibratedTargetFrequency_spec_witness :
  getCalibratedTargetFrequency (<[ 6%nat := Fin 12 ]> ∅) 82.41 6
  = Fin (82.41 * Rpower 2 (12 / 1200))
  /\ getCalibratedTargetFrequency (<[ 6%nat := Fin 12 ]> ∅) 110 5 = Fin 110.
Proof.
  split.
  - apply (getCalibratedTargetFrequency_spec (<[ 6%nat := Fin 12 ]> ∅) 6).
    reflexivity.
  - apply (getCalibratedTargetFrequency_spec (<[ 6%nat := Fin 12 ]> ∅) 5).
    reflexivity.
Defined.

(** ** The generated table *)

(** The nested loops never fail and push the frets of string 1, then of
    string 2, and so on. *)
Lemma generateFretboard_rows :
  generateFretboard =
    Some (flat_map
            (fun stringNum =>
               match OPEN_STRINGS stringNum with
               | Some openStr => map (fretPosition openStr stringNum) (seq 0 13)
               | None => []
               end)
            (seq 1 6)).
Proof.
  cbv [generateFretboard forLoop fold_left seq Nat.sub OPEN_STRINGS app
       flat_map map].
  reflexivity.
Qed.

Lemma FRETBOARD_length : length FRETBOARD = 78%nat.
Proof. unfold FRETBOARD. rewrite generateFretboard_rows. reflexivity. Qed.

Lemma OPEN_STRINGS_inv (stringNum : nat) (openStr : openString) :
  OPEN_STRINGS stringNum = Some openStr ->
  (1 <= stringNum <= 6)%nat /\ (40 <= os_midi openStr <= 64)%Z.
Proof.
  do 7 (destruct stringNum as [| stringNum]; [simpl; intros H; inversion H; simpl; lia |]).
  discriminate.
Qed.

Lemma In_FRETBOARD (p : position) :
  In p FRETBOARD <->
  exists stringNum openStr fret,
    OPEN_STRINGS stringNum = Some openStr /\ (fret <= 12)%nat
    /\ p = fretPosition openStr stringNum fret.
Proof.
  unfold FRETBOARD. rewrite generateFretboard_rows, in_flat_map. split.
  - intros (stringNum & _ & Hin).
    destruct (OPEN_STRINGS stringNum) as [openStr |] eqn:Hos; [| destruct Hin].
    apply in_map_iff in Hin. destruct Hin as (fret & Hp & Hfret).
    apply in_seq in Hfret.
    exists stringNum, openStr, fret. repeat split; auto. lia.
  - intros (stringNum & openStr & fret & Hos & Hfret & ->).
    exists stringNum. split.
    + apply in_seq. apply OPEN_STRINGS_inv in Hos. lia.
    + rewrite Hos. apply in_map. apply in_seq. lia.
Qed.

(** Twelfth roots of powers of two, bounded through their twelfth powers. *)
Lemma Rpower2_twelfth_pow (x : R) : (Rpower 2 (x / 12)) ^ 12 = Rpower 2 x.
Proof.
  rewrite <- Rpower_pow by apply Rpower2_pos.
  rewrite Rpower_mult. f_equal. simpl. lra.
Qed.

Lemma Rpower2_twelfth_between (k : Z) (a b : R) :
  0 <= a -> 0 < b ->
  a ^ 12 < powerRZ 2 k < b ^ 12 ->
  a < Rpower 2 (IZR k / 12) < b.
Proof.
  intros Ha Hb [Hlo Hhi].
  pose proof (Rpower2_pos (IZR k / 12)) as Hy.
  pose proof (Rpower2_twelfth_pow (IZR k)) as Hpow.
  rewrite <- powerRZ_Rpower in Hpow by lra.
  split.
  - destruct (Rlt_dec a (Rpower 2 (IZR k / 12))) as [| Hn]; [assumption |].
    assert (Hle : (Rpower 2 (IZR k / 12)) ^ 12 <= a ^ 12) by (apply pow_incr; lra).
    lra.
  - destruct (Rlt_dec (Rpower 2 (IZR k / 12)) b) as [| Hn]; [assumption |].
    assert (Hle : b ^ 12 <= (Rpower 2 (IZR k / 12)) ^ 12) by (apply pow_incr; lra).
    lra.
Qed.

Lemma OPEN_STRINGS_cases (stringNum : nat) (openStr : openString) :
  OPEN_STRINGS stringNum = Some openStr ->
  In openStr [mkOpenString "E" 4 329.63 64; mkOpenString "B" 3 246.94 59;
              mkOpenString "G" 3 196.00 55; mkOpenString "D" 3 146.83 50;
              mkOpenString "A" 2 110.00 45; mkOpenString "E" 2 82.41 40].
Proof.
  do 7 (destruct stringNum as [| stringNum];
        [simpl; intros H; inversion H; simpl; tauto |]).
  discriminate.
Qed.

Lemma openReference_close (stringNum : nat) (openStr : openString) :
  OPEN_STRINGS stringNum = Some openStr ->
  Rabs (openReference openStr - os_frequency openStr) < 0.005.
Proof.
  intros Hos. apply OPEN_STRINGS_cases in Hos. unfold openReference.
  simpl in Hos.
  repeat (destruct Hos as [<- | Hos]; [cbn [os_midi os_frequency] |]);
    try contradiction;
    apply Rabs_def1;
    match goal with
    | |- context [IZR (?m - 69)] =>
        let k := eval compute in (m - 69)%Z in
        change (m - 69)%Z with k
    end;
    match goal with
    | |- context [440 * Rpower 2 (IZR ?k / 12) - ?f] =>
        pose proof (Rpower2_twelfth_between k ((f - 0.005) / 440) ((f + 0.005) / 440)
                      ltac:(lra) ltac:(lra) ltac:(simpl powerRZ; lra))
    end;
    lra.
Qed.

Lemma fretPosition_frequency (openStr : openString) (stringNum fret : nat) :
  p_frequency (fretPosition openStr stringNum fret)
  = openReference openStr * Rpower 2 (INR fret / 12).
Proof.
  unfold fretPosition, openReference. cbn [p_frequency].
  rewrite Rmult_assoc, <- Rpower_plus. f_equal. f_equal.
  rewrite !minus_IZR, plus_IZR, <- INR_IZR_INZ. lra.
Qed.

Lemma zindex_rem_nonneg {A : Type} (arr : list A) (m : Z) :
  (0 <= m)%Z -> zindex arr (Z.rem m 12) = arr !! Z.to_nat (m mod 12).
Proof.
  intros Hm. rewrite Z.rem_mod_nonneg by lia.
  pose proof (Z.mod_pos_bound m 12 ltac:(lia)) as Hb.
  unfold zindex. destruct (Z.ltb_spec (m mod 12) 0); [lia |].
  generalize (Z.to_nat (m mod 12)). intros n. revert n.
  induction arr as [| x arr IH]; intros [| n]; simpl; auto.
Qed.

Lemma fretPosition_note (openStr : openString) (stringNum fret : nat) :
  (40 <= os_midi openStr <= 64)%Z ->
  let p := fretPosition openStr stringNum fret in
  p_note p = NOTE_NAMES !! Z.to_nat (p_midiNote p mod 12)
  /\ is_Some (p_note p).
Proof.
  intros Hmidi p.
  assert (Hnote : p_note p = NOTE_NAMES !! Z.to_nat (p_midiNote p mod 12)).
  { unfold p. cbn [p_note p_midiNote fretPosition]. apply zindex_rem_nonneg. lia. }
  split; [exact Hnote |].
  rewrite Hnote. apply lookup_lt_is_Some.
  pose proof (Z.mod_pos_bound (p_midiNote p) 12 ltac:(lia)).
  simpl length. lia.
Qed.

(** C3, as stated, fails on the open low E string: the generated frequency
    is not the tabulated 82.41 Hz. *)
Lemma FRETBOARD_low_E_not_tabulated :
  let p := fretPosition (mkOpenString "E" 2 82.41 40) 6 0 in
  In p FRETBOARD
  /\ OPEN_STRINGS (p_string p) = Some (mkOpenString "E" 2 82.41 40)
  /\ p_frequency p <> 82.41 * Rpower 2 (INR (p_fret p) / 12).
Proof.
  intros p. split; [| split].
  - apply In_FRETBOARD. exists 6%nat, (mkOpenString "E" 2 82.41 40), 0%nat.
    repeat split. lia.
  - reflexivity.
  - pose proof (openReference_close 6 _ eq_refl) as Hclose.
    unfold p. rewrite fretPosition_frequency.
    cbn [p_fret fretPosition INR].
    replace (0 / 12) with 0 by lra. rewrite Rpower2_0.
    intros Heq. cbn [os_frequency] in Hclose.
    unfold openReference in *. cbn [os_midi] in *.
    change (40 - 69)%Z with (-29)%Z in *.
    assert (Hy : Rpower 2 (IZR (-29) / 12) = 82.41 / 440) by lra.
    pose proof (Rpower2_twelfth_pow (IZR (-29))) as Hpow.
    rewrite Hy in Hpow. rewrite <- powerRZ_Rpower in Hpow by lra.
    simpl powerRZ in Hpow. lra.
Qed.

(** C3 (amended): the table has 78 entries; each one has
    frequency = reference * 2^(fret/12) with the equal-tempered reference
    440 * 2^((openMidi - 69)/12) of its string, which is within 0.005 Hz of the
    tabulated frequency; midiNote = openMidi + fret; the note is
    NOTE_NAMES[midiNote mod 12]; the octave is floor(midiNote/12) - 1. *)
Theorem FRETBOARD_invariant :
  length FRETBOARD = 78%nat
  /\ forall p, In p FRETBOARD ->
       exists openStr,
         OPEN_STRINGS (p_string p) = Some openStr
         /\ (p_fret p <= 12)%nat
         /\ p_frequency p = openReference openStr * Rpower 2 (INR (p_fret p) / 12)
         /\ p_frequency p = 440 * Rpower 2 (IZR (p_midiNote p - 69) / 12)
         /\ Rabs (openReference openStr - os_frequency openStr) < 0.005
         /\ p_midiNote p = (os_midi openStr + Z.of_nat (p_fret p))%Z
         /\ p_note p = NOTE_NAMES !! Z.to_nat (p_midiNote p mod 12)
         /\ is_Some (p_note p)
         /\ p_octave p = (p_midiNote p / 12 - 1)%Z.
Proof.
  split; [exact FRETBOARD_length |].
  intros p Hin. apply In_FRETBOARD in Hin.
  destruct Hin as (stringNum & openStr & fret & Hos & Hfret & ->).
  exists openStr.
  pose proof (OPEN_STRINGS_inv _ _ Hos) as [_ Hmidi].
  destruct (fretPosition_note openStr stringNum fret Hmidi) as [Hnote Hsome].
  repeat split; try reflexivity; try assumption.
  - apply fretPosition_frequency.
  - now apply (openReference_close stringNum).
Qed.

Lemma FRETBOARD_invariant_witness :
  exists openStr,
    OPEN_STRINGS 1 = Some openStr
    /\ p_frequency (fretPosition (mkOpenString "E" 4 329.63 64) 1 5)
       = openReference openStr * Rpower 2 (INR 5 / 12)
    /\ p_midiNote (fretPosition (mkOpenString "E" 4 329.63 64) 1 5) = 69%Z
    /\ p_note (fretPosition (mkOpenString "E" 4 329.63 64) 1 5) = Some "A"%string
    /\ p_octave (fretPosition (mkOpenString "E" 4 329.63 64) 1 5) = 4%Z.
Proof.
  destruct FRETBOARD_invariant as [_ Hall].
  destruct (Hall (fretPosition (mkOpenString "E" 4 329.63 64) 1 5)) as (openStr & H).
  - apply In_FRETBOARD. exists 1%nat, (mkOpenString "E" 4 329.63 64), 5%nat.
    repeat split. lia.
  - exists openStr. destruct H as (Hos & _ & Hf & _ & _ & _ & _ & _ & _).
    repeat split; assumption || reflexivity.
Defined.

(** ** Round trip through the table *)

Lemma Rpower2_neg3 : Rpower 2 (-3) = / 8.
Proof.
  change (-3) with (IZR (-3)). rewrite <- powerRZ_Rpower by lra.
  simpl powerRZ. lra.
Qed.

Lemma Rpower2_1 : Rpower 2 1 = 2.
Proof. apply Rpower_1. lra. Qed.

(** Every generated frequency is inside the instrument range. *)
Lemma fretPosition_frequency_range (openStr : openString) (stringNum fret : nat) :
  (40 <= os_midi openStr <= 64)%Z -> (fret <= 12)%nat ->
  55 < p_frequency (fretPosition openStr stringNum fret) < 880.
Proof.
  intros Hmidi Hfret. cbn [p_frequency fretPosition].
  set (m := (os_midi openStr + Z.of_nat fret)%Z).
  assert (Hm : (40 <= m <= 76)%Z) by lia.
  assert (Hlo : -3 < IZR (m - 69) / 12).
  { assert (H : IZR (-29) <= IZR (m - 69)) by (apply IZR_le; lia). lra. }
  assert (Hhi : IZR (m - 69) / 12 < 1).
  { assert (H : IZR (m - 69) <= IZR 7) by (apply IZR_le; lia). lra. }
  apply Rpower2_lt in Hlo. apply Rpower2_lt in Hhi.
  rewrite Rpower2_neg3 in Hlo. rewrite Rpower2_1 in Hhi. lra.
Qed.

Lemma frequencyToNote_fretPosition (openStr : openString) (stringNum fret : nat) :
  (40 <= os_midi openStr <= 64)%Z -> (fret <= 12)%nat ->
  let p := fretPosition openStr stringNum fret in
  frequencyToNote (p_frequency p)
  = Some (mkNoteInfo (p_note p) (IZR (p_midiNote p)) (IZR (p_octave p))).
Proof.
  intros Hmidi Hfret p.
  pose proof (fretPosition_frequency_range openStr stringNum fret Hmidi Hfret) as Hr.
  fold p in Hr.
  rewrite frequencyToNote_accepted by lra.
  assert (Hround : Rround (12 * Rlog2 (p_frequency p / 440) + 69) = p_midiNote p).
  { unfold p. cbn [p_frequency p_midiNote fretPosition].
    set (m := (os_midi openStr + Z.of_nat fret)%Z).
    replace (440 * Rpower 2 (IZR (m - 69) / 12) / 440)
      with (Rpower 2 (IZR (m - 69) / 12)) by lra.
    rewrite Rlog2_pow2.
    replace (12 * (IZR (m - 69) / 12) + 69) with (IZR m)
      by (rewrite minus_IZR; lra).
    apply Rround_IZR. }
  rewrite Hround. unfold p. cbn [p_note p_midiNote p_octave fretPosition].
  set (m := (os_midi openStr + Z.of_nat fret)%Z).
  assert (Hm : (40 <= m)%Z) by lia.
  rewrite rem_guard_mod, <- (Z.rem_mod_nonneg m 12) by lia.
  reflexivity.
Qed.

(** C6: for each of the 78 positions, [frequencyToNote] applied to its
    frequency is not [null] and gives back its note and its MIDI number. *)
Theorem FRETBOARD_round_trip :
  length FRETBOARD = 78%nat
  /\ forall p, In p FRETBOARD ->
       exists info,
         frequencyToNote (p_frequency p) = Some info
         /\ ni_note info = p_note p
         /\ is_Some (ni_note info)
         /\ ni_midiNote info = Fin (IZR (p_midiNote p)).
Proof.
  split; [exact FRETBOARD_length |].
  intros p Hin. apply In_FRETBOARD in Hin.
  destruct Hin as (stringNum & openStr & fret & Hos & Hfret & ->).
  pose proof (OPEN_STRINGS_inv _ _ Hos) as [_ Hmidi].
  destruct (fretPosition_note openStr stringNum fret Hmidi) as [_ Hsome].
  eexists. split; [now apply frequencyToNote_fretPosition |].
  repeat split. exact Hsome.
Qed.

Lemma FRETBOARD_round_trip_witness :
  exists info,
    frequencyToNote (p_frequency (fretPosition (mkOpenString "E" 2 82.41 40) 6 3))
    = Some info
    /\ ni_note info = Some "G"%string
    /\ ni_midiNote info = Fin 43.
Proof.
  destruct FRETBOARD_round_trip as [_ Hall].
  destruct (Hall (fretPosition (mkOpenString "E" 2 82.41 40) 6 3)) as (info & H).
  - apply In_FRETBOARD. exists 6%nat, (mkOpenString "E" 2 82.41 40), 3%nat.
    repeat split. lia.
  - exists info. destruct H as (Hf & Hn & _ & Hm).
    repeat split; assumption.
Defined.

(** ** The YIN estimator: loops as sums *)

Lemma sumR_app (l1 l2 : list R) : sumR (l1 ++ l2) = sumR l1 + sumR l2.
Proof. induction l1 as [| x l1 IH]; simpl; [lra | rewrite IH; lra]. Qed.

Lemma sumR_nonneg (l : list R) : Forall (fun x => 0 <= x) l -> 0 <= sumR l.
Proof. induction 1; simpl; lra. Qed.

Lemma forLoop_snoc {S : Type} (start stop : nat) (body : nat -> S -> S) (s : S) :
  (start <= stop)%nat ->
  forLoop start (Datatypes.S stop) body s = body stop (forLoop start stop body s).
Proof.
  intros Hle. unfold forLoop.
  replace (Datatypes.S stop - start)%nat with (Datatypes.S (stop - start)) by lia.
  rewrite seq_S, fold_left_app. simpl.
  now replace (start + (stop - start))%nat with stop by lia.
Qed.

Lemma forLoop_empty {S : Type} (start stop : nat) (body : nat -> S -> S) (s : S) :
  (stop <= start)%nat -> forLoop start stop body s = s.
Proof.
  intros Hle. unfold forLoop. now replace (stop - start)%nat with 0%nat by lia.
Qed.

(** An accumulation loop over finite terms computes their sum. *)
Lemma forLoop_sum (g : nat -> R) (body : nat -> num -> num) (start stop : nat) :
  (forall i acc, (start <= i < stop)%nat -> body i (Fin acc) = Fin (acc + g i)) ->
  forLoop start stop body (Fin 0)
  = Fin (sumR (map g (seq start (stop - start)))).
Proof.
  intros Hbody. induction stop as [| stop IH].
  - reflexivity.
  - destruct (le_lt_dec start stop) as [Hle | Hlt].
    + rewrite forLoop_snoc by assumption.
      rewrite IH by (intros; apply Hbody; lia).
      rewrite Hbody by lia.
      replace (Datatypes.S stop - start)%nat with (Datatypes.S (stop - start)) by lia.
      rewrite seq_S, map_app, sumR_app. simpl.
      replace (start + (stop - start))%nat with stop by lia.
      f_equal. lra.
    + rewrite forLoop_empty by lia.
      now replace (Datatypes.S stop - start)%nat with 0%nat by lia.
Qed.

Lemma sample_in_bounds (buffer : list R) (i : nat) :
  (i < length buffer)%nat -> sample buffer i = Fin (sampleR buffer i).
Proof.
  intros Hi. unfold sample, sampleR.
  destruct (buffer !! i) as [x |] eqn:Hx.
  - f_equal. symmetry. apply nth_lookup_Some with (d := 0) in Hx. exact Hx.
  - apply lookup_ge_None in Hx. lia.
Qed.

Lemma halfBuffer_double (buffer : list R) :
  (2 * halfBufferOf buffer <= length buffer)%nat.
Proof.
  unfold halfBufferOf.
  pose proof (Nat.div_mod (length buffer) 2 ltac:(lia)). lia.
Qed.

(** Every read of the inner loop is inside the buffer, and the loop computes
    d(tau). *)
Lemma differenceAt_spec (buffer : list R) (tau : nat) :
  (tau <= halfBufferOf buffer)%nat ->
  differenceAt buffer (halfBufferOf buffer) tau = Fin (differenceSpec buffer tau).
Proof.
  intros Htau. unfold differenceAt, differenceSpec.
  pose proof (halfBuffer_double buffer) as Hdbl.
  rewrite (forLoop_sum
             (fun i => (sampleR buffer i - sampleR buffer (i + tau)) ^ 2)).
  - now rewrite Nat.sub_0_r.
  - intros i acc Hi. cbv zeta.
    rewrite !sample_in_bounds by lia.
    cbn [nsub nneg nadd nmul]. f_equal. ring.
Qed.

Lemma rmsOf_spec (buffer : list R) :
  buffer <> [] -> rmsOf buffer = Fin (rmsSpec buffer).
Proof.
  intros Hne. unfold rmsOf, rmsSpec.
  rewrite (forLoop_sum (fun i => (sampleR buffer i) ^ 2)).
  - rewrite Nat.sub_0_r.
    assert (Hlen : INR (length buffer) <> 0).
    { apply not_0_INR. destruct buffer; [contradiction | simpl; lia]. }
    rewrite ndiv_Fin by assumption.
    assert (Hmap : map (fun i => sampleR buffer i ^ 2) (seq 0 (length buffer))
                   = map (fun x => x ^ 2) buffer).
    { clear. unfold sampleR. induction buffer as [| x l IH]; [reflexivity |].
      cbn [length seq map]. rewrite <- seq_shift, map_map.
      f_equal. rewrite <- IH. apply map_ext. intros i. reflexivity. }
    rewrite Hmap. apply nsqrt_Fin.
    apply Rmult_le_pos.
    + apply sumR_nonneg. apply List.Forall_forall. intros y Hy.
      apply in_map_iff in Hy. destruct Hy as (x & <- & _). apply pow2_ge_0.
    + left. apply Rinv_0_lt_compat. apply lt_0_INR.
      destruct buffer; [contradiction | simpl; lia].
  - intros i acc Hi. rewrite sample_in_bounds by lia.
    cbn [nadd nmul]. f_equal. ring.
Qed.

Lemma rmsOf_empty : rmsOf [] = NaN.
Proof.
  unfold rmsOf, forLoop. simpl fold_left. simpl length. simpl INR.
  now rewrite ndiv_zero_zero.
Qed.

Lemma cumulativeSpec_S (buffer : list R) (tau : nat) :
  cumulativeSpec buffer (S tau)
  = cumulativeSpec buffer tau + differenceSpec buffer (S tau).
Proof.
  unfold cumulativeSpec. rewrite seq_S, map_app, sumR_app. simpl. lra.
Qed.

Lemma differenceSpec_nonneg (buffer : list R) (tau : nat) :
  0 <= differenceSpec buffer tau.
Proof.
  unfold differenceSpec. apply sumR_nonneg. apply List.Forall_forall.
  intros y Hy. apply in_map_iff in Hy. destruct Hy as (i & <- & _).
  apply pow2_ge_0.
Qed.

Lemma cumulativeSpec_nonneg (buffer : list R) (tau : nat) :
  0 <= cumulativeSpec buffer tau.
Proof.
  induction tau as [| tau IH].
  - unfold cumulativeSpec. simpl. lra.
  - rewrite cumulativeSpec_S. pose proof (differenceSpec_nonneg buffer (S tau)). lra.
Qed.

(** The state of the outer loop when it has filled the lags below [stop]. *)
Lemma yinLoop_invariant (buffer : list R) (stop : nat) :
  let st := forLoop 1 stop (yinStep buffer (halfBufferOf buffer))
              (Fin 0, <[ 0%nat := Fin 1 ]> (replicate (halfBufferOf buffer) (Fin 0))) in
  (stop <= halfBufferOf buffer)%nat ->
  fst st = Fin (cumulativeSpec buffer (stop - 1))
  /\ length (snd st) = halfBufferOf buffer
  /\ (forall tau, (1 <= tau < stop)%nat -> snd st !! tau = Some (dPrime buffer tau))
  /\ ((0 < halfBufferOf buffer)%nat -> snd st !! 0%nat = Some (Fin 1)).
Proof.
  assert (Hinit : forall stop', (stop' <= 1)%nat ->
    let st := forLoop 1 stop' (yinStep buffer (halfBufferOf buffer))
                (Fin 0, <[ 0%nat := Fin 1 ]> (replicate (halfBufferOf buffer) (Fin 0))) in
    fst st = Fin (cumulativeSpec buffer (stop' - 1))
    /\ length (snd st) = halfBufferOf buffer
    /\ (forall tau, (1 <= tau < stop')%nat -> snd st !! tau = Some (dPrime buffer tau))
    /\ ((0 < halfBufferOf buffer)%nat -> snd st !! 0%nat = Some (Fin 1))).
  { intros stop' Hs. cbv zeta. rewrite forLoop_empty by lia. cbn [fst snd].
    rewrite length_insert, length_replicate.
    replace (stop' - 1)%nat with 0%nat by lia. repeat split.
    - intros tau Htau. lia.
    - intros Hpos. apply list_lookup_insert_eq. now rewrite length_replicate. }
  induction stop as [| stop IH]; intros st Hstop.
  - apply Hinit. lia.
  - destruct (Nat.eq_dec stop 0%nat) as [-> | Hnz]; [apply Hinit; lia |].
    destruct (IH ltac:(lia)) as (Hsum & Hlen & Hfilled & Hzero).
    unfold st. rewrite forLoop_snoc by lia.
    set (prev := forLoop 1 stop (yinStep buffer (halfBufferOf buffer))
                   (Fin 0, <[ 0%nat := Fin 1 ]>
                             (replicate (halfBufferOf buffer) (Fin 0)))) in *.
    unfold yinStep. cbn [fst snd].
    rewrite differenceAt_spec by lia.
    rewrite Hsum. cbn [nadd nmul].
    assert (Hcum : cumulativeSpec buffer (stop - 1) + differenceSpec buffer stop
                   = cumulativeSpec buffer stop).
    { destruct stop as [| n]; [lia |].
      rewrite cumulativeSpec_S. now replace (S n - 1)%nat with n by lia. }
    rewrite Hcum. replace (S stop - 1)%nat with stop by lia.
    rewrite length_insert. repeat split; try assumption.
    + intros tau Htau. destruct (Nat.eq_dec tau stop) as [-> | Hne].
      * now rewrite list_lookup_insert_eq by lia.
      * rewrite list_lookup_insert_ne by lia. apply Hfilled. lia.
    + intros Hpos. rewrite list_lookup_insert_ne by lia. now apply Hzero.
Qed.

(** The entries of [yinBuffer]: 1 at lag 0 and d'(tau) above. *)
Lemma yinBufferOf_spec (buffer : list R) :
  let yinBuffer := yinBufferOf buffer in
  length yinBuffer = halfBufferOf buffer
  /\ (forall tau, (1 <= tau < halfBufferOf buffer)%nat ->
        yinAt yinBuffer tau = dPrime buffer tau)
  /\ ((0 < halfBufferOf buffer)%nat -> yinAt yinBuffer 0 = Fin 1).
Proof.
  destruct (yinLoop_invariant buffer (halfBufferOf buffer) ltac:(lia))
    as (_ & Hlen & Hfilled & Hzero).
  cbv zeta. unfold yinBufferOf, yinAt. repeat split.
  - exact Hlen.
  - intros tau Htau. now rewrite (Hfilled tau Htau).
  - intros Hpos. now rewrite (Hzero Hpos).
Qed.

(** ** The normalized difference d' *)

Lemma cumulativeSpec_mono (buffer : list R) (tau tau' : nat) :
  (tau <= tau')%nat -> cumulativeSpec buffer tau <= cumulativeSpec buffer tau'.
Proof.
  induction 1 as [| tau' _ IH]; [lra |].
  rewrite cumulativeSpec_S. pose proof (differenceSpec_nonneg buffer (S tau')). lra.
Qed.

Lemma differenceSpec_le_cumulative (buffer : list R) (tau : nat) :
  (1 <= tau)%nat -> differenceSpec buffer tau <= cumulativeSpec buffer tau.
Proof.
  intros Htau. destruct tau as [| n]; [lia |].
  rewrite cumulativeSpec_S. pose proof (cumulativeSpec_nonneg buffer n). lra.
Qed.

(** d'(tau) is NaN while the running sum is zero and a non-negative real
    afterwards. *)
Lemma dPrime_cases (buffer : list R) (tau : nat) :
  (cumulativeSpec buffer tau = 0 /\ dPrime buffer tau = NaN)
  \/ (0 < cumulativeSpec buffer tau
      /\ exists y, dPrime buffer tau = Fin y /\ 0 <= y
                   /\ y * cumulativeSpec buffer tau
                      = differenceSpec buffer tau * INR tau).
Proof.
  pose proof (cumulativeSpec_nonneg buffer tau) as Hc.
  pose proof (differenceSpec_nonneg buffer tau) as Hd.
  unfold dPrime.
  destruct (Req_dec_T (cumulativeSpec buffer tau) 0) as [Hz | Hnz].
  - left. split; [assumption |].
    assert (Hprod : differenceSpec buffer tau * INR tau = 0).
    { destruct tau as [| n]; [simpl; lra |].
      pose proof (differenceSpec_le_cumulative buffer (S n) ltac:(lia)).
      replace (differenceSpec buffer (S n)) with 0 by lra. lra. }
    rewrite Hz, Hprod. apply ndiv_zero_zero.
  - right. split; [lra |].
    exists (differenceSpec buffer tau * INR tau / cumulativeSpec buffer tau).
    split; [now apply ndiv_Fin |]. split.
    + apply Rmult_le_pos.
      * apply Rmult_le_pos; [assumption | apply pos_INR].
      * left. apply Rinv_0_lt_compat. lra.
    + field. assumption.
Qed.

Lemma dPrime_lt_finite (buffer : list R) (tau : nat) (bound : num) :
  nlt (dPrime buffer tau) bound = true ->
  0 < cumulativeSpec buffer tau
  /\ exists y, dPrime buffer tau = Fin y /\ 0 <= y.
Proof.
  intros Hlt. destruct (dPrime_cases buffer tau) as [[_ Hnan] | [Hpos (y & Hy & Hy0 & _)]].
  - rewrite Hnan in Hlt. discriminate.
  - split; [assumption |]. now exists y.
Qed.

Lemma dPrime_finite_after (buffer : list R) (tau tau' : nat) :
  (tau <= tau')%nat -> 0 < cumulativeSpec buffer tau ->
  exists y, dPrime buffer tau' = Fin y /\ 0 <= y.
Proof.
  intros Hle Hpos. pose proof (cumulativeSpec_mono buffer tau tau' Hle) as Hmono.
  destruct (dPrime_cases buffer tau') as [[Hz _] | [_ (y & Hy & Hy0 & _)]]; [lra |].
  now exists y.
Qed.

(** The first lag with a non-zero difference has d' = tau: a dip under a
    threshold of at most 2 cannot start there. *)
Lemma dPrime_under_prev_positive (buffer : list R) (tau : nat) (threshold : R) :
  (2 <= tau)%nat -> threshold <= 2 ->
  nlt (dPrime buffer tau) threshold = true ->
  0 < cumulativeSpec buffer (tau - 1).
Proof.
  intros Htau Hthr Hlt.
  destruct (dPrime_cases buffer tau) as [[_ Hnan] | [Hpos (y & Hy & Hy0 & Hprod)]].
  - rewrite Hnan in Hlt. discriminate.
  - rewrite Hy in Hlt. apply nlt_Fin in Hlt.
    pose proof (cumulativeSpec_nonneg buffer (tau - 1)) as Hprev.
    destruct (Req_dec_T (cumulativeSpec buffer (tau - 1)) 0) as [Hz | Hnz]; [| lra].
    exfalso.
    assert (Hcum : cumulativeSpec buffer tau = differenceSpec buffer tau).
    { replace tau with (S (tau - 1)) at 1 by lia. rewrite cumulativeSpec_S, Hz.
      replace (S (tau - 1)) with tau by lia. lra. }
    rewrite Hcum in Hprod, Hpos.
    assert (Hy2 : y = INR tau).
    { apply (Rmult_eq_reg_r (differenceSpec buffer tau)); lra. }
    assert (H2 : 2 <= INR tau) by (change 2 with (INR 2); apply le_INR; lia).
    lra.
Qed.

Lemma dPrime_1 (buffer : list R) :
  0 < cumulativeSpec buffer 1 -> dPrime buffer 1 = Fin 1.
Proof.
  intros Hpos. unfold dPrime.
  assert (Hc : cumulativeSpec buffer 1 = differenceSpec buffer 1).
  { unfold cumulativeSpec. simpl. lra. }
  rewrite Hc in *. rewrite ndiv_Fin by lra. f_equal. simpl INR. field. lra.
Qed.

(** ** Order on numbers *)

Lemma nlt_trans (x y z : num) :
  nlt x y = true -> nlt y z = true -> nlt x z = true.
Proof.
  destruct x, y, z; simpl; try easy.
  rewrite !Rltb_true_iff. lra.
Qed.

(** ** The threshold scan and the walk to the local minimum *)

Section Scan.

Variable yinBuffer : list num.
Variable halfBuffer : nat.

Let y (tau : nat) : num := yinAt yinBuffer tau.

(** The walk goes down strictly at each step and, given enough steps,
    stops only where the loop condition fails. *)
Lemma walkDip_spec (steps tau : nat) :
  let tauE := walkDip yinBuffer halfBuffer steps tau in
  (tau <= tauE)%nat
  /\ (forall t, (tau <= t < tauE)%nat ->
        (t + 1 < halfBuffer)%nat /\ nlt (y (t + 1)) (y t) = true)
  /\ ((halfBuffer <= tau + 1 + steps)%nat ->
      (tauE + 1 < halfBuffer)%nat -> nlt (y (tauE + 1)) (y tauE) = false).
Proof.
  revert tau. induction steps as [| steps IH]; intros tau; cbn [walkDip].
  - split; [lia |]. split; [intros t Ht; lia |]. intros Hs Hn. lia.
  - destruct (Nat.ltb_spec (tau + 1) halfBuffer) as [Hin | Hout]; cbn [andb].
    + destruct (nlt (yinAt yinBuffer (tau + 1)) (yinAt yinBuffer tau)) eqn:Hdown.
      * destruct (IH (S tau)) as (Hle & Hchain & Hexit).
        split; [lia |]. split.
        -- intros t Ht. destruct (Nat.eq_dec t tau) as [-> | Hne].
           ++ split; assumption.
           ++ apply Hchain. lia.
        -- intros Hsteps Hnext. apply Hexit; lia.
      * split; [lia |]. split; [intros t Ht; lia |]. intros _ _. exact Hdown.
    + split; [lia |]. split; [intros t Ht; lia |]. intros _ Hn. lia.
Qed.

Lemma walkDip_in_range (steps tau : nat) :
  (tau < halfBuffer)%nat -> (walkDip yinBuffer halfBuffer steps tau < halfBuffer)%nat.
Proof.
  revert tau. induction steps as [| steps IH]; intros tau Htau; cbn [walkDip].
  - assumption.
  - destruct (Nat.ltb_spec (tau + 1) halfBuffer) as [Hin | Hout]; cbn [andb].
    + destruct (nlt _ _); [apply IH; lia | assumption].
    + assumption.
Qed.

Lemma walkDip_under (threshold : num) (steps tau : nat) :
  nlt (y tau) threshold = true ->
  nlt (y (walkDip yinBuffer halfBuffer steps tau)) threshold = true.
Proof.
  revert tau. induction steps as [| steps IH]; intros tau Hlt; cbn [walkDip].
  - assumption.
  - destruct ((tau + 1 <? halfBuffer)%nat
              && nlt (yinAt yinBuffer (tau + 1)) (yinAt yinBuffer tau)) eqn:Hgo.
    + apply andb_true_iff in Hgo. destruct Hgo as [_ Hdown].
      apply IH. replace (S tau) with (tau + 1)%nat by lia.
      exact (nlt_trans _ _ _ Hdown Hlt).
    + assumption.
Qed.

Lemma scanFrom_None (threshold : num) (count tau : nat) :
  scanFrom threshold yinBuffer halfBuffer count tau = None
  <-> forall t, (tau <= t < tau + count)%nat -> nlt (y t) threshold = false.
Proof.
  revert tau. induction count as [| count IH]; intros tau; cbn [scanFrom].
  - split; [intros _ t Ht; lia | reflexivity].
  - destruct (nlt (yinAt yinBuffer tau) threshold) eqn:Hlt.
    + split; [discriminate |]. intros Hall.
      specialize (Hall tau ltac:(lia)). unfold y in Hall. congruence.
    + rewrite IH. split; intros Hall t Ht.
      * destruct (Nat.eq_dec t tau) as [-> | Hne]; [exact Hlt | apply Hall; lia].
      * apply Hall. lia.
Qed.

Lemma scanFrom_Some (threshold : num) (count tau tauE : nat) :
  scanFrom threshold yinBuffer halfBuffer count tau = Some tauE ->
  exists t0, (tau <= t0 < tau + count)%nat
             /\ nlt (y t0) threshold = true
             /\ (forall t, (tau <= t < t0)%nat -> nlt (y t) threshold = false)
             /\ tauE = walkDip yinBuffer halfBuffer halfBuffer t0.
Proof.
  revert tau. induction count as [| count IH]; intros tau; cbn [scanFrom].
  - discriminate.
  - destruct (nlt (yinAt yinBuffer tau) threshold) eqn:Hlt.
    + intros [= <-]. exists tau.
      split; [lia |]. split; [exact Hlt |]. split; [intros t Ht; lia | reflexivity].
    + intros Hs. destruct (IH _ Hs) as (t0 & Hr & Hu & Hfirst & Hw).
      exists t0. split; [lia |]. split; [exact Hu |]. split; [| exact Hw].
      intros t Ht. destruct (Nat.eq_dec t tau) as [-> | Hne]; [exact Hlt |].
      apply Hfirst. lia.
Qed.

End Scan.

(** ** The lag estimate in terms of d' *)

Lemma tauEstimateOf_None (threshold : num) (buffer : list R) :
  tauEstimateOf threshold (yinBufferOf buffer) (halfBufferOf buffer) = None
  <-> forall tau, (2 <= tau < halfBufferOf buffer)%nat ->
        nlt (dPrime buffer tau) threshold = false.
Proof.
  destruct (yinBufferOf_spec buffer) as (_ & Hd & _).
  unfold tauEstimateOf. rewrite scanFrom_None. split; intros Hall tau Htau.
  - rewrite <- Hd by lia. apply Hall. lia.
  - rewrite Hd by lia. apply Hall. lia.
Qed.

Lemma tauEstimateOf_Some (threshold : num) (buffer : list R) (tauE : nat) :
  tauEstimateOf threshold (yinBufferOf buffer) (halfBufferOf buffer) = Some tauE ->
  exists t0, firstDip threshold buffer t0 /\ dipMinimum buffer t0 tauE.
Proof.
  destruct (yinBufferOf_spec buffer) as (_ & Hd & _).
  unfold tauEstimateOf. intros Hs.
  apply scanFrom_Some in Hs. destruct Hs as (t0 & Hr & Hu & Hfirst & ->).
  pose proof (walkDip_spec (yinBufferOf buffer) (halfBufferOf buffer)
                (halfBufferOf buffer) t0) as (Hle & Hchain & Hexit).
  pose proof (walkDip_in_range (yinBufferOf buffer) (halfBufferOf buffer)
                (halfBufferOf buffer) t0 ltac:(lia)) as Hin.
  set (tauE := walkDip (yinBufferOf buffer) (halfBufferOf buffer)
                 (halfBufferOf buffer) t0) in *.
  exists t0. split; [| split; [| split]].
  - split; [lia |]. split.
    + rewrite <- Hd by lia. exact Hu.
    + intros t Ht. rewrite <- Hd by lia. apply Hfirst. lia.
  - lia.
  - intros t Ht. destruct (Hchain t Ht) as [Hlt Hdown].
    rewrite <- !Hd by lia. exact Hdown.
  - intros Hnext. rewrite <- !Hd by lia. apply Hexit; lia.
Qed.

Lemma dip_chain_under (threshold : num) (buffer : list R) (t0 tauE : nat) :
  firstDip threshold buffer t0 -> dipMinimum buffer t0 tauE ->
  forall t, (t0 <= t <= tauE)%nat -> nlt (dPrime buffer t) threshold = true.
Proof.
  intros (Hr & Hu & _) (Hle & Hchain & _) t Ht.
  induction t as [| t IH]; [lia |].
  destruct (Nat.eq_dec (S t) t0) as [-> | Hne]; [exact Hu |].
  specialize (IH ltac:(lia)).
  specialize (Hchain t ltac:(lia)).
  replace (t + 1)%nat with (S t) in Hchain by lia.
  exact (nlt_trans _ _ _ Hchain IH).
Qed.

(** At the chosen lag d' is a real in [0, threshold), strictly below its
    left neighbour and not above its right neighbour. *)
Lemma dip_minimum_values (threshold : R) (buffer : list R) (t0 tauE : nat) :
  threshold <= 1 ->
  firstDip threshold buffer t0 -> dipMinimum buffer t0 tauE ->
  exists y0 y1,
    dPrime buffer (tauE - 1) = Fin y0 /\ dPrime buffer tauE = Fin y1
    /\ 0 <= y1 < threshold /\ y1 < y0
    /\ ((tauE + 1 < halfBufferOf buffer)%nat ->
        exists y2, dPrime buffer (tauE + 1) = Fin y2 /\ y1 <= y2).
Proof.
  intros Hthr Hfirst Hmin.
  pose proof (dip_chain_under _ _ _ _ Hfirst Hmin) as Hunder.
  destruct Hfirst as (Hr & Hu & Hbefore). destruct Hmin as (Hle & Hchain & Hexit).
  pose proof (Hunder tauE ltac:(lia)) as HuE.
  destruct (dPrime_lt_finite _ _ _ HuE) as (HcumE & y1 & Hy1 & Hy1pos).
  assert (Hy1thr : y1 < threshold).
  { rewrite Hy1 in HuE. now apply nlt_Fin in HuE. }
  assert (Hprev : exists y0, dPrime buffer (tauE - 1) = Fin y0 /\ y1 < y0).
  { destruct (Nat.eq_dec tauE t0) as [-> | Hne].
    - pose proof (dPrime_under_prev_positive buffer t0 threshold
                    ltac:(lia) ltac:(lra) Hu) as Hcum.
      destruct (Nat.eq_dec t0 2%nat) as [-> | Hne2].
      + exists 1. split; [now apply dPrime_1 | lra].
      + destruct (dPrime_finite_after buffer (t0 - 1) (t0 - 1) ltac:(lia) Hcum)
          as (y0 & Hy0 & _).
        exists y0. split; [assumption |].
        specialize (Hbefore (t0 - 1)%nat ltac:(lia)).
        rewrite Hy0 in Hbefore. apply nlt_Fin_false in Hbefore. lra.
    - specialize (Hchain (tauE - 1)%nat ltac:(lia)).
      replace (tauE - 1 + 1)%nat with tauE in Hchain by lia.
      rewrite Hy1 in Hchain.
      destruct (dPrime_cases buffer (tauE - 1))
        as [[_ Hnan] | [_ (y0 & Hy0 & _)]].
      + rewrite Hnan in Hchain. discriminate.
      + exists y0. split; [assumption |].
        rewrite Hy0 in Hchain. now apply nlt_Fin in Hchain. }
  destruct Hprev as (y0 & Hy0 & Hlt).
  exists y0, y1. repeat split; try assumption.
  intros Hnext. specialize (Hexit Hnext).
  destruct (dPrime_finite_after buffer tauE (tauE + 1) ltac:(lia) HcumE)
    as (y2 & Hy2 & _).
  exists y2. split; [assumption |].
  rewrite Hy1, Hy2 in Hexit. now apply nlt_Fin_false in Hexit.
Qed.

Lemma firstDip_unique (threshold : num) (buffer : list R) (t0 t0' : nat) :
  firstDip threshold buffer t0 -> firstDip threshold buffer t0' -> t0 = t0'.
Proof.
  intros (Hr & Hu & Hb) (Hr' & Hu' & Hb').
  destruct (lt_eq_lt_dec t0 t0') as [[Hlt | Heq] | Hgt]; [| assumption |].
  - specialize (Hb' t0 ltac:(lia)). congruence.
  - specialize (Hb t0' ltac:(lia)). congruence.
Qed.

Lemma dipMinimum_unique (buffer : list R) (t0 tauE tauE' : nat) :
  dipMinimum buffer t0 tauE -> dipMinimum buffer t0 tauE' -> tauE = tauE'.
Proof.
  intros (Hr & Hc & He) (Hr' & Hc' & He').
  destruct (lt_eq_lt_dec tauE tauE') as [[Hlt | Heq] | Hgt]; [| assumption |].
  - specialize (Hc' tauE ltac:(lia)). specialize (He ltac:(lia)). congruence.
  - specialize (Hc tauE' ltac:(lia)). specialize (He' ltac:(lia)). congruence.
Qed.

(** ** Parabolic interpolation *)

(** The refined lag stays within half a sample of the chosen lag. *)
Lemma betterTauOf_bounds (threshold : R) (buffer : list R) (t0 tauE : nat) :
  threshold <= 1 ->
  firstDip threshold buffer t0 -> dipMinimum buffer t0 tauE ->
  exists betterTau,
    betterTauOf (yinBufferOf buffer) (halfBufferOf buffer) tauE = Fin betterTau
    /\ INR tauE - / 2 < betterTau <= INR tauE + / 2.
Proof.
  intros Hthr Hfirst Hmin.
  destruct (dip_minimum_values _ _ _ _ Hthr Hfirst Hmin)
    as (y0 & y1 & Hy0 & Hy1 & [Hy1pos Hy1thr] & Hlt & Hnext).
  destruct (yinBufferOf_spec buffer) as (_ & Hd & _).
  destruct Hfirst as (Hr & _). destruct Hmin as (Hle & _).
  unfold betterTauOf.
  destruct ((0 <? tauE)%nat
            && (Z.of_nat tauE <? Z.of_nat (halfBufferOf buffer) - 1)%Z) eqn:Hcond.
  - apply andb_true_iff in Hcond. destruct Hcond as [_ Hc].
    apply Z.ltb_lt in Hc.
    destruct (Hnext ltac:(lia)) as (y2 & Hy2 & Hge).
    rewrite !Hd by lia. rewrite Hy0, Hy1, Hy2.
    cbn [nmul nsub nneg nadd].
    assert (Hden : 2 * (2 * y1 + - y2 + - y0) <> 0) by lra.
    rewrite ndiv_Fin by assumption. cbn [isFinite nadd].
    eexists. split; [reflexivity |].
    set (den := 2 * (2 * y1 + - y2 + - y0)) in *.
    assert (Hneg : den < 0) by (unfold den; lra).
    assert (Hadj : (y2 + - y0) / den * den = y2 + - y0) by (field; assumption).
    set (adj := (y2 + - y0) / den) in *.
    assert (Hlo : - / 2 < adj).
    { destruct (Rlt_dec (- / 2) adj) as [| Hn]; [assumption | exfalso].
      assert (Hm : 0 <= (- / 2 - adj) * (- den)) by (apply Rmult_le_pos; lra).
      unfold den in Hm, Hadj. nra. }
    assert (Hhi : adj <= / 2).
    { destruct (Rle_dec adj (/ 2)) as [| Hn]; [assumption | exfalso].
      assert (Hm : 0 <= (adj - / 2) * (- den)) by (apply Rmult_le_pos; lra).
      unfold den in Hm, Hadj. nra. }
    lra.
  - eexists. split; [reflexivity | lra].
Qed.

(** ** The three ways out of yinDetect *)

Lemma noDetection_not_in_range (f p : R) :
  70 <= f -> mkResult (Fin f) (Fin p) <> noDetection.
Proof. intros Hf Heq. unfold noDetection in Heq. inversion Heq. lra. Qed.

(** The run of [yinDetect] with the constructor's settings: silence, no dip,
    or a dip whose refined lag gives the frequency and whose depth gives the
    probability. *)
Lemma yinDetect_analysis (buffer : list R) (sampleRate : R) :
  let result := yinDetect constructor buffer sampleRate in
  (nlt (rmsOf buffer) 0.01 = true /\ result = noDetection)
  \/ (nlt (rmsOf buffer) 0.01 = false
      /\ (forall tau, (2 <= tau < halfBufferOf buffer)%nat ->
            nlt (dPrime buffer tau) 0.15 = false)
      /\ result = noDetection)
  \/ (nlt (rmsOf buffer) 0.01 = false
      /\ exists t0 tauE betterTau y1,
           firstDip 0.15 buffer t0 /\ dipMinimum buffer t0 tauE
           /\ betterTauOf (yinBufferOf buffer) (halfBufferOf buffer) tauE
              = Fin betterTau
           /\ INR tauE - / 2 < betterTau <= INR tauE + / 2
           /\ dPrime buffer tauE = Fin y1 /\ 0 <= y1 < 0.15
           /\ (((sampleRate / betterTau < 70 \/ 1200 < sampleRate / betterTau)
                /\ result = noDetection)
               \/ (70 <= sampleRate / betterTau <= 1200
                   /\ result = mkResult (Fin (sampleRate / betterTau))
                                        (Fin (1 - y1))))).
Proof.
  intros result. unfold result, yinDetect.
  destruct (nlt (rmsOf buffer) 0.01) eqn:Hrms; [left; now split | right].
  cbn [yinThreshold minFrequency maxFrequency constructor].
  destruct (tauEstimateOf 0.15 (yinBufferOf buffer) (halfBufferOf buffer))
    as [tauE |] eqn:Htau.
  - right. split; [reflexivity |].
    destruct (tauEstimateOf_Some _ _ _ Htau) as (t0 & Hfirst & Hmin).
    destruct (betterTauOf_bounds 0.15 buffer t0 tauE ltac:(lra) Hfirst Hmin)
      as (betterTau & Hbt & Hbounds).
    destruct (dip_minimum_values 0.15 buffer t0 tauE ltac:(lra) Hfirst Hmin)
      as (y0 & y1 & _ & Hy1 & Hy1r & _ & _).
    exists t0, tauE, betterTau, y1.
    repeat (split; [assumption |]).
    assert (Htau2 : 2 <= INR tauE).
    { destruct Hfirst as (Hr & _). destruct Hmin as (Hle & _).
      change 2 with (INR 2). apply le_INR. lia. }
    destruct (yinBufferOf_spec buffer) as (_ & Hd & _).
    rewrite Hbt, ndiv_Fin by lra.
    rewrite Hd by (destruct Hfirst as (Hr & _); destruct Hmin as (Hle & _); lia).
    rewrite Hy1. cbn [nsub nneg nadd]. unfold ngt, nlt, Rltb.
    destruct (Rlt_dec (sampleRate / betterTau) 70) as [Hlow | Hlow].
    + left. split; [now left | reflexivity].
    + destruct (Rlt_dec 1200 (sampleRate / betterTau)) as [Hhigh | Hhigh].
      * left. split; [now right | reflexivity].
      * right. split; [lra | reflexivity].
  - left. split; [reflexivity |]. split; [| reflexivity].
    now apply tauEstimateOf_None.
Qed.

(** ** A six-sample buffer *)

(** The alternating buffer 1, 0, 1, 0, 1, 0 has d(1) = 3 and d(2) = 0: the
    scan stops at lag 2, the only lag it looks at. *)
Lemma alternating_dPrime_2 : dPrime [1; 0; 1; 0; 1; 0] 2 = Fin 0.
Proof.
  unfold dPrime.
  assert (Hd2 : differenceSpec [1; 0; 1; 0; 1; 0] 2 = 0).
  { unfold differenceSpec, sumR, sampleR. simpl. lra. }
  assert (Hc2 : cumulativeSpec [1; 0; 1; 0; 1; 0] 2 = 3).
  { unfold cumulativeSpec, differenceSpec, sumR, sampleR. simpl. lra. }
  rewrite Hd2, Hc2, ndiv_Fin by lra. f_equal. lra.
Qed.

Lemma alternating_rms : nlt (rmsOf [1; 0; 1; 0; 1; 0]) 0.01 = false.
Proof.
  rewrite rmsOf_spec by discriminate. apply nlt_Fin_false.
  unfold rmsSpec.
  replace (sumR (map (fun x => x ^ 2) [1; 0; 1; 0; 1; 0])
           / INR (length [1; 0; 1; 0; 1; 0])) with (/ 2)
    by (unfold sumR; simpl; lra).
  replace 0.01 with (R_sqrt.sqrt (0.01 * 0.01)) by (apply sqrt_square; lra).
  apply sqrt_le_1_alt. lra.
Qed.

Lemma yinDetect_alternating (sampleRate : R) :
  140 <= sampleRate <= 2400 ->
  yinDetect constructor [1; 0; 1; 0; 1; 0] sampleRate
  = mkResult (Fin (sampleRate / 2)) (Fin 1).
Proof.
  intros Hsr.
  destruct (yinDetect_analysis [1; 0; 1; 0; 1; 0] sampleRate)
    as [[Hrms _] | [(_ & Hnone & _) | (_ & t0 & tauE & bt & y1 & Hfirst & Hmin
                                        & Hbt & _ & Hy1 & _ & Hres)]].
  - rewrite alternating_rms in Hrms. discriminate.
  - specialize (Hnone 2%nat ltac:(unfold halfBufferOf; simpl; lia)).
    rewrite alternating_dPrime_2 in Hnone. apply nlt_Fin_false in Hnone. lra.
  - assert (HtauE : tauE = 2%nat).
    { destruct Hfirst as (Hr & _). destruct Hmin as (Hle & _).
      unfold halfBufferOf in *. simpl in Hr, Hle. lia. }
    subst tauE. rewrite alternating_dPrime_2 in Hy1. injection Hy1 as <-.
    assert (Hbt2 : bt = 2).
    { unfold betterTauOf in Hbt.
      set (buf := [1; 0; 1; 0; 1; 0]) in Hbt.
      assert (Hc : (0 <? 2)%nat && (Z.of_nat 2 <? Z.of_nat (halfBufferOf buf) - 1)%Z
                   = false) by reflexivity.
      rewrite Hc in Hbt. injection Hbt as <-. simpl. lra. }
    subst bt. destruct Hres as [[Hout _] | [_ ->]]; [lra |].
    f_equal. f_equal. lra.
Qed.

(** ** Results of yinDetect *)

(** A buffer too short for the scan, or a sample rate that is not positive,
    ends in the ordinary no-detection result. *)
Lemma yinDetect_short_buffer (buffer : list R) (sampleRate : R) :
  (length buffer < 6)%nat -> yinDetect constructor buffer sampleRate = noDetection.
Proof.
  intros Hlen.
  destruct (yinDetect_analysis buffer sampleRate)
    as [[_ H] | [(_ & _ & H) | (_ & t0 & _ & _ & _ & Hfirst & _)]]; try assumption.
  destruct Hfirst as (Hr & _). exfalso.
  pose proof (halfBuffer_double buffer). lia.
Qed.

Lemma yinDetect_nonpositive_rate (buffer : list R) (sampleRate : R) :
  sampleRate <= 0 -> yinDetect constructor buffer sampleRate = noDetection.
Proof.
  intros Hsr.
  destruct (yinDetect_analysis buffer sampleRate)
    as [[_ H] | [(_ & _ & H) | (_ & t0 & tauE & bt & y1 & Hfirst & Hmin & _ & Hb
                                 & _ & _ & [[_ H] | [Hin _]])]]; try assumption.
  exfalso.
  assert (Htau2 : 2 <= INR tauE).
  { destruct Hfirst as (Hr & _). destruct Hmin as (Hle & _).
    change 2 with (INR 2). apply le_INR. lia. }
  assert (Hbt : 0 < / bt) by (apply Rinv_0_lt_compat; lra).
  assert (Hf : sampleRate / bt <= 0).
  { unfold Rdiv. rewrite <- (Rmult_0_l (/ bt)).
    apply Rmult_le_compat_r; lra. }
  lra.
Qed.

(** C9, as stated, fails: an empty buffer and a zero sample rate give the
    ordinary no-detection result, and a six-sample buffer (three samples
    after halving) even gives a detection. *)
Lemma yinDetect_invalid_input_returns :
  yinDetect constructor [] 44100 = noDetection
  /\ yinDetect constructor [1; 0; 1; 0; 1; 0; 1; 0] 0 = noDetection
  /\ yinDetect constructor [1; 0; 1; 0; 1; 0] 1000 = mkResult (Fin 500) (Fin 1).
Proof.
  split; [| split].
  - apply yinDetect_short_buffer. simpl. lia.
  - apply yinDetect_nonpositive_rate. lra.
  - rewrite yinDetect_alternating by lra. f_equal. f_equal. lra.
Qed.

(** C9 (amended): there is no input validation; an empty buffer, any buffer
    of fewer than 6 samples, and any sample rate that is not positive give
    the no-detection result (-1, 0). *)
Theorem yinDetect_invalid_input (buffer : list R) (sampleRate : R) :
  buffer = [] \/ (length buffer < 6)%nat \/ sampleRate <= 0 ->
  yinDetect constructor buffer sampleRate = noDetection
  /\ noDetection = mkResult (Fin (-1)) (Fin 0).
Proof.
  intros Hinvalid. split; [| reflexivity].
  destruct Hinvalid as [-> | [Hshort | Hrate]].
  - apply yinDetect_short_buffer. simpl. lia.
  - now apply yinDetect_short_buffer.
  - now apply yinDetect_nonpositive_rate.
Qed.

Lemma yinDetect_invalid_input_witness :
  yinDetect constructor [0.5; 0.5; 0.5] 44100 = noDetection
  /\ noDetection = mkResult (Fin (-1)) (Fin 0).
Proof.
  apply (yinDetect_invalid_input [0.5; 0.5; 0.5] 44100).
  right. left. simpl. lia.
Defined.



(** * Further properties *)

(** ** The random challenge *)

Lemma INR_78 : INR 78 = 78.
Proof. rewrite INR_IZR_INZ. reflexivity. Qed.

Lemma zindex_lookup {A : Type} (arr : list A) (k : Z) :
  (0 <= k)%Z -> zindex arr k = arr !! Z.to_nat k.
Proof.
  intros Hk. unfold zindex. destruct (Z.ltb_spec k 0); [lia |].
  generalize (Z.to_nat k). intros n. revert n.
  induction arr as [| x arr IH]; intros [| n]; simpl; auto.
Qed.

(** X1: whatever [Math.random()] returns in [0, 1), the challenge is an
    entry of the table (never [undefined]), and every entry can be drawn. *)
Theorem getRandomChallenge_covers :
  (forall random, 0 <= random < 1 ->
     exists p, getRandomChallenge random = Some p /\ In p FRETBOARD)
  /\ (forall p, In p FRETBOARD ->
        exists random, 0 <= random < 1 /\ getRandomChallenge random = Some p).
Proof.
  split.
  - intros random [Hlo Hhi]. unfold getRandomChallenge.
    rewrite FRETBOARD_length, INR_78. cbn [nmul nfloor].
    rewrite index_IZR.
    pose proof (Zfloor_bound (random * 78)) as [Hfl Hfu].
    assert (Hk0 : (0 <= Zfloor (random * 78))%Z) by (apply Zfloor_lub; lra).
    assert (Hk1 : (Zfloor (random * 78) < 78)%Z) by (apply lt_IZR; lra).
    rewrite zindex_lookup by assumption.
    destruct (FRETBOARD !! Z.to_nat (Zfloor (random * 78))) as [p |] eqn:Hp.
    + exists p. split; [reflexivity |].
      apply list_elem_of_In. eapply list_elem_of_lookup_2. exact Hp.
    + apply lookup_ge_None in Hp. rewrite FRETBOARD_length in Hp. lia.
  - intros p Hin. apply list_elem_of_In, list_elem_of_lookup_1 in Hin.
    destruct Hin as (i & Hi).
    assert (Hlt : (i < 78)%nat).
    { rewrite <- FRETBOARD_length. eapply lookup_lt_Some. exact Hi. }
    exists (INR i / 78).
    assert (Hi0 : 0 <= INR i) by apply pos_INR.
    assert (Hi1 : INR i < 78).
    { rewrite <- INR_78. now apply lt_INR. }
    split; [split; [| lra] |].
    + apply Rmult_le_pos; lra.
    + unfold getRandomChallenge.
      rewrite FRETBOARD_length, INR_78. cbn [nmul nfloor].
      replace (INR i / 78 * 78) with (IZR (Z.of_nat i))
        by (rewrite <- INR_IZR_INZ; field).
      rewrite ZfloorZ, index_IZR, zindex_lookup by lia.
      now rewrite Nat2Z.id.
Qed.

Lemma getRandomChallenge_covers_witness :
  exists p, getRandomChallenge 0.5 = Some p /\ In p FRETBOARD.
Proof.
  destruct getRandomChallenge_covers as [Hdraw _].
  apply (Hdraw 0.5). lra.
Defined.

(** ** Layout and ordering of the table *)

Lemma flat_map_lookup_row {A B : Type} (g : A -> list B) (n : nat) (l : list A)
    (i j : nat) (x : A) :
  (forall y, In y l -> length (g y) = n) ->
  l !! i = Some x -> (j < n)%nat ->
  flat_map g l !! (n * i + j)%nat = g x !! j.
Proof.
  revert i. induction l as [| a l IH]; intros i Hrows Hx Hj; [discriminate |].
  cbn [flat_map]. destruct i as [| i].
  - injection Hx as ->. rewrite Nat.mul_0_r, Nat.add_0_l.
    apply lookup_app_l. rewrite (Hrows x) by (now left). exact Hj.
  - rewrite lookup_app_r by (rewrite (Hrows a) by (now left); lia).
    rewrite (Hrows a) by (now left).
    replace (n * S i + j - n)%nat with (n * i + j)%nat by lia.
    apply IH; [| exact Hx | exact Hj].
    intros y Hy. apply Hrows. now right.
Qed.

(** X2: the table is laid out string by string: the position of string s
    (1 to 6) and fret f (0 to 12) is the entry of index 13 (s - 1) + f. *)
Theorem FRETBOARD_layout (stringNum fret : nat) (openStr : openString) :
  OPEN_STRINGS stringNum = Some openStr -> (fret <= 12)%nat ->
  FRETBOARD !! (13 * (stringNum - 1) + fret)%nat
  = Some (fretPosition openStr stringNum fret).
Proof.
  intros Hos Hfret. pose proof (OPEN_STRINGS_inv _ _ Hos) as [Hs _].
  unfold FRETBOARD. rewrite generateFretboard_rows.
  rewrite (flat_map_lookup_row _ 13 (seq 1 6) (stringNum - 1) fret stringNum).
  - rewrite Hos. rewrite list_lookup_fmap, lookup_seq_lt by lia. reflexivity.
  - intros y Hy. apply in_seq in Hy.
    do 7 (destruct y as [| y]; [try lia; reflexivity |]). lia.
  - rewrite lookup_seq_lt by lia. f_equal. lia.
  - lia.
Qed.

Lemma FRETBOARD_layout_witness :
  FRETBOARD !! 70%nat = Some (fretPosition (mkOpenString "E" 2 82.41 40) 6 5).
Proof.
  apply (FRETBOARD_layout 6 5 (mkOpenString "E" 2 82.41 40)); [reflexivity | lia].
Defined.

Lemma OPEN_STRINGS_functional (stringNum : nat) (o1 o2 : openString) :
  OPEN_STRINGS stringNum = Some o1 -> OPEN_STRINGS stringNum = Some o2 -> o1 = o2.
Proof. congruence. Qed.



(** ** The table against the detector range and the cents match *)

Lemma Rpower2_le (x y : R) : x <= y -> Rpower 2 x <= Rpower 2 y.
Proof.
  intros [Hlt | ->]; [left; now apply Rpower2_lt | right; reflexivity].
Qed.

Lemma Rpower2_lt_inv (x y : R) : Rpower 2 x < Rpower 2 y -> x < y.
Proof.
  intros H. destruct (Rlt_dec x y) as [| Hn]; [assumption | exfalso].
  assert (Hle : Rpower 2 y <= Rpower 2 x) by (apply Rpower2_le; lra). lra.
Qed.


Lemma Rlog2_div (x y : R) : 0 < x -> 0 < y -> Rlog2 (x / y) = Rlog2 x - Rlog2 y.
Proof.
  intros Hx Hy. unfold Rlog2.
  assert (Hln : ln (x / y) = ln x - ln y).
  { unfold Rdiv. rewrite ln_mult by (try apply Rinv_0_lt_compat; assumption).
    rewrite ln_Rinv by assumption. lra. }
  rewrite Hln. field. pose proof ln2_pos. lra.
Qed.


Lemma FRETBOARD_frequency_bounds (p : position) :
  In p FRETBOARD -> 82.4 < p_frequency p < 659.3.
Proof.
  intros Hin. apply In_FRETBOARD in Hin.
  destruct Hin as (s & os & f & Hos & Hf & ->).
  pose proof (OPEN_STRINGS_inv _ _ Hos) as [_ Hmidi].
  cbn [p_frequency fretPosition].
  set (m := (os_midi os + Z.of_nat f)%Z).
  assert (Hm : (40 <= m <= 76)%Z) by lia.
  pose proof (Rpower2_twelfth_between (-29) (82.4 / 440) 1
                ltac:(lra) ltac:(lra) ltac:(simpl powerRZ; lra)) as [Hlow _].
  pose proof (Rpower2_twelfth_between 7 1 (659.3 / 440)
                ltac:(lra) ltac:(lra) ltac:(simpl powerRZ; lra)) as [_ Hhigh].
  assert (H1 : Rpower 2 (IZR (-29) / 12) <= Rpower 2 (IZR (m - 69) / 12)).
  { apply Rpower2_le. assert (H : IZR (-29) <= IZR (m - 69)) by (apply IZR_le; lia).
    lra. }
  assert (H2 : Rpower 2 (IZR (m - 69) / 12) <= Rpower 2 (IZR 7 / 12)).
  { apply Rpower2_le. assert (H : IZR (m - 69) <= IZR 7) by (apply IZR_le; lia).
    lra. }
  lra.
Qed.

(** X4: every frequency of the table lies in (82.4, 659.3) Hz, so it passes
    the range filter of [yinDetect] (70 to 1200 Hz). *)
Theorem FRETBOARD_inside_detector_range (p : position) :
  In p FRETBOARD ->
  82.4 < p_frequency p < 659.3
  /\ nlt (p_frequency p) (minFrequency constructor) = false
  /\ ngt (p_frequency p) (maxFrequency constructor) = false.
Proof.
  intros Hin. pose proof (FRETBOARD_frequency_bounds p Hin) as Hrange.
  split; [exact Hrange |].
  cbn [minFrequency maxFrequency constructor]. unfold ngt.
  split; apply nlt_Fin_false; lra.
Qed.

Lemma FRETBOARD_inside_detector_range_witness :
  82.4 < p_frequency (fretPosition (mkOpenString "E" 2 82.41 40) 6 0) < 659.3.
Proof.
  apply (FRETBOARD_inside_detector_range
           (fretPosition (mkOpenString "E" 2 82.41 40) 6 0)).
  apply In_FRETBOARD. exists 6%nat, (mkOpenString "E" 2 82.41 40), 0%nat.
  repeat split. lia.
Defined.




(** ** More on frequencyToNote *)

Lemma Rround_bound (x : R) : IZR (Rround x) - / 2 <= x < IZR (Rround x) + / 2.
Proof. unfold Rround. pose proof (Zfloor_bound (x + / 2)). lra. Qed.

Lemma Rlog2_le (x y : R) : 0 < x -> x <= y -> Rlog2 x <= Rlog2 y.
Proof.
  intros Hx Hxy. unfold Rlog2. pose proof ln2_pos as H2.
  apply Rmult_le_compat_r; [left; now apply Rinv_0_lt_compat |].
  destruct Hxy as [Hlt | ->]; [left; now apply ln_increasing | right; reflexivity].
Qed.



(** X8: the MIDI number never goes down when the frequency goes up. *)
Theorem frequencyToNote_monotone (f g : R) :
  20 <= f -> f <= g -> g <= 5000 ->
  exists mf mg info_f info_g,
    frequencyToNote f = Some info_f /\ frequencyToNote g = Some info_g
    /\ ni_midiNote info_f = Fin (IZR mf) /\ ni_midiNote info_g = Fin (IZR mg)
    /\ (mf <= mg)%Z.
Proof.
  intros Hf Hfg Hg.
  rewrite !frequencyToNote_accepted by lra.
  do 2 eexists. do 2 eexists.
  split; [reflexivity |]. split; [reflexivity |].
  split; [reflexivity |]. split; [reflexivity |].
  unfold Rround. apply Zfloor_le.
  assert (Hlog : Rlog2 (f / 440) <= Rlog2 (g / 440)).
  { apply Rlog2_le; [apply Rdiv_lt_0_compat; lra |].
    unfold Rdiv. apply Rmult_le_compat_r; lra. }
  lra.
Qed.

Lemma frequencyToNote_monotone_witness :
  exists mf mg info_f info_g,
    frequencyToNote 82.41 = Some info_f /\ frequencyToNote 440 = Some info_g
    /\ ni_midiNote info_f = Fin (IZR mf) /\ ni_midiNote info_g = Fin (IZR mg)
    /\ (mf <= mg)%Z.
Proof.
  apply (frequencyToNote_monotone 82.41 440); lra.
Defined.

(** ** More on isNoteMatch *)

Lemma Rabs_le_between (a b : R) : Rabs a <= b -> - b <= a <= b.
Proof. unfold Rabs. destruct (Rcase_abs a); lra. Qed.



(** ** More on the YIN estimator *)


Lemma tauEstimateOf_of_dip (buffer : list R) (t0 tauE : nat) :
  firstDip 0.15 buffer t0 -> dipMinimum buffer t0 tauE ->
  tauEstimateOf 0.15 (yinBufferOf buffer) (halfBufferOf buffer) = Some tauE.
Proof.
  intros Hfirst Hmin.
  destruct (tauEstimateOf 0.15 (yinBufferOf buffer) (halfBufferOf buffer))
    as [tauE' |] eqn:Htau.
  - destruct (tauEstimateOf_Some _ _ _ Htau) as (t0' & Hfirst' & Hmin').
    pose proof (firstDip_unique _ _ _ _ Hfirst Hfirst') as <-.
    now pose proof (dipMinimum_unique _ _ _ _ Hmin Hmin') as <-.
  - exfalso. rewrite tauEstimateOf_None in Htau.
    destruct Hfirst as (Hr & Hu & _). rewrite (Htau t0 Hr) in Hu. discriminate.
Qed.

(** X11: on a detection the reported frequency is the sample rate divided
    by a lag within half a sample of the integer lag tau of the estimate:
    sampleRate / (tau + 1/2) <= frequency < sampleRate / (tau - 1/2). *)
Theorem yinDetect_frequency_near_lag (buffer : list R) (sampleRate : R) :
  0 < sampleRate ->
  let result := yinDetect constructor buffer sampleRate in
  result <> noDetection ->
  exists tauE f,
    tauEstimateOf 0.15 (yinBufferOf buffer) (halfBufferOf buffer) = Some tauE
    /\ (2 <= tauE < halfBufferOf buffer)%nat
    /\ frequency result = Fin f
    /\ sampleRate / (INR tauE + / 2) <= f < sampleRate / (INR tauE - / 2).
Proof.
  intros Hsr result Hdet.
  pose proof (yinDetect_analysis buffer sampleRate) as Hcases.
  fold result in Hcases.
  destruct Hcases as [[_ H] | [(_ & _ & H) | (_ & t0 & tauE & bt & y1 & Hfirst & Hmin
                                  & _ & Hb & _ & _ & [[_ H] | [Hin Hres]])]];
    try contradiction.
  exists tauE, (sampleRate / bt).
  split; [now apply (tauEstimateOf_of_dip buffer t0) |].
  assert (Hrange : (2 <= tauE < halfBufferOf buffer)%nat).
  { destruct Hfirst as (Hr & _). destruct Hmin as (Hle & _). lia. }
  split; [exact Hrange |]. split; [now rewrite Hres |].
  assert (Htau2 : 2 <= INR tauE).
  { change 2 with (INR 2). apply le_INR. lia. }
  unfold Rdiv. split.
  - apply Rmult_le_compat_l; [lra |]. apply Rinv_le_contravar; lra.
  - apply Rmult_lt_compat_l; [lra |]. apply Rinv_lt_contravar; [| lra].
    apply Rmult_lt_0_compat; lra.
Qed.

Lemma yinDetect_frequency_near_lag_witness :
  exists tauE f,
    tauEstimateOf 0.15 (yinBufferOf [1; 0; 1; 0; 1; 0])
                  (halfBufferOf [1; 0; 1; 0; 1; 0]) = Some tauE
    /\ frequency (yinDetect constructor [1; 0; 1; 0; 1; 0] 1000) = Fin f
    /\ 1000 / (INR tauE + / 2) <= f < 1000 / (INR tauE - / 2).
Proof.
  destruct (yinDetect_frequency_near_lag [1; 0; 1; 0; 1; 0] 1000 ltac:(lra))
    as (tauE & f & Ht & _ & Hf & Hb).
  - rewrite yinDetect_alternating by lra. apply noDetection_not_in_range. lra.
  - exists tauE, f. repeat split; try assumption; apply Hb.
Defined.

(** X12: with the constructor's settings the callback guard of
    [detectPitch] lets a result through exactly when it is a detection; the
    no-detection value never reaches the callback, whatever the settings. *)
Theorem reportsPitch_iff_detection (buffer : list R) (sampleRate : R) :
  (reportsPitch constructor true (yinDetect constructor buffer sampleRate) = true
   <-> yinDetect constructor buffer sampleRate <> noDetection)
  /\ (forall this onPitchDetected,
        reportsPitch this onPitchDetected noDetection = false)
  /\ (forall this result, reportsPitch this false result = false).
Proof.
  assert (Hnone : forall this cb, reportsPitch this cb noDetection = false).
  { intros this cb. unfold reportsPitch, ngt. cbn [frequency noDetection].
    assert (H : nlt 0 (-1) = false) by (apply nlt_Fin_false; lra).
    rewrite H. now rewrite andb_false_r. }
  split; [| split; [exact Hnone | reflexivity]].
  split.
  - intros Hrep Heq. rewrite Heq, Hnone in Hrep. discriminate.
  - intros Hdet.
    destruct (yinDetect_analysis buffer sampleRate)
      as [[_ H] | [(_ & _ & H) | (_ & t0 & tauE & bt & y1 & _ & _ & _ & _ & _ & Hy1
                                    & [[_ H] | [Hin Hres]])]];
      try contradiction.
    rewrite Hres. unfold reportsPitch, ngt, nge.
    cbn [frequency probability yinProbabilityThreshold constructor andb].
    apply andb_true_iff. split; [apply nlt_Fin | apply nle_Fin]; lra.
Qed.

(** ** Silence, constant signals and loudness *)


Lemma sumR_lt_bound (b : R) (l : list R) :
  l <> [] -> Forall (fun x => x < b) l -> sumR l < INR (length l) * b.
Proof.
  intros Hne Hall. induction Hall as [| x l Hx Hall IH]; [contradiction |].
  cbn [sumR fold_right]. change (length (x :: l)) with (S (length l)).
  rewrite S_INR. destruct l as [| y l'].
  - simpl. lra.
  - specialize (IH ltac:(discriminate)). unfold sumR in IH. lra.
Qed.

(** A buffer whose samples all stay under 0.01 in absolute value is under
    the silence gate. *)
Lemma rmsOf_quiet (buffer : list R) :
  buffer <> [] -> Forall (fun x => Rabs x < 0.01) buffer ->
  nlt (rmsOf buffer) 0.01 = true.
Proof.
  intros Hne Hquiet. rewrite rmsOf_spec by assumption. apply nlt_Fin.
  unfold rmsSpec.
  assert (Hn : 0 < INR (length buffer)).
  { apply lt_0_INR. destruct buffer; [contradiction | simpl; lia]. }
  assert (Hsum : sumR (map (fun x => x ^ 2) buffer)
                 < INR (length buffer) * (0.01 * 0.01)).
  { rewrite <- (length_map (fun x => x ^ 2) buffer).
    apply sumR_lt_bound; [destruct buffer; [contradiction | discriminate] |].
    apply List.Forall_forall. intros y Hy. apply in_map_iff in Hy.
    destruct Hy as (x & <- & Hx).
    rewrite List.Forall_forall in Hquiet. specialize (Hquiet x Hx).
    apply Rabs_def2 in Hquiet. nra. }
  replace 0.01 with (R_sqrt.sqrt (0.01 * 0.01)) at 1 by (apply sqrt_square; lra).
  apply sqrt_lt_1_alt. split.
  - apply Rmult_le_pos; [| left; now apply Rinv_0_lt_compat].
    apply sumR_nonneg. apply List.Forall_forall. intros y Hy.
    apply in_map_iff in Hy. destruct Hy as (x & <- & _). apply pow2_ge_0.
  - apply (Rmult_lt_reg_r (INR (length buffer))); [assumption |].
    unfold Rdiv. rewrite Rmult_assoc, Rinv_l by lra. lra.
Qed.



Lemma sampleR_replicate (c : R) (n i : nat) :
  (i < n)%nat -> sampleR (replicate n c) i = c.
Proof.
  intros Hi. unfold sampleR. apply nth_lookup_Some with (d := 0).
  now apply lookup_replicate_2.
Qed.

(** X14: a constant buffer, however loud, gives no detection: every
    difference is 0, so every d' is the NaN of 0/0, which is under no
    threshold. *)
Theorem yinDetect_constant (c : R) (n : nat) (sampleRate : R) :
  yinDetect constructor (replicate n c) sampleRate = noDetection
  /\ forall tau, (1 <= tau < halfBufferOf (replicate n c))%nat ->
       yinAt (yinBufferOf (replicate n c)) tau = NaN.
Proof.
  set (buffer := replicate n c).
  pose proof (halfBuffer_double buffer) as Hdbl.
  assert (Hlen : length buffer = n) by apply length_replicate.
  assert (Hdiff : forall tau, (tau <= halfBufferOf buffer)%nat ->
                              differenceSpec buffer tau = 0).
  { intros tau Htau. unfold differenceSpec.
    assert (Hzero : forall l, (forall i, In i l -> (i < halfBufferOf buffer)%nat) ->
              sumR (map (fun i => (sampleR buffer i - sampleR buffer (i + tau)) ^ 2) l)
              = 0).
    { induction l as [| i l IH]; intros Hl; [reflexivity |].
      cbn [map sumR fold_right]. fold (sumR (map
        (fun i => (sampleR buffer i - sampleR buffer (i + tau)) ^ 2) l)).
      rewrite IH by (intros j Hj; apply Hl; now right).
      specialize (Hl i ltac:(now left)).
      unfold buffer. rewrite !sampleR_replicate by lia. lra. }
    apply Hzero. intros i Hi. apply in_seq in Hi. lia. }
  assert (Hcum : forall tau, (tau <= halfBufferOf buffer)%nat ->
                             cumulativeSpec buffer tau = 0).
  { induction tau as [| tau IH]; intros Htau.
    - reflexivity.
    - rewrite cumulativeSpec_S, IH, Hdiff by lia. lra. }
  assert (Hnan : forall tau, (tau <= halfBufferOf buffer)%nat ->
                             dPrime buffer tau = NaN).
  { intros tau Htau.
    destruct (dPrime_cases buffer tau) as [[_ H] | [Hpos _]]; [exact H |].
    rewrite Hcum in Hpos by assumption. lra. }
  split.
  - destruct (yinDetect_analysis buffer sampleRate)
      as [[_ H] | [(_ & _ & H) | (_ & t0 & _ & _ & _ & Hfirst & _)]]; try assumption.
    destruct Hfirst as (Hr & Hu & _). rewrite Hnan in Hu by lia. discriminate.
  - intros tau Htau. destruct (yinBufferOf_spec buffer) as (_ & Hd & _).
    rewrite Hd by assumption. apply Hnan. lia.
Qed.

Section Loudness.

Variable c : R.
Variable buffer : list R.
Hypothesis c_nonzero : c <> 0.










End Loudness.



(** ** Exactly periodic signals *)

Lemma sumR_all_zero {A : Type} (g : A -> R) (l : list A) :
  (forall x, In x l -> g x = 0) -> sumR (map g l) = 0.
Proof.
  induction l as [| x l IH]; intros Hz; [reflexivity |].
  cbn [map sumR fold_right]. fold (sumR (map g l)).
  rewrite IH by (intros y Hy; apply Hz; now right).
  rewrite (Hz x) by (now left). lra.
Qed.

(** X16: a buffer that repeats exactly every T samples (2 <= T < halfBuffer),
    is not constant up to lag T and passes the silence gate has d'(T) = 0;
    the lag chosen is never beyond T, and if no earlier lag dips under 0.15 it
    is T itself: the result then has probability 1 and a frequency between
    sampleRate / (T + 1/2) and sampleRate / (T - 1/2), provided these lie in
    the detector's range. *)
Theorem yinDetect_periodic (buffer : list R) (T : nat) (sampleRate : R) :
  (2 <= T < halfBufferOf buffer)%nat ->
  (forall i, (i < halfBufferOf buffer)%nat ->
     sampleR buffer (i + T) = sampleR buffer i) ->
  0 < cumulativeSpec buffer T ->
  nlt (rmsOf buffer) 0.01 = false ->
  dPrime buffer T = Fin 0
  /\ exists tauE,
       tauEstimateOf 0.15 (yinBufferOf buffer) (halfBufferOf buffer) = Some tauE
       /\ (2 <= tauE <= T)%nat
       /\ ((forall t, (2 <= t < T)%nat -> nlt (dPrime buffer t) 0.15 = false) ->
           tauE = T
           /\ (70 * (INR T + / 2) <= sampleRate ->
               sampleRate <= 1200 * (INR T - / 2) ->
               exists f,
                 yinDetect constructor buffer sampleRate = mkResult (Fin f) (Fin 1)
                 /\ sampleRate / (INR T + / 2) <= f < sampleRate / (INR T - / 2))).
Proof.
  intros HT Hper Hcum Hgate.
  assert (HdT : differenceSpec buffer T = 0).
  { unfold differenceSpec. apply sumR_all_zero. intros i Hi.
    apply in_seq in Hi. rewrite Hper by lia. lra. }
  assert (Hd' : dPrime buffer T = Fin 0).
  { unfold dPrime. rewrite HdT, ndiv_Fin by lra. f_equal. lra. }
  split; [exact Hd' |].
  assert (HuT : nlt (dPrime buffer T) 0.15 = true).
  { rewrite Hd'. apply nlt_Fin. lra. }
  destruct (yinDetect_analysis buffer sampleRate)
    as [[Hrms _] | [(_ & Hnone & _) | (_ & t0 & tauE & bt & y1 & Hfirst & Hmin
                                        & _ & Hbt & Hy1 & _ & Hres)]].
  - congruence.
  - rewrite (Hnone T HT) in HuT. discriminate.
  - exists tauE.
    split; [now apply (tauEstimateOf_of_dip buffer t0) |].
    pose proof Hfirst as (Hr0 & Hu0 & Hbefore).
    pose proof Hmin as (Hle & Hchain & _).
    assert (Ht0 : (t0 <= T)%nat).
    { destruct (le_lt_dec t0 T) as [| Hlt]; [assumption | exfalso].
      rewrite (Hbefore T ltac:(lia)) in HuT. discriminate. }
    assert (HtE : (tauE <= T)%nat).
    { destruct (le_lt_dec tauE T) as [| Hlt]; [assumption | exfalso].
      specialize (Hchain T ltac:(lia)). rewrite Hd' in Hchain.
      destruct (dPrime_cases buffer (T + 1)) as [[_ Hn] | [_ (y & Hy & Hy0 & _)]].
      - rewrite Hn in Hchain. discriminate.
      - rewrite Hy in Hchain. apply nlt_Fin in Hchain. lra. }
    split; [lia |].
    intros Hearlier.
    assert (Heq0 : t0 = T).
    { destruct (Nat.eq_dec t0 T) as [| Hne]; [assumption | exfalso].
      rewrite (Hearlier t0 ltac:(lia)) in Hu0. discriminate. }
    assert (HeqE : tauE = T) by lia.
    split; [exact HeqE |].
    intros Hlo Hhi. subst tauE.
    rewrite Hd' in Hy1. injection Hy1 as <-.
    assert (HT2 : 2 <= INR T) by (change 2 with (INR 2); apply le_INR; lia).
    assert (Hsr : 0 < sampleRate) by nra.
    assert (Hf1 : sampleRate / (INR T + / 2) <= sampleRate / bt).
    { unfold Rdiv. apply Rmult_le_compat_l; [lra |].
      apply Rinv_le_contravar; lra. }
    assert (Hf2 : sampleRate / bt < sampleRate / (INR T - / 2)).
    { unfold Rdiv. apply Rmult_lt_compat_l; [lra |].
      apply Rinv_lt_contravar; [apply Rmult_lt_0_compat; lra | lra]. }
    assert (Hf3 : 70 <= sampleRate / (INR T + / 2)).
    { apply (Rmult_le_reg_r (INR T + / 2)); [lra |].
      unfold Rdiv. rewrite Rmult_assoc, Rinv_l by lra. lra. }
    assert (Hf4 : sampleRate / (INR T - / 2) <= 1200).
    { apply (Rmult_le_reg_r (INR T - / 2)); [lra |].
      unfold Rdiv. rewrite Rmult_assoc, Rinv_l by lra. lra. }
    exists (sampleRate / bt). split; [| lra].
    destruct Hres as [[Hout _] | [_ ->]]; [lra |].
    f_equal. f_equal. lra.
Qed.

Lemma yinDetect_periodic_witness :
  exists f,
    yinDetect constructor [1; 0; 1; 0; 1; 0] 1000 = mkResult (Fin f) (Fin 1)
    /\ 1000 / (INR 2 + / 2) <= f < 1000 / (INR 2 - / 2).
Proof.
  destruct (yinDetect_periodic [1; 0; 1; 0; 1; 0] 2 1000)
    as (_ & tauE & _ & _ & Hfirst).
  - unfold halfBufferOf. simpl. lia.
  - intros i Hi. unfold halfBufferOf in Hi. simpl in Hi.
    do 3 (destruct i as [| i]; [reflexivity |]). lia.
  - unfold cumulativeSpec, differenceSpec, sumR, sampleR. simpl. lra.
  - exact alternating_rms.
  - destruct Hfirst as [_ Hres]; [intros t Ht; lia |].
    apply Hres; simpl; lra.
Defined.

(** ** The cents offset and the pitch meter *)

Lemma calculateCentsOffset_Fin (detected target : R) :
  0 < detected -> 0 < target ->
  calculateCentsOffset detected target = Fin (1200 * Rlog2 (detected / target)).
Proof.
  intros Hd Ht. unfold calculateCentsOffset.
  rewrite ndiv_Fin by lra.
  rewrite nlog2_Fin by (apply Rdiv_lt_0_compat; lra). reflexivity.
Qed.

Lemma Rlog2_pos_iff (x : R) : 0 < x -> (0 < Rlog2 x <-> 1 < x).
Proof.
  intros Hx. rewrite <- (Rpower2_log2 x Hx) at 2.
  rewrite <- Rpower2_0. split.
  - apply Rpower2_lt.
  - apply Rpower2_lt_inv.
Qed.

(** X17: the cents offset of two frequencies between 10^-6 and 10^6 Hz is
    a finite number, 0 on equal frequencies, positive exactly when the
    detection is above the target and negative exactly when it is below, and
    [isNoteMatch] is the test of its absolute value against the
    tolerance. *)
Theorem calculateCentsOffset_sign (detected target : R) :
  / 1000000 <= detected <= 1000000 -> / 1000000 <= target <= 1000000 ->
  exists cents,
    calculateCentsOffset detected target = Fin cents
    /\ calculateCentsOffset detected detected = Fin 0
    /\ (0 < cents <-> target < detected)
    /\ (cents < 0 <-> detected < target)
    /\ (forall tol : R,
          20 <= detected ->
          isNoteMatch (Some (Fin detected)) target (Some (Fin tol))
          = nle (nabs (calculateCentsOffset detected target)) tol).
Proof.
  intros [Hd _] [Ht _].
  assert (Hd0 : 0 < detected) by lra. assert (Ht0 : 0 < target) by lra.
  clear Hd Ht. rename Hd0 into Hd. rename Ht0 into Ht.
  exists (1200 * Rlog2 (detected / target)).
  split; [now apply calculateCentsOffset_Fin |]. split; [| split; [| split]].
  - rewrite calculateCentsOffset_Fin by assumption. f_equal.
    replace (detected / detected) with 1 by (field; lra). rewrite Rlog2_1. lra.
  - assert (Hq : 0 < detected / target) by (apply Rdiv_lt_0_compat; lra).
    pose proof (Rlog2_pos_iff _ Hq) as Hiff.
    assert (H1 : 1 < detected / target <-> target < detected).
    { split; intros H.
      - apply (Rmult_lt_compat_r target) in H; [| assumption].
        unfold Rdiv in H. rewrite Rmult_assoc, Rinv_l in H by lra. lra.
      - apply (Rmult_lt_reg_r target); [assumption |].
        unfold Rdiv. rewrite Rmult_assoc, Rinv_l by lra. lra. }
    rewrite <- H1, <- Hiff. split; intros H; lra.
  - assert (Hq : 0 < target / detected) by (apply Rdiv_lt_0_compat; lra).
    pose proof (Rlog2_pos_iff _ Hq) as Hiff.
    assert (H1 : 1 < target / detected <-> detected < target).
    { split; intros H.
      - apply (Rmult_lt_compat_r detected) in H; [| assumption].
        unfold Rdiv in H. rewrite Rmult_assoc, Rinv_l in H by lra. lra.
      - apply (Rmult_lt_reg_r detected); [assumption |].
        unfold Rdiv. rewrite Rmult_assoc, Rinv_l by lra. lra. }
    rewrite <- H1, <- Hiff. rewrite !Rlog2_div by assumption.
    split; intros H; lra.
  - intros tol H20. rewrite calculateCentsOffset_Fin by assumption.
    cbn [nabs]. apply (bool_eq_of_iff _ _
                         (Rabs (1200 * Rlog2 (detected / target)) <= tol)).
    + now apply isNoteMatch_cents.
    + apply nle_Fin.
Qed.

Lemma calculateCentsOffset_sign_witness :
  exists cents,
    calculateCentsOffset 445 440 = Fin cents /\ (0 < cents <-> 440 < 445).
Proof.
  destruct (calculateCentsOffset_sign 445 440 ltac:(lra) ltac:(lra))
    as (cents & H1 & _ & H2 & _).
  exists cents. split; assumption.
Defined.

Lemma Rlog2_mult_pow (x a : R) : 0 < x -> Rlog2 (x * Rpower 2 a) = Rlog2 x + a.
Proof.
  intros Hx. unfold Rlog2. rewrite ln_mult by (try apply Rpower2_pos; lra).
  unfold Rpower. rewrite ln_exp. field. pose proof ln2_pos. lra.
Qed.

Lemma updatePitchMeter_class (cents : R) :
  meter_class (updatePitchMeter cents)
  = if Rle_dec (Rabs cents) 10 then in_tune
    else if Rle_dec (Rabs cents) 30 then close else far.
Proof.
  unfold updatePitchMeter. cbn [meter_class nabs nle]. unfold Rleb.
  destruct (Rle_dec (Rabs cents) 10); [reflexivity |].
  destruct (Rle_dec (Rabs cents) 30); reflexivity.
Qed.

Lemma updatePitchMeter_label (cents : R) :
  meter_text (updatePitchMeter cents)
  = if Rlt_dec (Rabs (IZR (Rround cents))) 3 then InTune
    else if Rlt_dec 0 (IZR (Rround cents)) then CentsSharp (Fin (IZR (Rround cents)))
    else CentsFlat (Fin (Rabs (IZR (Rround cents)))).
Proof.
  unfold updatePitchMeter. cbn [meter_text nround nabs nlt ngt]. unfold Rltb.
  destruct (Rlt_dec (Rabs (IZR (Rround cents))) 3); [reflexivity |].
  destruct (Rlt_dec 0 (IZR (Rround cents))); reflexivity.
Qed.

(** X20: for a finite cents offset the text is "In tune" exactly when the
    offset rounds to -2..2, that is for -2.5 <= cents < 2.5, and then the
    indicator has the class in-tune; a "sharp" or "flat" text always shows a
    whole number of at least 3 cents, and the class is far exactly beyond 30
    cents. *)
Theorem updatePitchMeter_text (cents : R) :
  let view := updatePitchMeter cents in
  (meter_text view = InTune <-> -2.5 <= cents < 2.5)
  /\ (meter_text view = InTune -> meter_class view = in_tune)
  /\ (forall shown, meter_text view = CentsSharp shown ->
        exists k, shown = Fin (IZR k) /\ (3 <= k)%Z /\ 2.5 <= cents)
  /\ (forall shown, meter_text view = CentsFlat shown ->
        exists k, shown = Fin (IZR k) /\ (3 <= k)%Z /\ cents < -2.5)
  /\ (meter_class view = far <-> 30 < Rabs cents).
Proof.
  intros view. unfold view.
  rewrite updatePitchMeter_class, updatePitchMeter_label.
  pose proof (Rround_bound cents) as Hb.
  set (k := Rround cents) in *.
  assert (Habs3 : Rabs (IZR k) < 3 <-> (-3 < k < 3)%Z).
  { rewrite <- abs_IZR. split.
    - intros H. apply lt_IZR in H. lia.
    - intros H. apply IZR_lt. lia. }
  assert (Hk_in : (-3 < k < 3)%Z -> -2.5 <= cents < 2.5).
  { intros [H1 H2]. assert (H1' : (-2 <= k)%Z) by lia. assert (H2' : (k <= 2)%Z) by lia.
    apply IZR_le in H1', H2'. lra. }
  assert (Hin_k : -2.5 <= cents < 2.5 -> (-3 < k < 3)%Z).
  { intros [H1 H2]. split; apply lt_IZR; lra. }
  assert (Hfar : (if Rle_dec (Rabs cents) 10 then in_tune
                  else if Rle_dec (Rabs cents) 30 then close else far) = far
                 <-> 30 < Rabs cents).
  { destruct (Rle_dec (Rabs cents) 10); [split; [discriminate | lra] |].
    destruct (Rle_dec (Rabs cents) 30); [split; [discriminate | lra] |].
    split; [lra | reflexivity]. }
  assert (Hclass : -2.5 <= cents < 2.5 ->
                   (if Rle_dec (Rabs cents) 10 then in_tune
                    else if Rle_dec (Rabs cents) 30 then close else far) = in_tune).
  { intros Hc. destruct (Rle_dec (Rabs cents) 10) as [| Hn]; [reflexivity |].
    exfalso. apply Hn. apply Rabs_le. lra. }
  destruct (Rlt_dec (Rabs (IZR k)) 3) as [Hlt | Hge].
  - split; [split; [intros _; tauto | reflexivity] |].
    split; [intros _; apply Hclass; tauto |].
    split; [discriminate |]. split; [discriminate | exact Hfar].
  - assert (Hout : ~ (-3 < k < 3)%Z) by tauto.
    assert (Hnot : ~ (-2.5 <= cents < 2.5)) by tauto.
    destruct (Rlt_dec 0 (IZR k)) as [Hpos | Hneg].
    + apply lt_IZR in Hpos.
      split; [split; [discriminate | tauto] |]. split; [discriminate |].
      split; [| split; [discriminate | exact Hfar]].
      intros shown [= <-]. exists k. split; [reflexivity |].
      assert (H3 : (3 <= k)%Z) by lia. split; [exact H3 |].
      apply IZR_le in H3. lra.
    + assert (Hk : (k <= 0)%Z) by (apply le_IZR; lra).
      split; [split; [discriminate | tauto] |]. split; [discriminate |].
      split; [discriminate |]. split; [| exact Hfar].
      intros shown [= <-]. exists (Z.abs k).
      split; [now rewrite abs_IZR |].
      assert (H3 : (k <= -3)%Z) by lia. split; [lia |].
      apply IZR_le in H3. lra.
Qed.

(** ** The session: holding the right note *)

Import Trainer.

(** The target that [handlePitchDetected] compares against. *)
Lemma handlePitchDetected_no_challenge (now : Z) (frequency : num) (st : state) :
  currentChallenge st = None -> handlePitchDetected now frequency st = st.
Proof. intros H. unfold handlePitchDetected. now rewrite H. Qed.

Lemma handlePitchDetected_step (now : Z) (frequency : num) (st : state) :
  let st' := handlePitchDetected now frequency st in
  (score st' = score st /\ isRunning st' = isRunning st
   /\ currentChallenge st' = currentChallenge st)
  \/ (score st' = (score st + 1)%Z /\ currentChallenge st' = None
      /\ isRunning st = true
      /\ exists challenge started,
           currentChallenge st = Some challenge
           /\ correctStartTime st = Some started
           /\ (detectionHoldTime st <= now - started)%Z
           /\ frequencyToNote frequency <> None
           /\ isNoteMatch (Some frequency)
                (getCalibratedTargetFrequency (offsets st)
                   (Fin (p_frequency challenge)) (p_string challenge))
                (Some (tolerance st)) = true).
Proof.
  cbv zeta. unfold handlePitchDetected.
  destruct (currentChallenge st) as [challenge |] eqn:Hch;
    [| left; cbn; repeat split; congruence].
  destruct (isRunning st) eqn:Hrun; cbn [negb];
    [| left; cbn; repeat split; congruence].
  destruct (frequencyToNote frequency) as [info |] eqn:Hnote;
    [| left; cbn; repeat split; congruence].
  destruct (isNoteMatch _ _ _) eqn:Hmatch;
    [| left; cbn; repeat split; congruence].
  destruct (correctStartTime st) as [started |] eqn:Hstart;
    [| left; cbn; repeat split; congruence].
  destruct (Z.geb_spec (now - started) (detectionHoldTime st)) as [Hheld | Hearly];
    [| left; cbn; repeat split; congruence].
  right. unfold handleCorrect. rewrite Hrun. cbn.
  split; [reflexivity |]. split; [reflexivity |]. split; [reflexivity |].
  exists challenge, started.
  split; [reflexivity |]. split; [reflexivity |]. split; [lia |].
  split; [discriminate | exact Hmatch].
Qed.

Lemma handlePitchDetected_settings (now : Z) (frequency : num) (st : state) :
  offsets (handlePitchDetected now frequency st) = offsets st
  /\ tolerance (handlePitchDetected now frequency st) = tolerance st.
Proof.
  unfold handlePitchDetected, handleCorrect.
  repeat match goal with
         | |- context [match ?x with _ => _ end] => destruct x
         end; split; reflexivity.
Qed.

(** X21: however many pitch callbacks arrive for one challenge, the score
    goes up by at most one point, and a callback scores only while running,
    on a match with the calibrated target, when an earlier match started the
    hold at least [detectionHoldTime] before; the challenge is cleared by the
    point. *)
Theorem handlePitchDetected_one_point (events : list (Z * num)) (st : state) :
  let final :=
    fold_left (fun s ev => handlePitchDetected (fst ev) (snd ev) s) events st in
  (score st <= score final <= score st + 1)%Z
  /\ (score final = (score st + 1)%Z ->
      currentChallenge final = None /\ isRunning st = true
      /\ exists now frequency challenge,
           In (now, frequency) events /\ currentChallenge st = Some challenge
           /\ isNoteMatch (Some frequency)
                (getCalibratedTargetFrequency (offsets st)
                   (Fin (p_frequency challenge)) (p_string challenge))
                (Some (tolerance st)) = true).
Proof.
  revert st. induction events as [| [now frequency] events IH]; intros st final.
  - unfold final. cbn. split; [lia |]. intros H. lia.
  - unfold final. cbn [fold_left fst snd].
    pose proof (handlePitchDetected_step now frequency st) as Hstep.
    set (st1 := handlePitchDetected now frequency st) in *.
    destruct Hstep as [(Hs & Hr & Hc) | (Hs & Hc & Hrun & ch & started & Hch & _ & _ & _ & Hm)].
    + specialize (IH st1). cbv zeta in IH. destruct IH as [Hbound Hpoint].
      split; [lia |]. intros Hfinal.
      destruct (Hpoint ltac:(lia)) as (Hnone & Hrun & now' & f' & ch & Hin & Hch & Hm).
      split; [exact Hnone |]. split; [congruence |].
      exists now', f', ch. split; [now right |]. split; [congruence |].
      pose proof (handlePitchDetected_settings now frequency st) as Hsame.
      fold st1 in Hsame.
      destruct Hsame as [Ho Ht]. now rewrite <- Ho, <- Ht.
    + assert (Hrest : fold_left
                        (fun s ev => handlePitchDetected (fst ev) (snd ev) s)
                        events st1 = st1).
      { clear -Hc. induction events as [| ev events IHe]; [reflexivity |].
        cbn [fold_left]. rewrite handlePitchDetected_no_challenge by assumption.
        exact IHe. }
      rewrite Hrest. split; [lia |]. intros _.
      split; [exact Hc |]. split; [exact Hrun |].
      exists now, frequency, ch. split; [now left |]. split; assumption.
Qed.

(** X22: a callback that finds no hold in progress never scores, and an
    accepted detection that does not match clears the hold, so that the
    callback after it cannot score either: the hold must be uninterrupted. *)
Theorem handlePitchDetected_hold (now : Z) (frequency : num) (st : state) :
  (correctStartTime st = None ->
   score (handlePitchDetected now frequency st) = score st)
  /\ (forall challenge,
        isRunning st = true -> currentChallenge st = Some challenge ->
        frequencyToNote frequency <> None ->
        isNoteMatch (Some frequency)
          (getCalibratedTargetFrequency (offsets st)
             (Fin (p_frequency challenge)) (p_string challenge))
          (Some (tolerance st)) = false ->
        correctStartTime (handlePitchDetected now frequency st) = None
        /\ forall now' frequency',
             score (handlePitchDetected now' frequency'
                      (handlePitchDetected now frequency st)) = score st).
Proof.
  assert (Hfresh : forall now f s, correctStartTime s = None ->
                     score (handlePitchDetected now f s) = score s).
  { intros now0 f s Hnone.
    destruct (handlePitchDetected_step now0 f s)
      as [(Hs & _) | (_ & _ & _ & ch & started & _ & Hst & _)]; [exact Hs |].
    congruence. }
  split; [apply Hfresh |].
  intros challenge Hrun Hch Hacc Hmiss.
  assert (Hreset : handlePitchDetected now frequency st
                   = withSession (isRunning st) (currentChallenge st) (score st)
                                 (correctStreak st) None st).
  { unfold handlePitchDetected. rewrite Hch, Hrun. cbn [negb].
    destruct (frequencyToNote frequency); [| contradiction].
    now rewrite Hmiss. }
  rewrite Hreset. split; [reflexivity |].
  intros now' frequency'. now rewrite Hfresh.
Qed.

(** X23: with [Math.random()] in [0, 1), [nextChallenge] never fails: it
    sets a challenge taken from the table, clears the hold and leaves the
    score alone; so after a point the deferred callback of a running session
    always installs a new challenge. *)
Theorem nextChallenge_draws (random : R) (st : state) :
  0 <= random < 1 ->
  exists st' challenge,
    nextChallenge random st = Some st'
    /\ currentChallenge st' = Some challenge /\ In challenge FRETBOARD
    /\ correctStartTime st' = None /\ score st' = score st
    /\ (isRunning st = true ->
        exists st'',
          successTimeout random (handleCorrect st) = Some st''
          /\ currentChallenge st'' = Some challenge
          /\ score st'' = (score st + 1)%Z).
Proof.
  intros Hr.
  assert (Hdraw : exists p, getRandomChallenge random = Some p /\ In p FRETBOARD).
  { unfold getRandomChallenge.
    rewrite FRETBOARD_length, INR_78. cbn [nmul nfloor].
    rewrite index_IZR.
    pose proof (Zfloor_bound (random * 78)) as [Hfl Hfu].
    assert (Hk0 : (0 <= Zfloor (random * 78))%Z) by (apply Zfloor_lub; lra).
    assert (Hk1 : (Zfloor (random * 78) < 78)%Z) by (apply lt_IZR; lra).
    rewrite zindex_lookup by assumption.
    destruct (FRETBOARD !! Z.to_nat (Zfloor (random * 78))) as [p |] eqn:Hp.
    - exists p. split; [reflexivity |].
      apply list_elem_of_In. eapply list_elem_of_lookup_2. exact Hp.
    - apply lookup_ge_None in Hp. rewrite FRETBOARD_length in Hp. lia. }
  destruct Hdraw as (p & Hp & Hin).
  unfold nextChallenge. rewrite Hp.
  eexists. exists p. split; [reflexivity |].
  repeat (split; [reflexivity || assumption |]).
  intros Hrun. unfold successTimeout, handleCorrect, nextChallenge.
  rewrite Hrun. cbn [negb isRunning withSession]. rewrite Hp.
  eexists. split; [reflexivity |]. split; reflexivity.
Qed.

Lemma nextChallenge_draws_witness :
  exists st' challenge,
    nextChallenge 0.25 (initial ∅ 50) = Some st'
    /\ currentChallenge st' = Some challenge /\ In challenge FRETBOARD.
Proof.
  destruct (nextChallenge_draws 0.25 (initial ∅ 50) ltac:(lra))
    as (st' & ch & H1 & H2 & H3 & _).
  exists st', ch. repeat split; assumption.
Defined.

Lemma FRETBOARD_round_trip_free (p : position) :
  In p FRETBOARD ->
  exists info, frequencyToNote (p_frequency p) = Some info /\ 20 <= p_frequency p.
Proof.
  intros Hin. apply In_FRETBOARD in Hin.
  destruct Hin as (s & os & f & Hos & Hf & ->).
  pose proof (OPEN_STRINGS_inv _ _ Hos) as [_ Hmidi].
  pose proof (fretPosition_frequency_range os s f Hmidi Hf) as Hr.
  eexists. split; [now apply frequencyToNote_fretPosition | lra].
Qed.

Lemma isNoteMatch_nominal (offsets : calibrationOffsets) (stringNum : nat)
    (f offset tol : R) :
  20 <= f -> getCalibrationOffset offsets stringNum = Fin offset ->
  isNoteMatch (Some (Fin f)) (getCalibratedTargetFrequency offsets f stringNum)
              (Some (Fin tol)) = true
  <-> Rabs offset <= tol.
Proof.
  intros Hf Hoff. unfold getCalibratedTargetFrequency. rewrite Hoff.
  rewrite ndiv_Fin by lra. cbn [npow2 nmul].
  pose proof (Rpower2_pos (offset / 1200)) as Hp.
  rewrite isNoteMatch_cents by (try apply Rmult_lt_0_compat; lra).
  rewrite Rlog2_div by (try apply Rmult_lt_0_compat; lra).
  rewrite Rlog2_mult_pow by lra.
  replace (1200 * (Rlog2 f - (Rlog2 f + offset / 1200))) with (- offset) by lra.
  now rewrite Rabs_Ropp.
Qed.

(** X24: playing exactly the frequency of the challenge twice, the second
    time at least [detectionHoldTime] after the first, scores the point if
    the calibration offset of the string (of at most an octave) is inside the
    tolerance by a thousandth of a cent or more, and scores nothing if the
    offset is beyond the tolerance by as much: a calibration beyond the
    tolerance makes the nominal pitch count as wrong.  An offset within a
    thousandth of a cent of the tolerance is left to the rounding of the
    computed cents. *)
Theorem handlePitchDetected_nominal (st : state) (challenge : position)
    (t0 t1 : Z) (offset tol : R) :
  isRunning st = true -> currentChallenge st = Some challenge ->
  In challenge FRETBOARD -> correctStartTime st = None ->
  getCalibrationOffset (offsets st) (p_string challenge) = Fin offset ->
  tolerance st = Fin tol ->
  (detectionHoldTime st <= t1 - t0)%Z ->
  let played := Fin (p_frequency challenge) in
  let final := handlePitchDetected t1 played (handlePitchDetected t0 played st) in
  (Rabs offset <= 1200 -> Rabs offset + / 1000 <= tol ->
   score final = (score st + 1)%Z /\ currentChallenge final = None)
  /\ (tol + / 1000 <= Rabs offset ->
      score final = score st /\ currentChallenge final = Some challenge).
Proof.
  intros Hrun Hch Hin Hstart Hoff Htol Hhold played final.
  destruct (FRETBOARD_round_trip_free challenge Hin) as (info & Hinfo & Hf20).
  pose proof (isNoteMatch_nominal (offsets st) (p_string challenge)
                (p_frequency challenge) offset tol Hf20 Hoff) as Hiff.
  unfold final, played.
  destruct (isNoteMatch (Some (Fin (p_frequency challenge)))
              (getCalibratedTargetFrequency (offsets st) (p_frequency challenge)
                 (p_string challenge)) (Some (Fin tol))) eqn:Hm.
  - assert (Hfirst : handlePitchDetected t0 (Fin (p_frequency challenge)) st
                     = withSession (isRunning st) (currentChallenge st) (score st)
                                   (correctStreak st) (Some t0) st).
    { unfold handlePitchDetected. rewrite Hch, Hrun, Hinfo, Htol, Hm, Hstart.
      reflexivity. }
    rewrite Hfirst.
    split; [| intros Hbig; exfalso;
              assert (Rabs offset <= tol) by (now apply Hiff); lra].
    intros _ _.
    set (st1 := withSession (isRunning st) (currentChallenge st) (score st)
                            (correctStreak st) (Some t0) st).
    assert (Hsecond : handlePitchDetected t1 (Fin (p_frequency challenge)) st1
                      = handleCorrect st1).
    { unfold handlePitchDetected, st1.
      cbn [currentChallenge isRunning offsets tolerance correctStartTime
           detectionHoldTime withSession].
      rewrite Hch, Hrun, Hinfo, Htol, Hm. cbn [negb].
      destruct (Z.geb_spec (t1 - t0) (detectionHoldTime st)) as [_ | Hn]; [| lia].
      reflexivity. }
    rewrite Hsecond. unfold handleCorrect, st1.
    cbn [isRunning withSession]. rewrite Hrun. split; reflexivity.
  - assert (Hfirst : handlePitchDetected t0 (Fin (p_frequency challenge)) st
                     = withSession (isRunning st) (currentChallenge st) (score st)
                                   (correctStreak st) None st).
    { unfold handlePitchDetected. rewrite Hch, Hrun, Hinfo, Htol, Hm.
      reflexivity. }
    rewrite Hfirst.
    split; [intros _ Hok; assert (Hle : Rabs offset <= tol) by lra;
            apply Hiff in Hle; discriminate |].
    intros _.
    set (st1 := withSession (isRunning st) (currentChallenge st) (score st)
                            (correctStreak st) None st).
    assert (Hsecond : handlePitchDetected t1 (Fin (p_frequency challenge)) st1 = st1).
    { unfold handlePitchDetected, st1.
      cbn [currentChallenge isRunning offsets tolerance correctStartTime
           detectionHoldTime withSession].
      rewrite Hch, Hrun, Hinfo, Htol, Hm. reflexivity. }
    rewrite Hsecond. split; [reflexivity | exact Hch].
Qed.

Lemma handlePitchDetected_nominal_witness :
  let challenge := fretPosition (mkOpenString "E" 2 82.41 40) 6 0 in
  let st := mkState true (Some challenge) 0 0 None 150 (Fin 50) ∅
                    false None [] None 2000 in
  score (handlePitchDetected 200 (Fin (p_frequency challenge))
           (handlePitchDetected 0 (Fin (p_frequency challenge)) st)) = 1%Z.
Proof.
  intros challenge st.
  apply (handlePitchDetected_nominal st challenge 0 200 0 50); try reflexivity.
  - apply In_FRETBOARD. exists 6%nat, (mkOpenString "E" 2 82.41 40), 0%nat.
    repeat split. lia.
  - simpl. lia.
  - rewrite Rabs_R0. lra.
  - rewrite Rabs_R0. lra.
Defined.

(** ** Calibration *)

Lemma insertSorted_In (x y : R) (l : list R) :
  In y (insertSorted x l) <-> y = x \/ In y l.
Proof.
  induction l as [| z l IH]; cbn [insertSorted].
  - simpl. intuition.
  - destruct (Rle_dec x z); simpl; [intuition |].
    rewrite IH. intuition.
Qed.

Lemma sortAscending_In (y : R) (l : list R) : In y (sortAscending l) <-> In y l.
Proof.
  induction l as [| x l IH]; [reflexivity |].
  cbn [sortAscending fold_right]. fold (sortAscending l).
  rewrite insertSorted_In, IH. simpl. intuition.
Qed.

Lemma insertSorted_length (x : R) (l : list R) :
  length (insertSorted x l) = S (length l).
Proof.
  induction l as [| z l IH]; cbn [insertSorted]; [reflexivity |].
  destruct (Rle_dec x z); simpl; [reflexivity | now rewrite IH].
Qed.

Lemma sortAscending_length (l : list R) : length (sortAscending l) = length l.
Proof.
  induction l as [| x l IH]; [reflexivity |].
  cbn [sortAscending fold_right]. fold (sortAscending l).
  now rewrite insertSorted_length, IH.
Qed.

Lemma insertSorted_sorted (x : R) (l : list R) :
  StronglySorted Rle l -> StronglySorted Rle (insertSorted x l).
Proof.
  induction 1 as [| z l Hs IH Hall]; cbn [insertSorted].
  - repeat constructor.
  - destruct (Rle_dec x z) as [Hle | Hgt].
    + constructor; [now constructor |].
      constructor; [assumption |].
      eapply List.Forall_impl; [| exact Hall]. intros a Ha. simpl in *. lra.
    + constructor; [assumption |].
      apply List.Forall_forall. intros a Ha.
      apply insertSorted_In in Ha. destruct Ha as [-> | Ha]; [lra |].
      rewrite List.Forall_forall in Hall. now apply Hall.
Qed.

Lemma sortAscending_sorted (l : list R) : StronglySorted Rle (sortAscending l).
Proof.
  induction l as [| x l IH]; [constructor |].
  cbn [sortAscending fold_right]. now apply insertSorted_sorted.
Qed.

(** The middle of the sorted samples is one of the samples. *)
Lemma median_In (samples : list R) :
  samples <> [] ->
  exists median,
    sortAscending samples !! (length (sortAscending samples) / 2)%nat = Some median
    /\ In median samples.
Proof.
  intros Hne.
  assert (Hlen : (0 < length (sortAscending samples))%nat).
  { rewrite sortAscending_length. destruct samples; [contradiction | simpl; lia]. }
  destruct (lookup_lt_is_Some_2 (sortAscending samples)
              (length (sortAscending samples) / 2)%nat) as [m Hm].
  { apply Nat.div_lt; lia. }
  exists m. split; [exact Hm |].
  apply sortAscending_In. apply list_elem_of_In.
  eapply list_elem_of_lookup_2. exact Hm.
Qed.

Lemma OPEN_STRINGS_frequency_pos (stringNum : nat) (openStr : openString) :
  OPEN_STRINGS stringNum = Some openStr -> 0 < os_frequency openStr.
Proof.
  intros Hos. apply OPEN_STRINGS_cases in Hos. simpl in Hos.
  repeat (destruct Hos as [<- | Hos]; [cbn [os_frequency]; lra |]).
  contradiction.
Qed.

Lemma expectedFreqOf_Some (st : state) (current : nat) (openStr : openString) :
  currentCalibrationString st = Some current -> OPEN_STRINGS current = Some openStr ->
  expectedFreqOf st = Some (os_frequency openStr).
Proof. intros Hc Hos. unfold expectedFreqOf. now rewrite Hc, Hos. Qed.

Lemma cents_of_positive (f e : R) :
  0 < f -> 0 < e ->
  nmul 1200 (nlog2 (ndiv f e)) = Fin (1200 * Rlog2 (f / e)).
Proof. intros Hf He. now apply calculateCentsOffset_Fin. Qed.

(** The outcome of [completeStringCalibration] on positive samples. *)
Lemma completeStringCalibration_positive (st : state) (current : nat)
    (openStr : openString) :
  currentCalibrationString st = Some current -> OPEN_STRINGS current = Some openStr ->
  calibrationSamples st <> [] -> Forall (fun f => 0 < f) (calibrationSamples st) ->
  exists median,
    sortAscending (calibrationSamples st)
      !! (length (sortAscending (calibrationSamples st)) / 2)%nat = Some median
    /\ In median (calibrationSamples st)
    /\ completeStringCalibration st
       = Some (withCalibration (isRunning st)
                 (<[ current := Fin (1200 * Rlog2 (median / os_frequency openStr)) ]>
                    (offsets st))
                 (isCalibrating st) (currentCalibrationString st)
                 (calibrationSamples st) (calibrationStartTime st) st).
Proof.
  intros Hc Hos Hne Hpos.
  destruct (median_In _ Hne) as (median & Hm & Hin).
  exists median. split; [exact Hm |]. split; [exact Hin |].
  unfold completeStringCalibration.
  rewrite (expectedFreqOf_Some st current openStr Hc Hos), Hc, Hm.
  cbn [option_map toNumber].
  rewrite List.Forall_forall in Hpos.
  pose proof (Hpos median Hin) as Hm0.
  pose proof (OPEN_STRINGS_frequency_pos _ _ Hos) as He.
  rewrite cents_of_positive by assumption.
  reflexivity.
Qed.

(** X25: for a positive detected frequency, only frequencies within 100
    cents of the open string are kept as calibration samples (a detection
    further off empties them), and an offset stored by a pitch callback is
    at most 100 cents in absolute value; a thousandth of a cent at the
    boundary is left to the rounding of the computed cents. *)
Theorem handleCalibrationPitch_within_semitone
    (nowStart nowElapsed : Z) (frequency probability : R) (st st' : state)
    (current : nat) (openStr : openString) :
  currentCalibrationString st = Some current -> OPEN_STRINGS current = Some openStr ->
  0 < frequency ->
  Forall (nearExpected (os_frequency openStr)) (calibrationSamples st) ->
  handleCalibrationPitch nowStart nowElapsed frequency probability st = Some st' ->
  Forall (nearExpected (os_frequency openStr)) (calibrationSamples st')
  /\ currentCalibrationString st' = Some current
  /\ (offsets st' = offsets st
      \/ exists offset,
           offsets st' = <[ current := Fin offset ]> (offsets st)
           /\ Rabs offset <= 100 + / 1000)
  /\ (isCalibrating st = true -> 0.8 <= probability ->
      100 + / 1000 <= Rabs (1200 * Rlog2 (frequency / os_frequency openStr)) ->
      calibrationSamples st' = [] /\ calibrationStartTime st' = None).
Proof.
  intros Hc Hos Hf Hnear Hrun.
  pose proof (OPEN_STRINGS_frequency_pos _ _ Hos) as He.
  unfold handleCalibrationPitch in Hrun.
  destruct (negb (isCalibrating st) || nlt probability 0.8) eqn:Hgate.
  - injection Hrun as <-. split; [assumption |]. split; [assumption |].
    split; [now left |]. intros Hcal Hp _.
    rewrite Hcal in Hgate. cbn [negb orb] in Hgate.
    apply nlt_Fin in Hgate. lra.
  - rewrite (expectedFreqOf_Some st current openStr Hc Hos) in Hrun.
    rewrite cents_of_positive in Hrun by assumption.
    cbn [nabs] in Hrun. unfold ngt, nlt, Rltb in Hrun.
    destruct (Rlt_dec 100 (Rabs (1200 * Rlog2 (frequency / os_frequency openStr))))
      as [Hfar | Hclose].
    + injection Hrun as <-. cbn.
      split; [constructor |]. split; [assumption |]. split; [now left |].
      intros _ _ _. split; reflexivity.
    + set (started := match calibrationStartTime st with
                      | Some t => t
                      | None => nowStart
                      end) in *.
      set (st1 := withCalibration (isRunning st) (offsets st) (isCalibrating st)
                    (currentCalibrationString st)
                    (calibrationSamples st ++ [frequency]) (Some started) st) in *.
      assert (Hnear1 : Forall (nearExpected (os_frequency openStr))
                         (calibrationSamples st1)).
      { unfold st1. cbn [calibrationSamples withCalibration].
        apply Forall_app. split; [assumption |].
        constructor; [| constructor]. split; [assumption | lra]. }
      destruct (_ >=? _)%Z.
      * assert (Hc1 : currentCalibrationString st1 = Some current) by exact Hc.
        assert (Hne : calibrationSamples st1 <> []).
        { unfold st1. cbn [calibrationSamples withCalibration].
          destruct (calibrationSamples st); discriminate. }
        assert (Hpos : Forall (fun f => 0 < f) (calibrationSamples st1)).
        { eapply List.Forall_impl; [| exact Hnear1]. intros a [Ha _]. exact Ha. }
        destruct (completeStringCalibration_positive st1 current openStr
                    Hc1 Hos Hne Hpos) as (median & _ & Hin & Hdone).
        rewrite Hdone in Hrun. injection Hrun as <-.
        cbn [calibrationSamples currentCalibrationString offsets withCalibration].
        split; [exact Hnear1 |]. split; [exact Hc |].
        split; [| intros _ _ Hfar; lra].
        right. eexists. split; [reflexivity |].
        rewrite List.Forall_forall in Hnear1. now apply Hnear1.
      * injection Hrun as <-.
        split; [exact Hnear1 |]. split; [exact Hc |].
        split; [now left | intros _ _ Hfar; lra].
Qed.

Lemma handleCalibrationPitch_on_pitch (st : state) :
  isCalibrating st = true -> currentCalibrationString st = Some 6%nat ->
  calibrationStartTime st = None -> calibrationDuration st = 2000%Z ->
  handleCalibrationPitch 0 100 82.41 0.9 st
  = Some (withCalibration (isRunning st) (offsets st) true (Some 6%nat)
            (calibrationSamples st ++ [82.41]) (Some 0%Z) st).
Proof.
  intros Hcal Hc Hstart Hd.
  unfold handleCalibrationPitch. rewrite Hcal. cbn [negb orb].
  assert (Hp : nlt 0.9 0.8 = false) by (apply nlt_Fin_false; lra).
  rewrite Hp. rewrite (expectedFreqOf_Some st 6 (mkOpenString "E" 2 82.41 40) Hc eq_refl).
  cbn [os_frequency]. rewrite cents_of_positive by lra.
  replace (82.41 / 82.41) with 1 by lra. rewrite Rlog2_1, Rmult_0_r.
  cbn [nabs]. rewrite Rabs_R0.
  assert (H100 : ngt 0 100 = false) by (apply nlt_Fin_false; lra).
  rewrite H100, Hstart. cbn [calibrationDuration withCalibration].
  rewrite Hd, Hc. reflexivity.
Qed.

Lemma handleCalibrationPitch_within_semitone_witness :
  let st := startCalibration true (initial ∅ 50) in
  exists st',
    handleCalibrationPitch 0 100 82.41 0.9 st = Some st'
    /\ Forall (nearExpected 82.41) (calibrationSamples st')
    /\ currentCalibrationString st' = Some 6%nat.
Proof.
  intros st.
  pose proof (handleCalibrationPitch_on_pitch st eq_refl eq_refl eq_refl eq_refl)
    as Hrun.
  eexists. split; [exact Hrun |].
  destruct (handleCalibrationPitch_within_semitone 0 100 82.41 0.9 st _ 6
              (mkOpenString "E" 2 82.41 40) eq_refl eq_refl ltac:(lra)
              (List.Forall_nil _) Hrun) as (H1 & H2 & _).
  split; assumption.
Defined.

(** X26: calibration round trip: [completeStringCalibration] on positive
    samples stores an offset for the string and takes the median (the
    middle of the sorted samples); for a median from 20 to 5000 Hz the
    offset is the cents of the median against the tabulated frequency of the
    open string up to rounding (a millionth of a cent), the calibrated
    target of that frequency is the median again up to rounding (one part in
    10^9), and the median matches that target at every tolerance from a
    thousandth of a cent on. *)
Theorem completeStringCalibration_round_trip (st : state) (current : nat)
    (openStr : openString) :
  currentCalibrationString st = Some current -> OPEN_STRINGS current = Some openStr ->
  calibrationSamples st <> [] -> Forall (fun f => 0 < f) (calibrationSamples st) ->
  exists st' median target,
    completeStringCalibration st = Some st'
    /\ sortAscending (calibrationSamples st)
         !! (length (calibrationSamples st) / 2)%nat = Some median
    /\ In median (calibrationSamples st)
    /\ (exists offset,
          offsets st' = <[ current := Fin offset ]> (offsets st)
          /\ (20 <= median <= 5000 ->
              Rabs (offset - 1200 * Rlog2 (median / os_frequency openStr))
              <= / 1000000))
    /\ getCalibratedTargetFrequency (offsets st') (os_frequency openStr) current
       = Fin target
    /\ (20 <= median <= 5000 ->
        Rabs (target - median) <= median / 1000000000
        /\ forall tol : R, / 1000 <= tol ->
             isNoteMatch (Some (Fin median))
               (getCalibratedTargetFrequency (offsets st') (os_frequency openStr)
                  current)
               (Some (Fin tol)) = true).
Proof.
  intros Hc Hos Hne Hpos.
  destruct (completeStringCalibration_positive st current openStr Hc Hos Hne Hpos)
    as (median & Hm & Hin & Hdone).
  rewrite sortAscending_length in Hm.
  pose proof (OPEN_STRINGS_frequency_pos _ _ Hos) as He.
  assert (Hm0 : 0 < median).
  { rewrite List.Forall_forall in Hpos. now apply Hpos. }
  eexists. exists median, median. split; [exact Hdone |].
  split; [exact Hm |]. split; [exact Hin |].
  cbn [offsets withCalibration]. split.
  { eexists. split; [reflexivity |]. intros _.
    replace (1200 * Rlog2 (median / os_frequency openStr)
             - 1200 * Rlog2 (median / os_frequency openStr)) with 0 by lra.
    rewrite Rabs_R0. lra. }
  assert (Htarget :
    getCalibratedTargetFrequency
      (<[ current := Fin (1200 * Rlog2 (median / os_frequency openStr)) ]> (offsets st))
      (os_frequency openStr) current = Fin median).
  { unfold getCalibratedTargetFrequency.
    rewrite (getCalibrationOffset_stored _ _ _ (lookup_insert_eq _ _ _)).
    rewrite ndiv_Fin by lra. cbn [npow2 nmul]. f_equal.
    replace (1200 * Rlog2 (median / os_frequency openStr) / 1200)
      with (Rlog2 (median / os_frequency openStr)) by lra.
    rewrite Rpower2_log2 by (apply Rdiv_lt_0_compat; lra).
    field. lra. }
  split; [exact Htarget |].
  intros Hrange. split.
  - replace (median - median) with 0 by lra. rewrite Rabs_R0.
    apply Rmult_le_pos; lra.
  - intros tol Htol. rewrite Htarget.
    apply isNoteMatch_cents; try lra.
    replace (median / median) with 1 by (field; lra).
    rewrite Rlog2_1, Rmult_0_r, Rabs_R0. lra.
Qed.

Lemma completeStringCalibration_round_trip_witness :
  let st := withCalibration false ∅ true (Some 5%nat) [108; 109; 107] None
              (initial ∅ 50) in
  exists st' median target,
    completeStringCalibration st = Some st'
    /\ In median [108; 109; 107]
    /\ getCalibratedTargetFrequency (offsets st') 110.00 5 = Fin target
    /\ (20 <= median <= 5000 -> Rabs (target - median) <= median / 1000000000).
Proof.
  intros st.
  destruct (completeStringCalibration_round_trip st 5 (mkOpenString "A" 2 110.00 45))
    as (st' & median & target & H1 & _ & H2 & _ & H3 & H4); try reflexivity.
  - discriminate.
  - repeat constructor; lra.
  - exists st', median, target. repeat split; try assumption.
    intros Hr. now apply H4.
Defined.

(** X27: once a calibration has been started, no sequence of pitch
    callbacks, deferred string changes, skip, cancel and restart clicks makes a
    handler fail: the current string always stays one of the six strings of
    the table, whose expected frequency the pitch handler reads. *)
Theorem calibration_never_raises (events : list event) (st0 : state) :
  exists st,
    run events (startCalibration true st0) = Some st
    /\ exists current openStr,
         currentCalibrationString st = Some current
         /\ (1 <= current <= 6)%nat
         /\ OPEN_STRINGS current = Some openStr.
Proof.
  assert (Htable : forall current, (1 <= current <= 6)%nat ->
                     exists openStr, OPEN_STRINGS current = Some openStr).
  { intros current Hr.
    do 7 (destruct current as [| current]; [try lia; eexists; reflexivity |]). lia. }
  assert (Hstep : forall ev st,
            (exists current, currentCalibrationString st = Some current
                             /\ (1 <= current <= 6)%nat) ->
            exists st', step ev st = Some st'
                        /\ exists current, currentCalibrationString st' = Some current
                                           /\ (1 <= current <= 6)%nat).
  { intros ev st (current & Hc & Hr).
    destruct (Htable current Hr) as (openStr & Hos).
    destruct ev as [nowStart nowElapsed frequency probability | | | | started];
      cbn [step].
    - unfold handleCalibrationPitch.
      destruct (negb (isCalibrating st) || nlt probability 0.8); [eauto |].
      rewrite (expectedFreqOf_Some st current openStr Hc Hos).
      destruct (ngt _ _); [eexists; split; [reflexivity |]; cbn; eauto |].
      destruct (_ >=? _)%Z; [| eexists; split; [reflexivity |]; cbn; eauto].
      unfold completeStringCalibration, expectedFreqOf.
      cbn [currentCalibrationString withCalibration].
      rewrite Hc, Hos. eexists. split; [reflexivity |]. cbn. eauto.
    - eexists. split; [reflexivity |]. unfold nextCalibrationString. rewrite Hc.
      destruct (Nat.leb_spec 1 (current - 1)); cbn; [| eauto].
      exists (current - 1)%nat. split; [reflexivity | lia].
    - eexists. split; [reflexivity |].
      unfold skipCalibrationString, nextCalibrationString.
      cbn [currentCalibrationString withCalibration]. rewrite Hc.
      destruct (Nat.leb_spec 1 (current - 1)); cbn; [| eauto].
      exists (current - 1)%nat. split; [reflexivity | lia].
    - eexists. split; [reflexivity |]. cbn. eauto.
    - eexists. split; [reflexivity |]. unfold startCalibration.
      destruct started; cbn; [| eauto].
      exists 6%nat. split; [reflexivity | lia]. }
  assert (Hrun : forall evs st,
            (exists current, currentCalibrationString st = Some current
                             /\ (1 <= current <= 6)%nat) ->
            exists st', run evs st = Some st'
                        /\ exists current, currentCalibrationString st' = Some current
                                           /\ (1 <= current <= 6)%nat).
  { induction evs as [| ev evs IH]; intros st Hinv; cbn [run]; [eauto |].
    destruct (Hstep ev st Hinv) as (st1 & Hs & Hinv1). rewrite Hs.
    now apply IH. }
  destruct (Hrun events (startCalibration true st0)) as (st & Hs & current & Hc & Hr).
  { exists 6%nat. split; [reflexivity | lia]. }
  exists st. split; [exact Hs |].
  destruct (Htable current Hr) as (openStr & Hos).
  now exists current, openStr.
Qed.

(** ** The diagram *)

Lemma getFretX_constructor (fret : nat) :
  Diagram.getFretX Diagram.constructor (Fin (INR fret))
  = Fin (if Nat.eq_dec fret 0%nat then 34 else 38 + (INR fret - 0.5) * (352 / 12)).
Proof.
  unfold Diagram.getFretX. cbn [nstrictEq]. unfold Reqb.
  destruct (Req_dec_T (INR fret) 0) as [H0 | H0].
  - destruct (Nat.eq_dec fret 0%nat) as [_ | Hn].
    + cbn [Diagram.padding_left Diagram.nutWidth Diagram.constructor].
      rewrite ndiv_Fin by lra. cbn [nadd]. f_equal. lra.
    + exfalso. apply Hn. now apply INR_eq.
  - destruct (Nat.eq_dec fret 0%nat) as [-> | _]; [now contradiction H0 |].
    cbn [Diagram.width Diagram.padding_left Diagram.padding_right Diagram.nutWidth
         Diagram.numFrets Diagram.constructor nsub nneg nadd].
    rewrite ndiv_Fin by lra. cbn [nmul nadd]. f_equal. lra.
Qed.

Lemma getStringY_constructor (stringNum : nat) :
  Diagram.getStringY Diagram.constructor (Fin (INR stringNum))
  = Fin (15 + (INR stringNum - 1) * 24).
Proof.
  unfold Diagram.getStringY.
  cbn [Diagram.height Diagram.padding_top Diagram.padding_bottom Diagram.numStrings
       Diagram.constructor nsub nneg nadd].
  rewrite ndiv_Fin by lra. cbn [nmul nadd]. f_equal. field.
Qed.

(** X28: for every position of the table the indicator is drawn inside the
    padded area of the 400 by 150 diagram, and two positions that differ in
    string or fret get different centres. *)
Theorem diagram_show_inside (p : position) :
  In p FRETBOARD ->
  exists x y,
    Diagram.show Diagram.constructor (Fin (INR (p_string p))) (Fin (INR (p_fret p)))
    = (Fin x, Fin y)
    /\ 30 <= x <= 400 - 10 /\ 15 <= y <= 150 - 15
    /\ forall q, In q FRETBOARD ->
         Diagram.show Diagram.constructor (Fin (INR (p_string q))) (Fin (INR (p_fret q)))
         = (Fin x, Fin y) ->
         q = p.
Proof.
  intros Hp. apply In_FRETBOARD in Hp.
  destruct Hp as (s & os & f & Hos & Hf & ->).
  pose proof (OPEN_STRINGS_inv _ _ Hos) as [Hs _].
  cbn [p_string p_fret fretPosition]. unfold Diagram.show.
  rewrite getFretX_constructor, getStringY_constructor.
  eexists. eexists. split; [reflexivity |].
  assert (Hs1 : 1 <= INR s <= 6).
  { destruct Hs as [Hs1 Hs6]. apply le_INR in Hs1, Hs6.
    rewrite (INR_IZR_INZ 6) in Hs6.
    change (INR 1) with 1 in Hs1. change (IZR (Z.of_nat 6)) with 6 in Hs6. lra. }
  assert (Hf1 : 0 <= INR f <= 12).
  { split; [apply pos_INR |]. apply le_INR in Hf.
    rewrite (INR_IZR_INZ 12) in Hf. change (IZR (Z.of_nat 12)) with 12 in Hf. lra. }
  split.
  { destruct (Nat.eq_dec f 0%nat); [lra |].
    assert (1 <= INR f) by (change 1 with (INR 1); apply le_INR; lia). lra. }
  split; [lra |].
  intros q Hq Hsame. apply In_FRETBOARD in Hq.
  destruct Hq as (s' & os' & f' & Hos' & Hf' & ->).
  cbn [p_string p_fret fretPosition] in Hsame.
  rewrite getFretX_constructor, getStringY_constructor in Hsame.
  injection Hsame as Hx Hy.
  assert (Hss : s' = s).
  { apply INR_eq. lra. }
  subst s'.
  assert (Hff : f' = f).
  { destruct (Nat.eq_dec f' 0%nat) as [-> | Hn']; destruct (Nat.eq_dec f 0%nat) as [-> | Hn].
    - reflexivity.
    - assert (1 <= INR f) by (change 1 with (INR 1); apply le_INR; lia). lra.
    - assert (1 <= INR f') by (change 1 with (INR 1); apply le_INR; lia). lra.
    - apply INR_eq. lra. }
  subst f'. now rewrite (OPEN_STRINGS_functional _ _ _ Hos Hos').
Qed.

Lemma diagram_show_inside_witness :
  exists x y,
    Diagram.show Diagram.constructor (Fin (INR 6)) (Fin (INR 12)) = (Fin x, Fin y)
    /\ 30 <= x <= 400 - 10 /\ 15 <= y <= 150 - 15.
Proof.
  destruct (diagram_show_inside (fretPosition (mkOpenString "E" 2 82.41 40) 6 12))
    as (x & y & H1 & H2 & H3 & _).
  - apply In_FRETBOARD. exists 6%nat, (mkOpenString "E" 2 82.41 40), 12%nat.
    repeat split. lia.
  - exists x, y. repeat split; try assumption; try apply H2; apply H3.
Defined.

(** ** The autocorrelation estimator *)

Lemma range_filter_cases (frequency lo hi : R) (f : num) :
  f = Fin frequency \/ f = PInf \/ f = NInf \/ f = NaN ->
  (if nlt f lo || ngt f hi then Fin (-1) else f) = Fin (-1)
  \/ (if nlt f lo || ngt f hi then Fin (-1) else f) = NaN
  \/ exists g, (if nlt f lo || ngt f hi then Fin (-1) else f) = Fin g /\ lo <= g <= hi.
Proof.
  intros [-> | [-> | [-> | ->]]]; cbn; unfold Rltb.
  - destruct (Rlt_dec frequency lo); [now left |].
    destruct (Rlt_dec hi frequency); [now left |].
    right. right. exists frequency. split; [reflexivity | lra].
  - now left.
  - now left.
  - right. now left.
Qed.

(** X29: what [autoCorrelate] returns is the sentinel -1, or NaN, or a
    frequency inside the range of the detector: never an infinity and never a
    finite frequency outside 70 to 1200 Hz. *)
Theorem autoCorrelate_result (buffer : list R) (sampleRate : R) :
  let result := autoCorrelate constructor buffer sampleRate in
  result = Fin (-1) \/ result = NaN
  \/ exists frequency, result = Fin frequency /\ 70 <= frequency <= 1200.
Proof.
  intros result. unfold result, autoCorrelate.
  destruct (nlt (rmsOf buffer) 0.01); [now left |].
  destruct (_ =? 0)%nat; [now left |].
  cbn [minFrequency maxFrequency constructor].
  match goal with
  | |- context [nlt ?f (Fin 70)] =>
      destruct f as [g | | |] eqn:Hf;
      [apply (range_filter_cases g 70 1200); now left
      | apply (range_filter_cases 0 70 1200); right; now left
      | apply (range_filter_cases 0 70 1200); right; right; now left
      | apply (range_filter_cases 0 70 1200); right; right; now right]
  end.
Qed.

(** The silence gate: a buffer whose samples are all below 0.01 in absolute
    value (also the empty one) makes [autoCorrelate] return -1. *)
Lemma autoCorrelate_quiet (this : AudioPitchDetector) (buffer : list R)
    (sampleRate : R) :
  Forall (fun x => Rabs x < 0.01) buffer ->
  autoCorrelate this buffer sampleRate = Fin (-1).
Proof.
  intros Hquiet. destruct buffer as [| x buffer].
  - unfold autoCorrelate. rewrite rmsOf_empty. reflexivity.
  - unfold autoCorrelate. now rewrite rmsOf_quiet.
Qed.

Lemma autoCorrelate_quiet_witness :
  autoCorrelate constructor (replicate 2048 0.001) 44100 = Fin (-1).
Proof.
  apply autoCorrelate_quiet. apply Forall_replicate.
  rewrite Rabs_pos_eq; lra.
Defined.

Section ConstantSignal.

Variable c : R.

Lemma sample_replicate (n i : nat) :
  sample (replicate n c) i = if (i <? n)%nat then Fin c else NaN.
Proof.
  unfold sample. destruct (Nat.ltb_spec i n) as [Hlt | Hge].
  - now rewrite lookup_replicate_2.
  - assert (H : replicate n c !! i = None) by (apply lookup_replicate_None; lia).
    now rewrite H.
Qed.

Lemma no_crossing (x y : num) :
  (x = Fin c \/ x = NaN) -> (y = Fin c \/ y = NaN) ->
  nlt x 0 && nge y 0 = false.
Proof.
  intros [-> | ->] [-> | ->]; cbn; unfold Rltb, Rleb;
    try (destruct (Rlt_dec c 0); reflexivity).
  destruct (Rlt_dec c 0); destruct (Rle_dec 0 c); try reflexivity. lra.
Qed.

Lemma sample_replicate_cases (n i : nat) :
  sample (replicate n c) i = Fin c \/ sample (replicate n c) i = NaN.
Proof. rewrite sample_replicate. destruct (i <? n)%nat; auto. Qed.

Lemma sampleZ_replicate_cases (n : nat) (i : Z) :
  sampleZ (replicate n c) i = Fin c \/ sampleZ (replicate n c) i = NaN.
Proof.
  unfold sampleZ. destruct (i <? 0)%Z; [now right | apply sample_replicate_cases].
Qed.

Lemma crossingUp_constant (n steps i : nat) :
  crossingUp (replicate n c) steps i = 0%nat.
Proof.
  revert i. induction steps as [| steps IH]; intros i; cbn [crossingUp]; [reflexivity |].
  destruct (nlt _ _); [| reflexivity].
  rewrite no_crossing by apply sample_replicate_cases. apply IH.
Qed.

Lemma crossingDown_constant (n steps : nat) (i : Z) :
  crossingDown (replicate n c) steps i = (Z.of_nat (length (replicate n c)) - 1)%Z.
Proof.
  revert i. induction steps as [| steps IH]; intros i; cbn [crossingDown];
    [reflexivity |].
  destruct (nge _ _); [| reflexivity].
  rewrite no_crossing by apply sampleZ_replicate_cases. apply IH.
Qed.

Lemma slice_constant (n : nat) :
  slice (replicate n c) 0 (Z.of_nat (length (replicate n c)) - 1)
  = replicate (n - 1) c.
Proof.
  unfold slice. rewrite length_replicate.
  change (drop 0 (replicate n c)) with (replicate n c). rewrite Nat.sub_0_r.
  destruct (Z.ltb_spec (Z.of_nat n - 1) 0) as [Hneg | Hpos].
  - assert (n = 0%nat) by lia. subst n. reflexivity.
  - rewrite Z.min_l by lia. rewrite take_replicate. f_equal. lia.
Qed.

Lemma correlationAt_constant (m lag : nat) :
  correlationAt (replicate m c) lag = Fin (INR (m - lag) * (c * c)).
Proof.
  unfold correlationAt. rewrite length_replicate.
  rewrite (forLoop_sum (fun _ => c * c)).
  - f_equal. rewrite Nat.sub_0_r. generalize (m - lag)%nat 0%nat.
    intros k. induction k as [| k IH]; intros s0; [simpl; lra |].
    cbn [seq map sumR fold_right]. fold (sumR (map (fun _ => c * c) (seq (S s0) k))).
    rewrite IH, S_INR. lra.
  - intros i acc Hi. rewrite !sample_replicate.
    destruct (Nat.ltb_spec i m); [| lia].
    destruct (Nat.ltb_spec (i + lag) m); [| lia].
    reflexivity.
Qed.

Lemma correlationsOf_constant (m lag : nat) :
  (lag < m)%nat ->
  correlationsOf (replicate m c) !! lag = Some (Fin (INR (m - lag) * (c * c))).
Proof.
  intros Hlag. unfold correlationsOf. rewrite length_replicate.
  rewrite list_lookup_fmap, lookup_seq_lt by assumption.
  cbn. now rewrite correlationAt_constant.
Qed.

(** The correlations of a constant signal never rise, so no peak is found. *)
Lemma peakSearch_constant (m count first : nat) :
  (1 <= first)%nat -> (first + count <= m)%nat ->
  peakSearch (correlationsOf (replicate m c)) (seq first count) false 0
             (Fin (INR (m - (first - 1)) * (c * c))) = 0%nat.
Proof.
  revert first. induction count as [| count IH]; intros first H1 Hm;
    cbn [seq peakSearch negb]; [reflexivity |].
  rewrite correlationsOf_constant by lia. cbn [toNumber].
  assert (Hno : ngt (Fin (INR (m - first) * (c * c)))
                    (Fin (INR (m - (first - 1)) * (c * c))) = false).
  { apply nlt_Fin_false.
    assert (Hle : INR (m - first) <= INR (m - (first - 1))) by (apply le_INR; lia).
    assert (Hc : 0 <= c * c) by nra.
    apply Rmult_le_compat_r; assumption. }
  rewrite Hno. cbn [andb].
  replace (m - first)%nat with (m - (S first - 1))%nat by lia.
  apply IH; lia.
Qed.

End ConstantSignal.

(** X30: a constant buffer of any length and any level makes [autoCorrelate]
    return -1: below the gate it is rejected as silence, above it the
    trimming finds no zero crossing, keeps all samples but the last, and the
    correlations never rise from one lag to the next, so no peak is found. *)
Theorem autoCorrelate_constant_signal (this : AudioPitchDetector) (n : nat)
    (c sampleRate : R) :
  autoCorrelate this (replicate n c) sampleRate = Fin (-1).
Proof.
  unfold autoCorrelate.
  destruct (nlt (rmsOf (replicate n c)) 0.01); [reflexivity |].
  rewrite crossingUp_constant, crossingDown_constant, slice_constant.
  rewrite length_replicate.
  destruct (Nat.le_gt_cases (n - 1) 0) as [Hshort | Hlong].
  - replace (n - 1)%nat with 0%nat by lia. reflexivity.
  - rewrite correlationsOf_constant by lia. cbn [toNumber].
    replace (n - 1 - 0)%nat with (n - 1 - (1 - 1))%nat by lia.
    rewrite peakSearch_constant by lia. reflexivity.
Qed.

(** * Binary floating point

    ** Rounding to the nearest number of a format *)

Lemma Znearest_even_cases (x : R) :
  Znearest_even x = Zfloor x \/ (Znearest_even x = (Zfloor x + 1)%Z /\ IZR (Zfloor x) + / 2 <= x).
Proof.
  unfold Znearest_even. cbv zeta.
  destruct (Rltb (x - IZR (Zfloor x)) (/ 2)) eqn:H1; [now left |].
  apply Rltb_false_iff in H1.
  destruct (Rltb (/ 2) (x - IZR (Zfloor x))); [right; split; [reflexivity | lra] |].
  destruct (Z.even (Zfloor x)); [now left | right; split; [reflexivity | lra]].
Qed.

Lemma Znearest_even_bound (x : R) : Rabs (IZR (Znearest_even x) - x) <= / 2.
Proof.
  pose proof (Zfloor_bound x) as [Hlo Hhi].
  unfold Znearest_even. cbv zeta.
  destruct (Rltb (x - IZR (Zfloor x)) (/ 2)) eqn:H1.
  - apply Rltb_true_iff in H1. apply Rabs_le. lra.
  - apply Rltb_false_iff in H1.
    destruct (Rltb (/ 2) (x - IZR (Zfloor x))) eqn:H2.
    + apply Rltb_true_iff in H2. rewrite plus_IZR. apply Rabs_le. lra.
    + apply Rltb_false_iff in H2.
      destruct (Z.even (Zfloor x)); [| rewrite plus_IZR]; apply Rabs_le; lra.
Qed.

Lemma Znearest_even_IZR (k : Z) : Znearest_even (IZR k) = k.
Proof.
  unfold Znearest_even. cbv zeta. rewrite ZfloorZ.
  replace (IZR k - IZR k) with 0 by lra.
  assert (H : Rltb 0 (/ 2) = true) by (apply Rltb_true_iff; lra).
  now rewrite H.
Qed.

Lemma Znearest_even_le (x : R) (b : Z) : x <= IZR b -> (Znearest_even x <= b)%Z.
Proof.
  intros Hb. pose proof (Zfloor_bound x) as [Hlo Hhi].
  destruct (Znearest_even_cases x) as [-> | [-> Hhalf]].
  - apply le_IZR. lra.
  - assert (Hlt : (Zfloor x < b)%Z) by (apply lt_IZR; lra). lia.
Qed.

Lemma Znearest_even_ge (x : R) (a : Z) : IZR a <= x -> (a <= Znearest_even x)%Z.
Proof.
  intros Ha. pose proof (Zfloor_lub a x Ha) as Hf.
  destruct (Znearest_even_cases x) as [-> | [-> _]]; lia.
Qed.

Lemma powerRZ2_pos (e : Z) : 0 < powerRZ 2 e.
Proof. apply powerRZ_lt. lra. Qed.

Lemma powerRZ2_Rpower (e : Z) : powerRZ 2 e = Rpower 2 (IZR e).
Proof. apply powerRZ_Rpower. lra. Qed.

Lemma powerRZ2_le (a b : Z) : (a <= b)%Z -> powerRZ 2 a <= powerRZ 2 b.
Proof.
  intros H. rewrite !powerRZ2_Rpower. apply Rpower2_le. now apply IZR_le.
Qed.

Lemma powerRZ2_lt (a b : Z) : (a < b)%Z -> powerRZ 2 a < powerRZ 2 b.
Proof.
  intros H. rewrite !powerRZ2_Rpower. apply Rpower2_lt. now apply IZR_lt.
Qed.

Lemma powerRZ2_cancel (e : Z) : powerRZ 2 (- e) * powerRZ 2 e = 1.
Proof.
  rewrite <- powerRZ_add by lra. replace (- e + e)%Z with 0%Z by lia. reflexivity.
Qed.

Lemma powerRZ2_IZR (n : Z) : (0 <= n)%Z -> powerRZ 2 n = IZR (2 ^ n).
Proof.
  intros Hn. destruct n as [| p | p]; [reflexivity | | lia].
  unfold powerRZ. rewrite pow_IZR. now rewrite positive_nat_Z.
Qed.

(** The binade of a non-zero real. *)
Lemma binade_bounds (x : R) :
  x <> 0 ->
  powerRZ 2 (Zfloor (Rlog2 (Rabs x))) <= Rabs x
  < powerRZ 2 (Zfloor (Rlog2 (Rabs x)) + 1).
Proof.
  intros Hx. assert (Ha : 0 < Rabs x) by now apply Rabs_pos_lt.
  pose proof (Zfloor_bound (Rlog2 (Rabs x))) as [Hlo Hhi].
  rewrite !powerRZ2_Rpower, plus_IZR.
  rewrite <- (Rpower2_log2 (Rabs x) Ha) at 2 3.
  split; [now apply Rpower2_le | now apply Rpower2_lt].
Qed.

Lemma binade_below (x : R) (n : Z) :
  x <> 0 -> Rabs x < powerRZ 2 n -> (Zfloor (Rlog2 (Rabs x)) < n)%Z.
Proof.
  intros Hx Hlt. pose proof (binade_bounds x Hx) as [Hlo _].
  destruct (Z.lt_ge_cases (Zfloor (Rlog2 (Rabs x))) n) as [| Hge]; [assumption |].
  pose proof (powerRZ2_le _ _ Hge). lra.
Qed.

Lemma binade_above (x : R) (n : Z) :
  powerRZ 2 n <= Rabs x -> (n <= Zfloor (Rlog2 (Rabs x)))%Z.
Proof.
  intros Hle. assert (Hx : x <> 0).
  { intros ->. rewrite Rabs_R0 in Hle. pose proof (powerRZ2_pos n). lra. }
  pose proof (binade_bounds x Hx) as [_ Hhi].
  destruct (Z.le_gt_cases n (Zfloor (Rlog2 (Rabs x)))) as [| Hgt]; [assumption |].
  assert (H : (Zfloor (Rlog2 (Rabs x)) + 1 <= n)%Z) by lia.
  pose proof (powerRZ2_le _ _ H). lra.
Qed.

Section Format.

Variables prec emin : Z.
Hypothesis prec_pos : (1 <= prec)%Z.

Lemma roundNearest_0 : roundNearest prec emin 0 = 0.
Proof.
  unfold roundNearest. cbv zeta. rewrite Rmult_0_l.
  change 0 with (IZR 0) at 1. rewrite Znearest_even_IZR. lra.
Qed.

Lemma roundNearest_error (x : R) :
  Rabs (roundNearest prec emin x - x) <= powerRZ 2 (lastPlace prec emin x) / 2.
Proof.
  unfold roundNearest. cbv zeta. set (e := lastPlace prec emin x).
  pose proof (Znearest_even_bound (x * powerRZ 2 (- e))) as Hb.
  pose proof (powerRZ2_pos e) as He. pose proof (powerRZ2_cancel e) as Hc.
  set (n := IZR (Znearest_even (x * powerRZ 2 (- e)))) in *.
  replace (n * powerRZ 2 e - x) with ((n - x * powerRZ 2 (- e)) * powerRZ 2 e)
    by (rewrite Rmult_minus_distr_r, Rmult_assoc, Hc; lra).
  rewrite Rabs_mult, (Rabs_pos_eq (powerRZ 2 e)) by lra.
  apply Rmult_le_compat_r with (r := powerRZ 2 e) in Hb; lra.
Qed.

(** Rounding never crosses a number of the format that is a multiple of the
    last place of the rounded real. *)
Lemma roundNearest_le (x : R) (k e : Z) :
  x <= IZR k * powerRZ 2 e -> (lastPlace prec emin x <= e)%Z ->
  roundNearest prec emin x <= IZR k * powerRZ 2 e.
Proof.
  intros Hx He. unfold roundNearest. cbv zeta. set (c := lastPlace prec emin x) in *.
  pose proof (powerRZ2_pos c) as Hc. pose proof (powerRZ2_pos (- c)) as Hc'.
  assert (Hsplit : powerRZ 2 e = IZR (2 ^ (e - c)) * powerRZ 2 c).
  { rewrite <- powerRZ2_IZR by lia. rewrite <- powerRZ_add by lra.
    f_equal. lia. }
  assert (Hscaled : x * powerRZ 2 (- c) <= IZR (k * 2 ^ (e - c))).
  { rewrite mult_IZR.
    apply Rmult_le_compat_r with (r := powerRZ 2 (- c)) in Hx; [| lra].
    rewrite Hsplit in Hx.
    replace (IZR k * (IZR (2 ^ (e - c)) * powerRZ 2 c) * powerRZ 2 (- c))
      with (IZR k * IZR (2 ^ (e - c)) * (powerRZ 2 (- c) * powerRZ 2 c)) in Hx by ring.
    rewrite powerRZ2_cancel in Hx. lra. }
  apply Znearest_even_le, IZR_le in Hscaled. rewrite mult_IZR in Hscaled.
  rewrite Hsplit.
  apply Rmult_le_compat_r with (r := powerRZ 2 c) in Hscaled; lra.
Qed.

Lemma roundNearest_ge (x : R) (k e : Z) :
  IZR k * powerRZ 2 e <= x -> (lastPlace prec emin x <= e)%Z ->
  IZR k * powerRZ 2 e <= roundNearest prec emin x.
Proof.
  intros Hx He. unfold roundNearest. cbv zeta. set (c := lastPlace prec emin x) in *.
  pose proof (powerRZ2_pos c) as Hc. pose proof (powerRZ2_pos (- c)) as Hc'.
  assert (Hsplit : powerRZ 2 e = IZR (2 ^ (e - c)) * powerRZ 2 c).
  { rewrite <- powerRZ2_IZR by lia. rewrite <- powerRZ_add by lra.
    f_equal. lia. }
  assert (Hscaled : IZR (k * 2 ^ (e - c)) <= x * powerRZ 2 (- c)).
  { rewrite mult_IZR.
    apply Rmult_le_compat_r with (r := powerRZ 2 (- c)) in Hx; [| lra].
    rewrite Hsplit in Hx.
    replace (IZR k * (IZR (2 ^ (e - c)) * powerRZ 2 c) * powerRZ 2 (- c))
      with (IZR k * IZR (2 ^ (e - c)) * (powerRZ 2 (- c) * powerRZ 2 c)) in Hx by ring.
    rewrite powerRZ2_cancel in Hx. lra. }
  apply Znearest_even_ge, IZR_le in Hscaled. rewrite mult_IZR in Hscaled.
  rewrite Hsplit.
  apply Rmult_le_compat_r with (r := powerRZ 2 c) in Hscaled; lra.
Qed.

Lemma lastPlace_le (x : R) (n : Z) :
  x <> 0 -> Rabs x < powerRZ 2 (n + prec) -> (emin - (prec - 1) <= n)%Z ->
  (lastPlace prec emin x <= n)%Z.
Proof.
  intros Hne Hx Hn. unfold lastPlace. apply Z.max_lub; [| assumption].
  pose proof (binade_below x _ Hne Hx). lia.
Qed.

(** A number of the format is its own rounding. *)
Lemma roundNearest_dyadic (k e : Z) :
  (Z.abs k < 2 ^ prec)%Z -> (emin - (prec - 1) <= e)%Z ->
  roundNearest prec emin (IZR k * powerRZ 2 e) = IZR k * powerRZ 2 e.
Proof.
  intros Hk He. destruct (Z.eq_dec k 0%Z) as [-> | Hk0].
  - rewrite Rmult_0_l. apply roundNearest_0.
  - pose proof (powerRZ2_pos e) as Hpos.
    assert (Hne : IZR k * powerRZ 2 e <> 0).
    { apply Rmult_integral_contrapositive_currified; [| lra].
      intros H0. apply eq_IZR in H0. contradiction. }
    assert (Hlast : (lastPlace prec emin (IZR k * powerRZ 2 e) <= e)%Z).
    { apply lastPlace_le; [assumption | | assumption].
      rewrite Rabs_mult, (Rabs_pos_eq (powerRZ 2 e)) by lra.
      rewrite Z.add_comm, powerRZ_add by lra.
      apply Rmult_lt_compat_r; [assumption |].
      rewrite powerRZ2_IZR by lia. rewrite <- abs_IZR. now apply IZR_lt. }
    apply Rle_antisym.
    + apply roundNearest_le; [lra | assumption].
    + apply roundNearest_ge; [lra | assumption].
Qed.

Lemma roundNearest_IZR (k : Z) :
  (Z.abs k < 2 ^ prec)%Z -> (emin - (prec - 1) <= 0)%Z ->
  roundNearest prec emin (IZR k) = IZR k.
Proof.
  intros Hk He. pose proof (roundNearest_dyadic k 0 Hk He) as H.
  simpl powerRZ in H. now rewrite Rmult_1_r in H.
Qed.

Lemma roundNearest_nonneg (x : R) : 0 <= x -> 0 <= roundNearest prec emin x.
Proof.
  intros Hx.
  pose proof (roundNearest_ge x 0 (lastPlace prec emin x)) as H.
  rewrite Rmult_0_l in H. apply H; [assumption | lia].
Qed.

Lemma roundNearest_nonpos (x : R) : x <= 0 -> roundNearest prec emin x <= 0.
Proof.
  intros Hx.
  pose proof (roundNearest_le x 0 (lastPlace prec emin x)) as H.
  rewrite Rmult_0_l in H. apply H; [assumption | lia].
Qed.

(** Rounding does not leave an interval bounded by a power of two. *)
Lemma roundNearest_le_pow2 (x : R) (n : Z) :
  (emin - (prec - 1) <= n)%Z -> x <= powerRZ 2 n ->
  roundNearest prec emin x <= powerRZ 2 n.
Proof.
  intros Hn Hx. pose proof (powerRZ2_pos n) as Hp.
  destruct (Rle_dec x 0) as [Hneg | Hpos].
  - pose proof (roundNearest_nonpos x Hneg). lra.
  - rewrite <- (Rmult_1_l (powerRZ 2 n)). apply roundNearest_le; [lra |].
    destruct Hx as [Hlt | Heq].
    + apply lastPlace_le; [lra | | assumption].
      rewrite Rabs_pos_eq by lra.
      assert (H : powerRZ 2 n <= powerRZ 2 (n + prec)) by (apply powerRZ2_le; lia).
      lra.
    + apply lastPlace_le; [lra | | assumption].
      rewrite Rabs_pos_eq by lra. rewrite Heq. apply powerRZ2_lt. lia.
Qed.

Lemma roundNearest_ge_pow2 (x : R) (n : Z) :
  (emin - (prec - 1) <= n)%Z -> powerRZ 2 n <= x ->
  powerRZ 2 n <= roundNearest prec emin x.
Proof.
  intros Hn Hx. pose proof (powerRZ2_pos n) as Hp.
  set (c := lastPlace prec emin x).
  destruct (Z.le_gt_cases c n) as [Hle | Hgt].
  - rewrite <- (Rmult_1_l (powerRZ 2 n)). apply roundNearest_ge; [lra | assumption].
  - assert (Hc : powerRZ 2 c <= x).
    { assert (Hfl : (c = Zfloor (Rlog2 (Rabs x)) - (prec - 1))%Z)
        by (unfold c, lastPlace in *; lia).
      assert (Hne : x <> 0) by lra.
      pose proof (binade_bounds x Hne) as [Hlo _].
      rewrite Rabs_pos_eq in Hlo by lra.
      assert (H : powerRZ 2 c <= powerRZ 2 (Zfloor (Rlog2 x)))
        by (apply powerRZ2_le; rewrite Rabs_pos_eq in Hfl by lra; lia).
      lra. }
    assert (Hr : powerRZ 2 c <= roundNearest prec emin x).
    { rewrite <- (Rmult_1_l (powerRZ 2 c)). apply roundNearest_ge; [lra | ].
      unfold c. lia. }
    assert (Hnc : powerRZ 2 n <= powerRZ 2 c) by (apply powerRZ2_le; lia).
    lra.
Qed.

Lemma roundNearest_opp_le_pow2 (x : R) (n : Z) :
  (emin - (prec - 1) <= n)%Z -> - powerRZ 2 n <= x ->
  - powerRZ 2 n <= roundNearest prec emin x.
Proof.
  intros Hn Hx. pose proof (powerRZ2_pos n) as Hp.
  destruct (Rle_dec 0 x) as [Hpos | Hneg].
  - pose proof (roundNearest_nonneg x Hpos). lra.
  - replace (- powerRZ 2 n) with (IZR (-1) * powerRZ 2 n) by lra.
    apply roundNearest_ge; [lra |].
    destruct Hx as [Hlt | Heq].
    + apply lastPlace_le; [lra | | assumption].
      rewrite Rabs_left by lra.
      assert (H : powerRZ 2 n <= powerRZ 2 (n + prec)) by (apply powerRZ2_le; lia).
      lra.
    + apply lastPlace_le; [lra | | assumption].
      rewrite Rabs_left by lra. rewrite <- Heq, Ropp_involutive.
      apply powerRZ2_lt. lia.
Qed.

Lemma roundNearest_abs_le_pow2 (x : R) (n : Z) :
  (emin - (prec - 1) <= n)%Z -> Rabs x <= powerRZ 2 n ->
  Rabs (roundNearest prec emin x) <= powerRZ 2 n.
Proof.
  intros Hn Hx. apply Rabs_le. apply Rabs_le_between in Hx.
  split; [apply roundNearest_opp_le_pow2 | apply roundNearest_le_pow2]; tauto || lra.
Qed.

(** The relative error of a rounding in the normal range. *)
Lemma roundNearest_relative (x : R) :
  powerRZ 2 emin <= Rabs x ->
  Rabs (roundNearest prec emin x - x) <= Rabs x * powerRZ 2 (- prec).
Proof.
  intros Hx. pose proof (roundNearest_error x) as Herr.
  pose proof (binade_above x emin Hx) as Hfl.
  assert (Hne : x <> 0).
  { intros ->. rewrite Rabs_R0 in Hx. pose proof (powerRZ2_pos emin). lra. }
  pose proof (binade_bounds x Hne) as [Hlo _].
  assert (Hc : lastPlace prec emin x = (Zfloor (Rlog2 (Rabs x)) + 1 + - prec)%Z)
    by (unfold lastPlace; lia).
  rewrite Hc in Herr. rewrite powerRZ_add in Herr by lra.
  rewrite powerRZ_add in Herr by lra. simpl (powerRZ 2 1) in Herr.
  pose proof (powerRZ2_pos (- prec)) as Hp.
  assert (H : powerRZ 2 (Zfloor (Rlog2 (Rabs x))) * powerRZ 2 (- prec)
              <= Rabs x * powerRZ 2 (- prec))
    by (apply Rmult_le_compat_r; lra).
  lra.
Qed.

End Format.

Lemma lastPlace_normal (prec emin : Z) (x : R) (n : Z) :
  (emin <= n)%Z -> powerRZ 2 n <= Rabs x < powerRZ 2 (n + 1) ->
  lastPlace prec emin x = (n - (prec - 1))%Z.
Proof.
  intros Hn [Hlo Hhi].
  pose proof (binade_above x n Hlo) as Ha.
  assert (Hne : x <> 0).
  { intros ->. rewrite Rabs_R0 in Hlo. pose proof (powerRZ2_pos n). lra. }
  pose proof (binade_below x (n + 1) Hne Hhi) as Hb.
  unfold lastPlace. lia.
Qed.

(** A real closer than half a last place to a number of the format rounds
    to it. *)
Lemma roundNearest_near (prec emin : Z) (x : R) (k : Z) :
  let e := lastPlace prec emin x in
  Rabs (x - IZR k * powerRZ 2 e) < powerRZ 2 e / 2 ->
  roundNearest prec emin x = IZR k * powerRZ 2 e.
Proof.
  intros e Hnear. unfold roundNearest. cbv zeta. fold e.
  pose proof (powerRZ2_pos e) as He. pose proof (powerRZ2_pos (- e)) as He'.
  pose proof (powerRZ2_cancel e) as Hc.
  pose proof (Znearest_even_bound (x * powerRZ 2 (- e))) as Hb.
  set (n := Znearest_even (x * powerRZ 2 (- e))) in *.
  assert (Hy : Rabs (x * powerRZ 2 (- e) - IZR k) < / 2).
  { replace (x * powerRZ 2 (- e) - IZR k)
      with ((x - IZR k * powerRZ 2 e) * powerRZ 2 (- e))
      by (rewrite Rmult_minus_distr_r, Rmult_assoc, (Rmult_comm (powerRZ 2 e)), Hc; lra).
    rewrite Rabs_mult, (Rabs_pos_eq (powerRZ 2 (- e))) by lra.
    apply Rmult_lt_compat_r with (r := powerRZ 2 (- e)) in Hnear; [| assumption].
    replace (powerRZ 2 e / 2 * powerRZ 2 (- e))
      with (powerRZ 2 (- e) * powerRZ 2 e / 2) in Hnear by lra.
    rewrite Hc in Hnear. lra. }
  apply Rabs_le_between in Hb. apply Rabs_def2 in Hy.
  assert (Hnk : n = k).
  { assert (H1 : IZR n < IZR (k + 1)) by (rewrite plus_IZR; lra).
    assert (H2 : IZR (k - 1) < IZR n) by (rewrite minus_IZR; lra).
    apply lt_IZR in H1, H2. lia. }
  now rewrite Hnk.
Qed.

(** ** Rounded operations on numbers *)

Lemma roundTo_Fin (prec emin emax : Z) (a : R) :
  Rabs (roundNearest prec emin a) < powerRZ 2 emax ->
  roundTo prec emin emax (Fin a) = Fin (roundNearest prec emin a).
Proof.
  intros H. unfold roundTo. cbv zeta.
  destruct (Rleb _ _) eqn:Hov; [| reflexivity].
  apply Rleb_true_iff in Hov. lra.
Qed.

Lemma roundTo_not_NaN (prec emin emax : Z) (x : num) :
  roundTo prec emin emax x = NaN -> x = NaN.
Proof.
  destruct x as [a | | |]; cbn [roundTo]; try easy.
  cbv zeta. destruct (Rleb _ _); [| discriminate].
  unfold inf_of_sign. destruct (Rlt_dec _ _); discriminate.
Qed.

Lemma roundTo_nonneg (prec emin emax : Z) (x : num) :
  nonneg x -> nonneg (roundTo prec emin emax x).
Proof.
  destruct x as [a | | |]; cbn [roundTo nonneg]; try easy.
  intros Ha. cbv zeta. pose proof (roundNearest_nonneg prec emin a Ha) as Hr.
  destruct (Rleb _ _) eqn:Hov; [| exact Hr].
  apply Rleb_true_iff in Hov. pose proof (powerRZ2_pos emax) as Hp.
  rewrite Rabs_pos_eq in Hov by assumption.
  unfold inf_of_sign. destruct (Rlt_dec _ _); [exact I | lra].
Qed.

Lemma binary64_Fin (a : R) (n : Z) :
  (-1074 <= n < 1024)%Z -> Rabs a <= powerRZ 2 n ->
  binary64 (Fin a) = Fin (roundNearest 53 (-1022) a)
  /\ Rabs (roundNearest 53 (-1022) a) <= powerRZ 2 n.
Proof.
  intros Hn Ha.
  pose proof (roundNearest_abs_le_pow2 53 (-1022) ltac:(lia) a n ltac:(lia) Ha) as Hr.
  split; [| exact Hr]. apply roundTo_Fin.
  assert (H : powerRZ 2 n < powerRZ 2 1024) by (apply powerRZ2_lt; lia). lra.
Qed.

Lemma binary64_IZR (k : Z) :
  (Z.abs k < 2 ^ 53)%Z -> binary64 (Fin (IZR k)) = Fin (IZR k).
Proof.
  intros Hk. unfold binary64.
  pose proof (roundNearest_IZR 53 (-1022) ltac:(lia) k Hk ltac:(lia)) as Hr.
  rewrite roundTo_Fin; rewrite Hr; [reflexivity |].
  rewrite <- abs_IZR.
  assert (H1 : IZR (Z.abs k) < IZR (2 ^ 53)) by now apply IZR_lt.
  rewrite <- powerRZ2_IZR in H1 by lia.
  assert (H2 : powerRZ 2 53 < powerRZ 2 1024) by (apply powerRZ2_lt; lia). lra.
Qed.

Lemma binary64_small (a : R) (n : Z) :
  (-1074 <= n < 1024)%Z -> Rabs a <= powerRZ 2 n ->
  binary64 (Fin a) = Fin (round64 a) /\ Rabs (round64 a) <= powerRZ 2 n.
Proof. apply binary64_Fin. Qed.

(** The error of a rounding, from the binade of the real. *)
Lemma round64_within (a : R) (n : Z) :
  (-1022 <= n)%Z -> powerRZ 2 n <= Rabs a < powerRZ 2 (n + 1) ->
  Rabs (round64 a - a) <= powerRZ 2 (n - 53).
Proof.
  intros Hn Ha. pose proof (roundNearest_error 53 (-1022) a) as Herr.
  rewrite (lastPlace_normal 53 (-1022) a n Hn Ha) in Herr.
  replace (n - (53 - 1))%Z with (n - 53 + 1)%Z in Herr by lia.
  rewrite powerRZ_add in Herr by lra. simpl (powerRZ 2 1) in Herr.
  unfold round64. lra.
Qed.

(** The same from a bound on the magnitude. *)
Lemma round64_error (a : R) (n : Z) :
  (-1022 <= n)%Z -> Rabs a < powerRZ 2 (n + 1) ->
  Rabs (round64 a - a) <= powerRZ 2 (n - 53).
Proof.
  intros Hn Ha. pose proof (roundNearest_error 53 (-1022) a) as Herr.
  destruct (Req_dec a 0) as [-> | Hne].
  - unfold round64. rewrite roundNearest_0. rewrite Rminus_0_r, Rabs_R0.
    left. apply powerRZ2_pos.
  - assert (Hlast : (lastPlace 53 (-1022) a <= n - 53 + 1)%Z).
    { apply lastPlace_le; [assumption | | lia].
      replace (n - 53 + 1 + 53)%Z with (n + 1)%Z by lia. assumption. }
    pose proof (powerRZ2_le _ _ Hlast) as Hp.
    rewrite powerRZ_add in Hp by lra. simpl (powerRZ 2 1) in Hp.
    unfold round64. lra.
Qed.

(** ** frequencyToNote in binary64 *)

Lemma Zfloor_binary64_div12 (m : Z) :
  (Z.abs m <= 2 ^ 40)%Z ->
  Zfloor (roundNearest 53 (-1022) (IZR m / 12)) = (m / 12)%Z.
Proof.
  intros Hm.
  pose proof (Z.div_mod m 12 ltac:(lia)) as Hdm.
  pose proof (Z.mod_pos_bound m 12 ltac:(lia)) as Hr.
  set (q := (m / 12)%Z) in *. set (r := (m mod 12)%Z) in *.
  assert (Hx : IZR m / 12 = IZR q + IZR r / 12).
  { rewrite Hdm, plus_IZR, mult_IZR. field. }
  destruct (Z.eq_dec r 0%Z) as [Hr0 | Hr0].
  - rewrite Hx, Hr0. replace (IZR q + 0 / 12) with (IZR q) by lra.
    rewrite roundNearest_IZR by lia. apply ZfloorZ.
  - assert (Hr1 : 1 <= IZR r <= 11) by (split; apply IZR_le; lia).
    assert (Hq : IZR (- 1099511627776) <= IZR q <= IZR 1099511627776)
      by (split; apply IZR_le; lia).
    assert (Hne : IZR m / 12 <> 0).
    { rewrite Hx. intros H0.
      assert (Hq' : IZR q = - (IZR r / 12)) by lra.
      assert (Hlt1 : -1 < IZR q < 0) by lra.
      destruct Hlt1 as [Ha Hb]. apply lt_IZR in Ha, Hb. lia. }
    assert (Hlast : (lastPlace 53 (-1022) (IZR m / 12) <= -12)%Z).
    { apply lastPlace_le; [assumption | | lia].
      assert (E : powerRZ 2 (-12 + 53) = 2199023255552)
        by (rewrite powerRZ2_IZR by lia; reflexivity).
      rewrite E, Hx. apply Rabs_def1; lra. }
    pose proof (roundNearest_error 53 (-1022) (IZR m / 12)) as Herr.
    pose proof (powerRZ2_le _ _ Hlast) as Hp. simpl (powerRZ 2 (-12)) in Hp.
    apply Rabs_le_between in Herr.
    apply Zfloor_eq. rewrite Hx in *. lra.
Qed.

Lemma Rround_bound_abs (v : R) (n : Z) :
  Rabs v <= IZR n -> (Z.abs (Rround v) <= n + 1)%Z.
Proof.
  intros Hv. apply Rabs_le_between in Hv.
  pose proof (Rround_bound v) as [Hlo Hhi].
  assert (H1 : IZR (Rround v) < IZR (n + 2)) by (rewrite plus_IZR; lra).
  assert (H2 : IZR (- n - 1) < IZR (Rround v))
    by (rewrite minus_IZR, opp_IZR; lra).
  apply lt_IZR in H1, H2. lia.
Qed.

Section Platform.

Variable Math_log2 : num -> num.

(** The record built from the number that the code hands to [Math.round]. *)
Lemma frequencyToNote_computed (freq v : R) :
  20 <= freq <= 5000 ->
  add64 (mul64 12 (Math_log2 (div64 freq 440))) 69 = Fin v ->
  Rabs v <= 549755813888 ->
  let midi := Rround v in
  Float.frequencyToNote Math_log2 freq =
    Some (mkNoteInfo (zindex NOTE_NAMES (Z.rem (Z.rem midi 12 + 12) 12))
                     (IZR midi)
                     (IZR (midi / 12 - 1))).
Proof.
  intros [Hlo Hhi] Hv Hsize midi. unfold Float.frequencyToNote.
  assert (Hg1 : nlt freq 20 = false) by (apply nlt_Fin_false; lra).
  assert (Hg2 : ngt freq 5000 = false) by (apply nlt_Fin_false; lra).
  rewrite Hg1, Hg2. simpl orb. cbv iota. rewrite Hv. cbn [nround]. fold midi.
  assert (Hmidi : (Z.abs midi <= 549755813888 + 1)%Z)
    by now apply Rround_bound_abs.
  rewrite nrem_IZR_12.
  assert (Hrem : (Z.abs (Z.rem midi 12) < 12)%Z)
    by (apply Z.rem_bound_abs; lia).
  unfold add64 at 1. cbn [nadd].
  replace (IZR (Z.rem midi 12) + 12) with (IZR (Z.rem midi 12 + 12))
    by (now rewrite plus_IZR).
  rewrite binary64_IZR by lia.
  rewrite nrem_IZR_12, index_IZR.
  unfold div64. rewrite ndiv_Fin by lra.
  destruct (binary64_Fin (IZR midi / 12) 40 ltac:(lia)) as [Hq _].
  { assert (E : powerRZ 2 40 = 1099511627776)
      by (rewrite powerRZ2_IZR by lia; reflexivity).
    rewrite E. assert (H : Rabs (IZR midi) <= IZR (549755813888 + 1)).
    { rewrite <- abs_IZR. now apply IZR_le. }
    rewrite plus_IZR in H.
    apply Rabs_le_between in H. apply Rabs_le. lra. }
  rewrite Hq. cbn [nfloor]. rewrite Zfloor_binary64_div12 by lia.
  unfold sub64. cbn [nsub nneg nadd].
  replace (IZR (midi / 12) + Ropp 1) with (IZR (midi / 12 - 1))
    by (rewrite minus_IZR; lra).
  rewrite binary64_IZR; [reflexivity |].
  pose proof (Z.div_mod midi 12 ltac:(lia)).
  pose proof (Z.mod_pos_bound midi 12 ltac:(lia)). lia.
Qed.

End Platform.

(** The number handed to [Math.round], from the value [l] of [Math.log2]. *)
Lemma computed_note_number (l : R) :
  Rabs l <= 1100 ->
  add64 (mul64 12 (Fin l)) 69 = Fin (round64 (round64 (12 * l) + 69))
  /\ Rabs (round64 (round64 (12 * l) + 69)) <= 32768.
Proof.
  intros Hl. apply Rabs_le_between in Hl.
  assert (E14 : powerRZ 2 14 = 16384) by (rewrite powerRZ2_IZR by lia; reflexivity).
  assert (E15 : powerRZ 2 15 = 32768) by (rewrite powerRZ2_IZR by lia; reflexivity).
  destruct (binary64_small (12 * l) 14 ltac:(lia)) as [H1 B1].
  { rewrite E14. apply Rabs_le. lra. }
  rewrite E14 in B1. apply Rabs_le_between in B1.
  destruct (binary64_small (round64 (12 * l) + 69) 15 ltac:(lia)) as [H2 B2].
  { rewrite E15. apply Rabs_le. lra. }
  rewrite E15 in B2.
  unfold add64, mul64. cbn [nmul]. rewrite H1. cbn [nadd]. rewrite H2.
  now split.
Qed.

Lemma binary64_quotient (freq : R) :
  20 <= freq <= 5000 -> div64 freq 440 = Fin (round64 (freq / 440)).
Proof.
  intros Hf. unfold div64. rewrite ndiv_Fin by lra.
  assert (E4 : powerRZ 2 4 = 16) by (rewrite powerRZ2_IZR by lia; reflexivity).
  apply (binary64_small (freq / 440) 4 ltac:(lia)).
  rewrite E4. apply Rabs_le. split.
  - apply Rle_trans with 0; [lra |]. apply Rmult_le_pos; lra.
  - apply Rmult_le_reg_r with 440; [lra |]. unfold Rdiv.
    rewrite Rmult_assoc, Rinv_l by lra. lra.
Qed.

(** ** The computed note number against the real one *)

Lemma ln_le_compat (x y : R) : 0 < x -> x <= y -> ln x <= ln y.
Proof.
  intros Hx [Hlt | ->]; [left; now apply ln_increasing | right; reflexivity].
Qed.

Lemma ln_near_1 (u : R) : Rabs u <= / 2 -> Rabs (ln (1 + u)) <= 2 * Rabs u.
Proof.
  intros Hu. apply Rabs_le_between in Hu.
  assert (Hup : ln (1 + u) <= u).
  { rewrite <- (ln_exp u) at 2. apply ln_le_compat; [lra | apply exp_ineq1_le]. }
  destruct (Rle_dec 0 u) as [Hpos | Hneg].
  - assert (Hlo : 0 <= ln (1 + u)).
    { rewrite <- ln_1. apply ln_le_compat; lra. }
    rewrite (Rabs_pos_eq u) by assumption. apply Rabs_le. lra.
  - assert (Hlo : 2 * u <= ln (1 + u)).
    { rewrite <- (ln_exp (2 * u)). apply ln_le_compat; [apply exp_pos |].
      replace (2 * u) with (- (- 2 * u)) by lra. rewrite exp_Ropp.
      pose proof (exp_ineq1_le (- 2 * u)) as He.
      assert (Hden : 0 < 1 + - 2 * u) by lra.
      apply Rle_trans with (/ (1 + - 2 * u)).
      - apply Rinv_le_contravar; lra.
      - apply Rmult_le_reg_r with (1 + - 2 * u); [assumption |].
        rewrite Rinv_l by lra. nra. }
    rewrite (Rabs_left u) by lra. apply Rabs_le. lra.
Qed.

Lemma Rlog2_relative (x r : R) :
  0 < x -> Rabs (r - x) <= x * / 9007199254740992 ->
  0 < r /\ Rabs (Rlog2 r - Rlog2 x) <= / 2251799813685248.
Proof.
  intros Hx Hr. apply Rabs_le_between in Hr.
  assert (Hrpos : 0 < r) by nra. split; [exact Hrpos |].
  set (u := (r - x) / x).
  assert (Hu : Rabs u <= / 9007199254740992).
  { unfold u. apply Rabs_le. split.
    - apply Rmult_le_reg_r with x; [assumption |]. unfold Rdiv.
      rewrite Rmult_assoc, Rinv_l by lra. nra.
    - apply Rmult_le_reg_r with x; [assumption |]. unfold Rdiv.
      rewrite Rmult_assoc, Rinv_l by lra. nra. }
  assert (Hln : Rlog2 r - Rlog2 x = ln (1 + u) / ln 2).
  { rewrite <- Rlog2_div by assumption. unfold Rlog2. f_equal. f_equal.
    unfold u. field. lra. }
  rewrite Hln.
  pose proof (ln_near_1 u ltac:(lra)) as Hb.
  pose proof ln_lt_2 as H2. unfold Rdiv. rewrite Rabs_mult.
  rewrite (Rabs_pos_eq (/ ln 2)) by (left; apply Rinv_0_lt_compat; lra).
  assert (Hinv : / ln 2 <= 2).
  { apply Rle_trans with (/ (/ 2)); [apply Rinv_le_contravar; lra |].
    rewrite Rinv_inv. lra. }
  pose proof (Rabs_pos (ln (1 + u))) as Hnn.
  apply Rle_trans with (2 * Rabs u * 2); [| lra].
  apply Rmult_le_compat; try lra.
  left. apply Rinv_0_lt_compat. lra.
Qed.

Lemma Rlog2_powerRZ (n : Z) : Rlog2 (powerRZ 2 n) = IZR n.
Proof. rewrite powerRZ2_Rpower. apply Rlog2_pow2. Qed.

(** The number handed to [Math.round] against the real 12 log2(freq/440) + 69,
    when [Math.log2] is accurate to 2^-40 at the quotient. *)
Lemma computed_note_near (freq l : R) :
  20 <= freq <= 5000 ->
  Rabs (l - Rlog2 (round64 (freq / 440))) <= / 1099511627776 ->
  Rabs l <= 1100
  /\ Rabs (round64 (round64 (12 * l) + 69) - (12 * Rlog2 (freq / 440) + 69))
     <= / 10000000000.
Proof.
  intros Hf Hacc.
  set (x := freq / 440) in *.
  assert (Hx : / 32 <= x <= 16).
  { unfold x. split.
    - apply Rmult_le_reg_r with 440; [lra |]. unfold Rdiv.
      rewrite Rmult_assoc, Rinv_l by lra. lra.
    - apply Rmult_le_reg_r with 440; [lra |]. unfold Rdiv.
      rewrite Rmult_assoc, Rinv_l by lra. lra. }
  assert (Hrel : Rabs (round64 x - x) <= x * / 9007199254740992).
  { pose proof (roundNearest_relative 53 (-1022) x) as H.
    assert (Em53 : powerRZ 2 (- (53)) = / 9007199254740992).
    { rewrite powerRZ_neg'. rewrite powerRZ2_IZR by lia. reflexivity. }
    rewrite Em53, Rabs_pos_eq in H by lra. apply H.
    apply Rle_trans with (powerRZ 2 (-5)); [apply powerRZ2_le; lia |].
    simpl powerRZ. lra. }
  destruct (Rlog2_relative x (round64 x) ltac:(lra) Hrel) as [Hrpos Hlogr].
  assert (Hlx : -5 <= Rlog2 x <= 4).
  { split.
    - change (-5) with (IZR (-5)). rewrite <- Rlog2_powerRZ.
      apply Rlog2_le; [apply powerRZ2_pos |]. simpl powerRZ. lra.
    - change 4 with (IZR 4). rewrite <- Rlog2_powerRZ.
      apply Rlog2_le; [lra |]. simpl powerRZ. lra. }
  apply Rabs_le_between in Hacc, Hlogr.
  assert (Hl : Rabs l <= 1100) by (apply Rabs_le; lra).
  split; [exact Hl |].
  set (a := round64 (12 * l)). set (v := round64 (a + 69)).
  assert (Ha : Rabs (a - 12 * l) <= / 140737488355328).
  { assert (Em47 : powerRZ 2 (6 - 53) = / 140737488355328).
    { replace (6 - 53)%Z with (- (47))%Z by lia. rewrite powerRZ_neg'.
      rewrite powerRZ2_IZR by lia. reflexivity. }
    rewrite <- Em47. apply round64_error; [lia |].
    simpl powerRZ. apply Rabs_def1; lra. }
  apply Rabs_le_between in Ha.
  assert (Hb : Rabs (v - (a + 69)) <= / 70368744177664).
  { assert (Em46 : powerRZ 2 (7 - 53) = / 70368744177664).
    { replace (7 - 53)%Z with (- (46))%Z by lia. rewrite powerRZ_neg'.
      rewrite powerRZ2_IZR by lia. reflexivity. }
    rewrite <- Em46. apply round64_error; [lia |].
    simpl powerRZ. apply Rabs_def1; lra. }
  apply Rabs_le_between in Hb. apply Rabs_le. lra.
Qed.

(** Rounding to the nearest integer is stable away from the half-integers. *)
Lemma Rround_stable (v w eps : R) :
  Rabs (w - v) <= eps ->
  (forall k : Z, eps < Rabs (v - (IZR k + / 2))) ->
  Rround w = Rround v.
Proof.
  intros Hw Haway. apply Rabs_le_between in Hw.
  pose proof (Rround_bound v) as [Hlo Hhi].
  set (r := Rround v) in *.
  pose proof (Haway r) as H1. pose proof (Haway (r - 1)%Z) as H2.
  rewrite minus_IZR in H2.
  rewrite Rabs_left in H1 by lra.
  destruct (Req_dec v (IZR r - / 2)) as [Heq | Hne].
  - rewrite Heq in H2. replace (IZR r - / 2 - (IZR r - 1 + / 2)) with 0 in H2 by lra.
    rewrite Rabs_R0 in H2. lra.
  - rewrite Rabs_pos_eq in H2 by lra.
    unfold Rround. apply Zfloor_eq. lra.
Qed.

(** The record in terms of the value [l] that [Math.log2] returns. *)
Lemma frequencyToNote_of_logarithm (Math_log2 : num -> num) (freq l : R) :
  20 <= freq <= 5000 ->
  Math_log2 (Fin (round64 (freq / 440))) = Fin l -> Rabs l <= 1100 ->
  let midi := Rround (round64 (round64 (12 * l) + 69)) in
  Float.frequencyToNote Math_log2 freq =
    Some (mkNoteInfo (zindex NOTE_NAMES (Z.rem (Z.rem midi 12 + 12) 12))
                     (IZR midi)
                     (IZR (midi / 12 - 1))).
Proof.
  intros Hrange Hlog Hl midi.
  destruct (computed_note_number l Hl) as [Hv Hsize].
  apply frequencyToNote_computed; [lra | | lra].
  rewrite binary64_quotient by lra. now rewrite Hlog.
Qed.

(** C1 (amended): for 20 < freq < 5000, with [l] the value of [Math.log2]
    at the binary64 quotient freq/440 (any finite value of magnitude up to
    1100, as a logarithm of a binary64 number is), the result is a record
    with midiNote = round(12 l + 69), the product and the sum rounded to
    binary64 and the final rounding to the nearest integer with ties going
    up, note = NOTE_NAMES[((midiNote mod 12) + 12) mod 12] (an entry of the
    chromatic table) and octave = floor(midiNote / 12) - 1.  When
    [Math.log2] is accurate to 2^-40 there, midiNote is within 1/2 + 10^-10
    of the real 12 log2(freq/440) + 69, and it is round(12 log2(freq/440) +
    69) as soon as that real is not within 10^-10 of the middle between two
    integers. *)
Theorem frequencyToNote_binary64 (Math_log2 : num -> num) (freq l : R) :
  20 < freq < 5000 ->
  Math_log2 (Fin (round64 (freq / 440))) = Fin l -> Rabs l <= 1100 ->
  let midiNote := Rround (round64 (round64 (12 * l) + 69)) in
  let noteIndex := (((midiNote mod 12) + 12) mod 12)%Z in
  let exact := 12 * Rlog2 (freq / 440) + 69 in
  NOTE_NAMES =
    ["C"; "C#"; "D"; "D#"; "E"; "F"; "F#"; "G"; "G#"; "A"; "A#"; "B"]%string
  /\ is_Some (NOTE_NAMES !! Z.to_nat noteIndex)
  /\ Float.frequencyToNote Math_log2 freq =
       Some (mkNoteInfo (NOTE_NAMES !! Z.to_nat noteIndex)
                        (IZR midiNote)
                        (IZR (midiNote / 12 - 1)))
  /\ (Rabs (l - Rlog2 (round64 (freq / 440))) <= / 1099511627776 ->
      Rabs (exact - IZR midiNote) <= / 2 + / 10000000000
      /\ ((forall k : Z, / 10000000000 < Rabs (exact - (IZR k + / 2))) ->
          midiNote = Rround exact)).
Proof.
  intros Hrange Hlog Hl midiNote noteIndex exact.
  assert (Hidx : noteIndex = (midiNote mod 12)%Z).
  { unfold noteIndex.
    rewrite <- (Z.mul_1_l 12) at 2. rewrite Z.mod_add by lia.
    apply Z.mod_mod. lia. }
  destruct (zindex_NOTE_NAMES_mod midiNote) as [Hz Hsome].
  split; [reflexivity |]. rewrite Hidx. split; [exact Hsome |]. split.
  - rewrite <- Hz, <- rem_guard_mod.
    apply frequencyToNote_of_logarithm; [lra | assumption | assumption].
  - intros Hacc.
    destruct (computed_note_near freq l ltac:(lra) Hacc) as [_ Hnear].
    fold exact in Hnear. split.
    + pose proof (Rround_bound (round64 (round64 (12 * l) + 69))) as Hb.
      fold midiNote in Hb. apply Rabs_le_between in Hnear. apply Rabs_le. lra.
    + intros Haway. apply (Rround_stable exact _ (/ 10000000000)); assumption.
Qed.

Lemma frequencyToNote_binary64_witness :
  Float.frequencyToNote (fun x => binary64 (nlog2 x)) 440
  = Some (mkNoteInfo (Some "A"%string) 69 4).
Proof.
  assert (Hone : round64 (440 / 440) = 1).
  { replace (440 / 440) with (IZR 1) by lra.
    apply roundNearest_IZR; lia. }
  assert (Hlog : (fun x => binary64 (nlog2 x)) (Fin (round64 (440 / 440))) = Fin 0).
  { cbv beta. rewrite Hone, nlog2_Fin by lra. rewrite Rlog2_1.
    apply (binary64_IZR 0). lia. }
  destruct (frequencyToNote_binary64 (fun x => binary64 (nlog2 x)) 440 0
              ltac:(lra) Hlog ltac:(rewrite Rabs_R0; lra)) as (_ & _ & Hres & _).
  rewrite Hres.
  assert (Hm : Rround (round64 (round64 (12 * 0) + 69)) = 69%Z).
  { replace (12 * 0) with (IZR 0) by lra.
    unfold round64. rewrite roundNearest_IZR by lia.
    replace (IZR 0 + 69) with (IZR 69) by lra.
    rewrite roundNearest_IZR by lia. apply Rround_IZR. }
  rewrite Hm. reflexivity.
Defined.

(** ** The boundary between two notes *)

(** At the boundary between two notes the rounded sum decides: when
    [Math.log2] returns a value within 2^-51 of 1/24 (a quarter tone above
    A4), the binary64 sum is exactly 69.5 and the note is A#4, MIDI 70, also
    where the logarithm is a little under 1/24. *)
Lemma frequencyToNote_quarter_tone (Math_log2 : num -> num) (freq l : R) :
  20 <= freq <= 5000 ->
  Math_log2 (Fin (round64 (freq / 440))) = Fin l ->
  Rabs (l - / 24) <= / 2251799813685248 ->
  Float.frequencyToNote Math_log2 freq
  = Some (mkNoteInfo (Some "A#"%string) 70 4).
Proof.
  intros Hrange Hlog Hl.
  apply Rabs_le_between in Hl.
  assert (Hl' : Rabs l <= 1100) by (apply Rabs_le; lra).
  rewrite (frequencyToNote_of_logarithm Math_log2 freq l Hrange Hlog Hl').
  assert (Hsum : round64 (round64 (12 * l) + 69) = 69.5).
  { assert (H1 : Rabs (round64 (12 * l) - 12 * l) <= / 18014398509481984).
    { pose proof (roundNearest_error 53 (-1022) (12 * l)) as Herr.
      assert (Hlast : (lastPlace 53 (-1022) (12 * l) <= -53)%Z).
      { apply lastPlace_le; [lra | | lia]. simpl powerRZ.
        apply Rabs_def1; lra. }
      pose proof (powerRZ2_le _ _ Hlast) as Hp.
      assert (E53 : powerRZ 2 (-53) = / 9007199254740992).
      { replace (-53)%Z with (- (53))%Z by lia. rewrite powerRZ_neg'.
        rewrite powerRZ2_IZR by lia. reflexivity. }
      unfold round64. lra. }
    apply Rabs_le_between in H1.
    set (x := round64 (12 * l) + 69).
    assert (Hx : 69.5 - / 140737488355328 < x < 69.5 + / 140737488355328)
      by (unfold x; lra).
    assert (Hlast : lastPlace 53 (-1022) x = (-46)%Z).
    { rewrite (lastPlace_normal 53 (-1022) x 6); [reflexivity | lia |].
      simpl powerRZ. rewrite Rabs_pos_eq by lra. lra. }
    assert (E46 : powerRZ 2 (-46) = / 70368744177664).
    { replace (-46)%Z with (- (46))%Z by lia. rewrite powerRZ_neg'.
      rewrite powerRZ2_IZR by lia. reflexivity. }
    pose proof (roundNearest_near 53 (-1022) x 4890627720347648) as Hnear.
    cbv zeta in Hnear. rewrite Hlast, E46 in Hnear.
    unfold round64. rewrite Hnear; [lra |].
    apply Rabs_def1; lra. }
  rewrite Hsum.
  assert (Hm : Rround 69.5 = 70%Z).
  { unfold Rround. apply Zfloor_eq. lra. }
  rewrite Hm. reflexivity.
Qed.

(** Bounds on a logarithm from the 24th power. *)
Lemma Rlog2_below_24th (x : R) : 0 < x -> x ^ 24 < 2 -> Rlog2 x < / 24.
Proof.
  intros Hx Hp. pose proof ln_lt_2 as H2.
  assert (Hln : ln (x ^ 24) < ln 2).
  { apply ln_increasing; [apply pow_lt; assumption | assumption]. }
  rewrite ln_pow in Hln by assumption.
  replace (INR 24) with 24 in Hln by (simpl; lra).
  unfold Rlog2. apply Rmult_lt_reg_r with (ln 2); [lra |].
  unfold Rdiv. rewrite Rmult_assoc, Rinv_l by lra. lra.
Qed.

Lemma Rlog2_above_24th (x d : R) :
  0 < x -> 0 <= d -> 2 <= x ^ 24 * (1 + 12 * d) -> / 24 - d <= Rlog2 x.
Proof.
  intros Hx Hd Hp. pose proof ln_lt_2 as H2.
  assert (Hpow : 0 < x ^ 24) by (apply pow_lt; assumption).
  assert (Hln : ln 2 <= ln (x ^ 24 * (1 + 12 * d))).
  { destruct Hp as [Hlt | <-]; [left; apply ln_increasing; lra | right; reflexivity]. }
  rewrite ln_mult in Hln by lra. rewrite ln_pow in Hln by assumption.
  replace (INR 24) with 24 in Hln by (simpl; lra).
  assert (Hu : ln (1 + 12 * d) <= 12 * d).
  { rewrite <- (ln_exp (12 * d)) at 2.
    pose proof (exp_ineq1_le (12 * d)) as He.
    destruct He as [Hlt | <-]; [left; apply ln_increasing; lra | right; reflexivity]. }
  unfold Rlog2. apply Rmult_le_reg_r with (ln 2); [lra |].
  unfold Rdiv. rewrite Rmult_assoc, Rinv_l by lra. nra.
Qed.

Lemma pow24_quotient (a b : Z) :
  (0 < b)%Z -> (IZR a / IZR b) ^ 24 * IZR (b ^ 24) = IZR (a ^ 24).
Proof.
  intros Hb. assert (Hb' : 0 < IZR b) by now apply IZR_lt.
  change 24%Z with (Z.of_nat 24). rewrite <- !pow_IZR.
  rewrite <- Rpow_mult_distr. f_equal. field. lra.
Qed.

(** The input 452.89298412313644 Hz, a binary64 number a little under a
    quarter tone above A4, and its binary64 quotient by 440. *)
Lemma quarter_tone_exact :
  let freq := 3983688817452479 / 8796093022208 in
  452.89298412313643 < freq < 452.89298412313645
  /\ 0 <= Rlog2 (freq / 440) < / 24.
Proof.
  cbv zeta. split; [lra |].
  replace (3983688817452479 / 8796093022208 / 440)
    with (IZR 3983688817452479 / IZR 3870280929771520) by lra.
  set (x := IZR 3983688817452479 / IZR 3870280929771520).
  assert (Hx : 1 <= x) by (unfold x; lra).
  split.
  - rewrite <- Rlog2_1. apply Rlog2_le; lra.
  - apply Rlog2_below_24th; [lra |].
    pose proof (pow24_quotient 3983688817452479 3870280929771520 ltac:(lia)) as Hq.
    fold x in Hq.
    assert (Hlt : IZR (3983688817452479 ^ 24) < 2 * IZR (3870280929771520 ^ 24)).
    { rewrite <- mult_IZR. apply IZR_lt. reflexivity. }
    assert (Hpos : 0 < IZR (3870280929771520 ^ 24)) by (apply IZR_lt; reflexivity).
    rewrite <- Hq in Hlt. nra.
Qed.

Lemma quarter_tone_quotient :
  round64 (3983688817452479 / 8796093022208 / 440)
  = 289722823087453 / 281474976710656.
Proof.
  set (x := 3983688817452479 / 8796093022208 / 440).
  assert (Hx : 1 <= x < 2) by (unfold x; lra).
  assert (Hlast : lastPlace 53 (-1022) x = (-52)%Z).
  { rewrite (lastPlace_normal 53 (-1022) x 0); [reflexivity | lia |].
    simpl powerRZ. rewrite Rabs_pos_eq by lra. lra. }
  assert (E52 : powerRZ 2 (-52) = / 4503599627370496).
  { replace (-52)%Z with (- (52))%Z by lia. rewrite powerRZ_neg'.
    rewrite powerRZ2_IZR by lia. reflexivity. }
  pose proof (roundNearest_near 53 (-1022) x 4635565169399248) as Hnear.
  cbv zeta in Hnear. rewrite Hlast, E52 in Hnear.
  unfold round64. rewrite Hnear; [lra |].
  unfold x. apply Rabs_def1; lra.
Qed.

Lemma quarter_tone_logarithm :
  let q := 289722823087453 / 281474976710656 in
  / 24 - 127 / 288230376151711744 <= Rlog2 q < / 24.
Proof.
  cbv zeta.
  replace (289722823087453 / 281474976710656)
    with (IZR 289722823087453 / IZR 281474976710656) by lra.
  set (q := IZR 289722823087453 / IZR 281474976710656).
  assert (Hq : 1 <= q) by (unfold q; lra).
  pose proof (pow24_quotient 289722823087453 281474976710656 ltac:(lia)) as Hp.
  fold q in Hp.
  assert (Hpos : 0 < IZR (281474976710656 ^ 24)) by (apply IZR_lt; reflexivity).
  split.
  - apply Rlog2_above_24th; [lra | lra |].
    assert (Hge : 2 * IZR (281474976710656 ^ 24) * IZR 72057594037927936
                  <= IZR (289722823087453 ^ 24) * IZR 72057594037928317).
    { rewrite <- !mult_IZR. apply IZR_le. apply Z.leb_le. reflexivity. }
    rewrite <- Hp in Hge.
    replace (1 + 12 * (127 / 288230376151711744))
      with (IZR 72057594037928317 / IZR 72057594037927936) by lra.
    apply Rmult_le_reg_r with (IZR (281474976710656 ^ 24) * IZR 72057594037927936).
    + apply Rmult_lt_0_compat; lra.
    + replace (q ^ 24 * (IZR 72057594037928317 / IZR 72057594037927936)
               * (IZR (281474976710656 ^ 24) * IZR 72057594037927936))
        with (q ^ 24 * IZR (281474976710656 ^ 24) * IZR 72057594037928317)
        by (field; lra).
      lra.
  - apply Rlog2_below_24th; [lra |].
    assert (Hlt : IZR (289722823087453 ^ 24) < 2 * IZR (281474976710656 ^ 24)).
    { rewrite <- mult_IZR. apply IZR_lt. reflexivity. }
    rewrite <- Hp in Hlt. nra.
Qed.

(** The code on this input: with a logarithm accurate to 2^-58, half a
    last place of the correctly rounded one, the note is A#4. *)
Lemma frequencyToNote_quarter_tone_input (Math_log2 : num -> num) (l : R) :
  let freq := 3983688817452479 / 8796093022208 in
  Math_log2 (Fin (289722823087453 / 281474976710656)) = Fin l ->
  Rabs (l - Rlog2 (289722823087453 / 281474976710656))
    <= / 288230376151711744 ->
  Float.frequencyToNote Math_log2 freq
  = Some (mkNoteInfo (Some "A#"%string) 70 4).
Proof.
  intros freq Hlog Hacc. pose proof quarter_tone_logarithm as Hq.
  cbv zeta in Hq. apply Rabs_le_between in Hacc.
  apply (frequencyToNote_quarter_tone Math_log2 freq l).
  - unfold freq. lra.
  - unfold freq. rewrite quarter_tone_quotient. exact Hlog.
  - apply Rabs_le. lra.
Qed.

(** C1, as stated, fails at 452.89298412313644 Hz: the real
    12 log2(freq/440) + 69 is under 69.5 and rounds to 69 (A4), while the
    code, whose rounded sum is exactly 69.5, returns 70 (A#4), with the
    correctly rounded [Math.log2] and with every other one that is accurate
    to 2^-58 there. *)
Lemma frequencyToNote_quarter_tone_diverges :
  let freq := 3983688817452479 / 8796093022208 in
  let q := 289722823087453 / 281474976710656 in
  20 < freq < 5000
  /\ Rround (12 * Rlog2 (freq / 440) + 69) = 69%Z
  /\ frequencyToNote freq = Some (mkNoteInfo (Some "A"%string) 69 4)
  /\ round64 (freq / 440) = q
  /\ Float.frequencyToNote (fun x => binary64 (nlog2 x)) freq
     = Some (mkNoteInfo (Some "A#"%string) 70 4)
  /\ (forall (Math_log2 : num -> num) (l : R),
        Math_log2 (Fin q) = Fin l ->
        Rabs (l - Rlog2 q) <= / 288230376151711744 ->
        Float.frequencyToNote Math_log2 freq
        = Some (mkNoteInfo (Some "A#"%string) 70 4)).
Proof.
  intros freq q.
  destruct quarter_tone_exact as [Hfreq Hlog]. fold freq in Hfreq, Hlog.
  assert (Hround : Rround (12 * Rlog2 (freq / 440) + 69) = 69%Z).
  { unfold Rround. apply Zfloor_eq. lra. }
  split; [lra |]. split; [exact Hround |]. split.
  { rewrite frequencyToNote_accepted by lra. rewrite Hround. reflexivity. }
  split; [apply quarter_tone_quotient |]. split.
  - pose proof quarter_tone_logarithm as Hq. cbv zeta in Hq. fold q in Hq.
    apply (frequencyToNote_quarter_tone_input (fun x => binary64 (nlog2 x))
             (round64 (Rlog2 q))).
    + cbv beta. fold q. rewrite nlog2_Fin by (unfold q; lra).
      apply (binary64_small (Rlog2 q) 0 ltac:(lia)).
      simpl powerRZ. apply Rabs_le. lra.
    + fold q.
      assert (E58 : powerRZ 2 (-5 - 53) = / 288230376151711744).
      { replace (-5 - 53)%Z with (- (58))%Z by lia. rewrite powerRZ_neg'.
        rewrite powerRZ2_IZR by lia. reflexivity. }
      rewrite <- E58. apply round64_within; [lia |].
      simpl powerRZ. rewrite Rabs_pos_eq by lra. lra.
  - intros Math_log2 l Hl Hacc.
    now apply (frequencyToNote_quarter_tone_input Math_log2 l).
Qed.

(** ** The YIN estimator in binary64 *)

Lemma forLoop_invariant {S : Type} (P : S -> Prop) (start stop : nat)
    (body : nat -> S -> S) (s : S) :
  P s -> (forall i s', (start <= i < stop)%nat -> P s' -> P (body i s')) ->
  P (forLoop start stop body s).
Proof.
  intros Hs Hbody. induction stop as [| stop IH].
  - now rewrite forLoop_empty by lia.
  - destruct (le_lt_dec start stop) as [Hle | Hlt].
    + rewrite forLoop_snoc by assumption. apply Hbody; [lia |].
      apply IH. intros i s' Hi. apply Hbody. lia.
    + now rewrite forLoop_empty by lia.
Qed.

Lemma nadd_nonneg (x y : num) : nonneg x -> nonneg y -> nonneg (nadd x y).
Proof. destruct x, y; cbn [nonneg nadd]; try easy. lra. Qed.

Lemma nmul_square_nonneg (x : num) : x <> NaN -> nonneg (nmul x x).
Proof.
  destruct x as [a | | |]; cbn [nonneg nmul]; try easy. intros _. nra.
Qed.

Lemma binary64_nonneg (x : num) : nonneg x -> nonneg (binary64 x).
Proof. apply roundTo_nonneg. Qed.

Lemma binary64_of_Fin_not_NaN (a : R) : binary64 (Fin a) <> NaN.
Proof. intros H. apply roundTo_not_NaN in H. discriminate. Qed.

Lemma differenceAt_nonneg (buffer : list R) (tau : nat) :
  (tau <= halfBufferOf buffer)%nat ->
  nonneg (Float.differenceAt buffer (halfBufferOf buffer) tau).
Proof.
  intros Htau. pose proof (halfBuffer_double buffer) as Hdbl.
  unfold Float.differenceAt. apply forLoop_invariant.
  - cbn [nonneg]. lra.
  - intros i delta Hi Hdelta. cbv zeta.
    rewrite !sample_in_bounds by lia.
    unfold add64, mul64, sub64. cbn [nsub nneg nadd].
    apply binary64_nonneg, nadd_nonneg; [assumption |].
    apply binary64_nonneg, nmul_square_nonneg, binary64_of_Fin_not_NaN.
Qed.

Lemma runningSumAt_nonneg (buffer : list R) (tau : nat) :
  (tau <= halfBufferOf buffer)%nat -> nonneg (Float.runningSumAt buffer tau).
Proof.
  induction tau as [| tau IH]; intros Htau; cbn [Float.runningSumAt].
  - cbn [nonneg]. lra.
  - unfold add64. apply binary64_nonneg, nadd_nonneg.
    + apply IH. lia.
    + now apply differenceAt_nonneg.
Qed.

Lemma ndiv_nonneg (x y : num) : nonneg x -> nonneg y -> nanOrNonneg (ndiv x y).
Proof.
  destruct x as [a | | |], y as [b | | |]; cbn [nonneg ndiv]; try easy;
    intros Ha Hb.
  - destruct (Req_dec_T b 0) as [-> | Hb0].
    + destruct (Req_dec_T a 0); [now left | right].
      unfold inf_of_sign. destruct (Rlt_dec 0 a); [exact I | lra].
    + right. cbn [nonneg]. apply Rmult_le_pos; [assumption |].
      left. apply Rinv_0_lt_compat. lra.
  - right. cbn [nonneg]. lra.
  - right. destruct (Rlt_dec b 0); [lra | exact I].
  - now left.
Qed.

Lemma roundTo_nanOrNonneg (prec emin emax : Z) (x : num) :
  nanOrNonneg x -> nanOrNonneg (roundTo prec emin emax x).
Proof.
  intros [-> | H]; [now left | right]. now apply roundTo_nonneg.
Qed.

(** The stored d': NaN, or a number that is not negative. *)
Lemma dPrime_nanOrNonneg (buffer : list R) (tau : nat) :
  (1 <= tau <= halfBufferOf buffer)%nat -> nanOrNonneg (Float.dPrime buffer tau).
Proof.
  intros Htau. unfold Float.dPrime, div64.
  apply roundTo_nanOrNonneg, roundTo_nanOrNonneg, ndiv_nonneg.
  - pose proof (differenceAt_nonneg buffer tau ltac:(lia)) as Hd.
    unfold mul64. apply binary64_nonneg.
    assert (Hpos : 0 < INR tau) by (apply lt_0_INR; lia).
    destruct (Float.differenceAt buffer (halfBufferOf buffer) tau) as [a | | |];
      cbn [nonneg nmul] in *; try easy.
    + apply Rmult_le_pos; lra.
    + destruct (Req_dec_T (INR tau) 0); [lra |].
      unfold inf_of_sign. destruct (Rlt_dec 0 (INR tau)); [exact I | lra].
  - apply runningSumAt_nonneg. lia.
Qed.

Lemma dPrime_under (buffer : list R) (tau : nat) (threshold : R) :
  (1 <= tau <= halfBufferOf buffer)%nat ->
  nlt (Float.dPrime buffer tau) (Fin threshold) = true ->
  exists y, Float.dPrime buffer tau = Fin y /\ 0 <= y < threshold.
Proof.
  intros Htau Hlt. destruct (dPrime_nanOrNonneg buffer tau Htau) as [Hn | Hn].
  - rewrite Hn in Hlt. discriminate.
  - destruct (Float.dPrime buffer tau) as [y | | |]; cbn [nonneg] in Hn; try easy.
    exists y. apply nlt_Fin in Hlt. now split.
Qed.

(** The state of the outer loop when it has filled the lags below [stop]. *)
Lemma yinLoop_binary64 (buffer : list R) (stop : nat) :
  let st := forLoop 1 stop (Float.yinStep buffer (halfBufferOf buffer))
              (Fin 0, <[ 0%nat := Fin 1 ]> (replicate (halfBufferOf buffer) (Fin 0))) in
  (stop <= halfBufferOf buffer)%nat ->
  fst st = Float.runningSumAt buffer (stop - 1)
  /\ length (snd st) = halfBufferOf buffer
  /\ (forall tau, (1 <= tau < stop)%nat ->
        snd st !! tau = Some (Float.dPrime buffer tau))
  /\ ((0 < halfBufferOf buffer)%nat -> snd st !! 0%nat = Some (Fin 1)).
Proof.
  assert (Hinit : forall stop', (stop' <= 1)%nat ->
    let st := forLoop 1 stop' (Float.yinStep buffer (halfBufferOf buffer))
                (Fin 0, <[ 0%nat := Fin 1 ]> (replicate (halfBufferOf buffer) (Fin 0))) in
    fst st = Float.runningSumAt buffer (stop' - 1)
    /\ length (snd st) = halfBufferOf buffer
    /\ (forall tau, (1 <= tau < stop')%nat ->
          snd st !! tau = Some (Float.dPrime buffer tau))
    /\ ((0 < halfBufferOf buffer)%nat -> snd st !! 0%nat = Some (Fin 1))).
  { intros stop' Hs. cbv zeta. rewrite forLoop_empty by lia. cbn [fst snd].
    rewrite length_insert, length_replicate.
    replace (stop' - 1)%nat with 0%nat by lia. repeat split.
    - intros tau Htau. lia.
    - intros Hpos. apply list_lookup_insert_eq. now rewrite length_replicate. }
  induction stop as [| stop IH]; intros st Hstop.
  - apply Hinit. lia.
  - destruct (Nat.eq_dec stop 0%nat) as [-> | Hnz]; [apply Hinit; lia |].
    destruct (IH ltac:(lia)) as (Hsum & Hlen & Hfilled & Hzero).
    unfold st. rewrite forLoop_snoc by lia.
    set (prev := forLoop 1 stop (Float.yinStep buffer (halfBufferOf buffer))
                   (Fin 0, <[ 0%nat := Fin 1 ]>
                             (replicate (halfBufferOf buffer) (Fin 0)))) in *.
    unfold Float.yinStep. cbn [fst snd]. rewrite Hsum.
    assert (Hrun : add64 (Float.runningSumAt buffer (stop - 1))
                         (Float.differenceAt buffer (halfBufferOf buffer) stop)
                   = Float.runningSumAt buffer stop).
    { destruct stop as [| n]; [lia |].
      cbn [Float.runningSumAt]. now replace (S n - 1)%nat with n by lia. }
    rewrite Hrun. replace (S stop - 1)%nat with stop by lia.
    rewrite length_insert. repeat split; try assumption.
    + intros tau Htau. destruct (Nat.eq_dec tau stop) as [-> | Hne].
      * now rewrite list_lookup_insert_eq by lia.
      * rewrite list_lookup_insert_ne by lia. apply Hfilled. lia.
    + intros Hpos. rewrite list_lookup_insert_ne by lia. now apply Hzero.
Qed.

(** The entries of [yinBuffer]: 1 at lag 0 and the stored d'(tau) above. *)
Lemma yinBufferOf_binary64 (buffer : list R) :
  let yinBuffer := Float.yinBufferOf buffer in
  length yinBuffer = halfBufferOf buffer
  /\ (forall tau, (1 <= tau < halfBufferOf buffer)%nat ->
        yinAt yinBuffer tau = Float.dPrime buffer tau)
  /\ ((0 < halfBufferOf buffer)%nat -> yinAt yinBuffer 0 = Fin 1).
Proof.
  destruct (yinLoop_binary64 buffer (halfBufferOf buffer) ltac:(lia))
    as (_ & Hlen & Hfilled & Hzero).
  cbv zeta. unfold Float.yinBufferOf, yinAt. repeat split.
  - exact Hlen.
  - intros tau Htau. now rewrite (Hfilled tau Htau).
  - intros Hpos. now rewrite (Hzero Hpos).
Qed.

Lemma tauEstimateOf_binary64_None (threshold : num) (buffer : list R) :
  tauEstimateOf threshold (Float.yinBufferOf buffer) (halfBufferOf buffer) = None
  <-> forall tau, (2 <= tau < halfBufferOf buffer)%nat ->
        nlt (Float.dPrime buffer tau) threshold = false.
Proof.
  destruct (yinBufferOf_binary64 buffer) as (_ & Hd & _).
  unfold tauEstimateOf. rewrite scanFrom_None. split; intros Hall tau Htau.
  - rewrite <- Hd by lia. apply Hall. lia.
  - rewrite Hd by lia. apply Hall. lia.
Qed.

Lemma tauEstimateOf_binary64_Some (threshold : num) (buffer : list R) (tauE : nat) :
  tauEstimateOf threshold (Float.yinBufferOf buffer) (halfBufferOf buffer) = Some tauE ->
  exists t0, Float.firstDip threshold buffer t0 /\ Float.dipMinimum buffer t0 tauE.
Proof.
  destruct (yinBufferOf_binary64 buffer) as (_ & Hd & _).
  unfold tauEstimateOf. intros Hs.
  apply scanFrom_Some in Hs. destruct Hs as (t0 & Hr & Hu & Hfirst & ->).
  pose proof (walkDip_spec (Float.yinBufferOf buffer) (halfBufferOf buffer)
                (halfBufferOf buffer) t0) as (Hle & Hchain & Hexit).
  pose proof (walkDip_in_range (Float.yinBufferOf buffer) (halfBufferOf buffer)
                (halfBufferOf buffer) t0 ltac:(lia)) as Hin.
  set (tauE := walkDip (Float.yinBufferOf buffer) (halfBufferOf buffer)
                 (halfBufferOf buffer) t0) in *.
  exists t0. split; [| split; [| split]].
  - split; [lia |]. split.
    + rewrite <- Hd by lia. exact Hu.
    + intros t Ht. rewrite <- Hd by lia. apply Hfirst. lia.
  - lia.
  - intros t Ht. destruct (Hchain t Ht) as [Hlt Hdown].
    rewrite <- !Hd by lia. exact Hdown.
  - intros Hnext. rewrite <- !Hd by lia. apply Hexit; lia.
Qed.

Lemma firstDip_binary64_unique (threshold : num) (buffer : list R) (t0 t0' : nat) :
  Float.firstDip threshold buffer t0 -> Float.firstDip threshold buffer t0' ->
  t0 = t0'.
Proof.
  intros (Hr & Hu & Hb) (Hr' & Hu' & Hb').
  destruct (lt_eq_lt_dec t0 t0') as [[Hlt | Heq] | Hgt]; [| assumption |].
  - specialize (Hb' t0 ltac:(lia)). congruence.
  - specialize (Hb t0' ltac:(lia)). congruence.
Qed.

Lemma dipMinimum_binary64_unique (buffer : list R) (t0 tauE tauE' : nat) :
  Float.dipMinimum buffer t0 tauE -> Float.dipMinimum buffer t0 tauE' ->
  tauE = tauE'.
Proof.
  intros (Hr & Hc & He) (Hr' & Hc' & He').
  destruct (lt_eq_lt_dec tauE tauE') as [[Hlt | Heq] | Hgt]; [| assumption |].
  - specialize (Hc' tauE ltac:(lia)). specialize (He ltac:(lia)). congruence.
  - specialize (Hc tauE' ltac:(lia)). specialize (He' ltac:(lia)). congruence.
Qed.

Lemma dip_chain_binary64 (threshold : num) (buffer : list R) (t0 tauE : nat) :
  Float.firstDip threshold buffer t0 -> Float.dipMinimum buffer t0 tauE ->
  nlt (Float.dPrime buffer tauE) threshold = true.
Proof.
  intros (Hr & Hu & _) (Hle & Hchain & _).
  assert (Hall : forall t, (t0 <= t <= tauE)%nat ->
                   nlt (Float.dPrime buffer t) threshold = true).
  { intros t Ht. induction t as [| t IH]; [lia |].
    destruct (Nat.eq_dec (S t) t0) as [-> | Hne]; [exact Hu |].
    specialize (IH ltac:(lia)). specialize (Hchain t ltac:(lia)).
    replace (t + 1)%nat with (S t) in Hchain by lia.
    exact (nlt_trans _ _ _ Hchain IH). }
  apply Hall. lia.
Qed.

(** ** The three ways out of yinDetect, in binary64 *)

Lemma literal64_small (a : R) (n : Z) :
  (-1074 <= n < 1024)%Z -> Rabs a <= powerRZ 2 n ->
  literal64 a = Fin (round64 a) /\ Rabs (round64 a) <= powerRZ 2 n.
Proof. apply binary64_small. Qed.

Lemma threshold_binary64 :
  literal64 0.15 = Fin (round64 0.15) /\ / 8 <= round64 0.15 <= / 4.
Proof.
  destruct (literal64_small 0.15 (-2) ltac:(lia)) as [Hlit Hb].
  { simpl powerRZ. apply Rabs_le. lra. }
  split; [exact Hlit |]. simpl powerRZ in Hb. apply Rabs_le_between in Hb.
  pose proof (roundNearest_ge_pow2 53 (-1022) ltac:(lia) 0.15 (-3) ltac:(lia)) as Hlo.
  simpl powerRZ in Hlo. unfold round64 in *. lra.
Qed.

Lemma betterTauOf_not_NaN (yinBuffer : list num) (halfBuffer tauEstimate : nat) :
  Float.betterTauOf yinBuffer halfBuffer tauEstimate <> NaN.
Proof.
  unfold Float.betterTauOf.
  destruct (_ && _); [| discriminate].
  cbv zeta. destruct (div64 _ _) as [a | | |]; cbn [isFinite]; try discriminate.
  unfold add64. cbn [nadd]. apply binary64_of_Fin_not_NaN.
Qed.

Lemma frequency_not_NaN (sampleRate : R) (betterTau : num) :
  sampleRate <> 0 -> betterTau <> NaN -> div64 sampleRate betterTau <> NaN.
Proof.
  intros Hs Hb H. apply roundTo_not_NaN in H.
  destruct betterTau as [b | | |]; cbn [ndiv] in H; try easy.
  destruct (Req_dec_T b 0); [| discriminate].
  destruct (Req_dec_T sampleRate 0); [contradiction |].
  unfold inf_of_sign in H. destruct (Rlt_dec 0 sampleRate); discriminate.
Qed.

Lemma in_range_finite (f : num) :
  f <> NaN -> nlt f 70 = false -> ngt f 1200 = false ->
  exists x, f = Fin x /\ 70 <= x <= 1200.
Proof.
  intros Hn Hlo Hhi. destruct f as [x | | |]; try easy.
  exists x. split; [reflexivity |].
  apply nlt_Fin_false in Hlo. unfold ngt in Hhi. apply nlt_Fin_false in Hhi. lra.
Qed.

Lemma in_range_not_sentinel (f p : num) :
  nlt f 70 = false -> mkResult f p <> noDetection.
Proof.
  intros Hlo Heq. unfold noDetection in Heq. injection Heq as -> _.
  apply nlt_Fin_false in Hlo. lra.
Qed.

(** The run of [yinDetect] with the constructor's settings. *)
Lemma yinDetect_binary64_analysis (buffer : list R) (sampleRate : R) :
  let result := Float.yinDetect Float.constructor buffer sampleRate in
  let threshold := literal64 0.15 in
  (nlt (Float.rmsOf buffer) (literal64 0.01) = true /\ result = noDetection)
  \/ (nlt (Float.rmsOf buffer) (literal64 0.01) = false
      /\ (forall tau, (2 <= tau < halfBufferOf buffer)%nat ->
            nlt (Float.dPrime buffer tau) threshold = false)
      /\ result = noDetection)
  \/ (nlt (Float.rmsOf buffer) (literal64 0.01) = false
      /\ exists t0 tauE y,
           Float.firstDip threshold buffer t0 /\ Float.dipMinimum buffer t0 tauE
           /\ tauEstimateOf threshold (Float.yinBufferOf buffer) (halfBufferOf buffer)
              = Some tauE
           /\ Float.dPrime buffer tauE = Fin y /\ 0 <= y < round64 0.15
           /\ sub64 1 (Float.dPrime buffer tauE) = Fin (round64 (1 - y))
           /\ 0 <= round64 (1 - y) <= 1
           /\ let f := div64 sampleRate
                         (Float.betterTauOf (Float.yinBufferOf buffer)
                            (halfBufferOf buffer) tauE) in
              ((nlt f 70 || ngt f 1200 = true /\ result = noDetection)
               \/ (nlt f 70 = false /\ ngt f 1200 = false
                   /\ result = mkResult f (Fin (round64 (1 - y)))))).
Proof.
  intros result threshold. unfold result, Float.yinDetect.
  destruct (nlt (Float.rmsOf buffer) (literal64 0.01)) eqn:Hrms;
    [left; now split | right].
  cbn [yinThreshold minFrequency maxFrequency Float.constructor].
  fold threshold.
  destruct (tauEstimateOf threshold (Float.yinBufferOf buffer) (halfBufferOf buffer))
    as [tauE |] eqn:Htau.
  - right. split; [reflexivity |].
    destruct (tauEstimateOf_binary64_Some _ _ _ Htau) as (t0 & Hfirst & Hmin).
    pose proof (dip_chain_binary64 _ _ _ _ Hfirst Hmin) as Hunder.
    destruct threshold_binary64 as [Hthr Hthr_range].
    unfold threshold in Hunder. rewrite Hthr in Hunder.
    assert (HtauE : (1 <= tauE <= halfBufferOf buffer)%nat).
    { destruct Hfirst as (Hr & _). destruct Hmin as (Hle & _). lia. }
    destruct (dPrime_under buffer tauE _ HtauE Hunder) as (y & Hy & Hyr).
    destruct (yinBufferOf_binary64 buffer) as (_ & Hd & _).
    assert (Hp : sub64 1 (Float.dPrime buffer tauE) = Fin (round64 (1 - y))
                 /\ 0 <= round64 (1 - y) <= 1).
    { rewrite Hy. unfold sub64. cbn [nsub nneg nadd].
      destruct (binary64_small (1 + - y) 0 ltac:(lia)) as [Hb Hr].
      { simpl powerRZ. apply Rabs_le. lra. }
      replace (1 + - y) with (1 - y) in * by lra.
      split; [exact Hb |]. simpl powerRZ in Hr. apply Rabs_le_between in Hr.
      pose proof (roundNearest_nonneg 53 (-1022) (1 - y) ltac:(lra)).
      unfold round64 in *. lra. }
    destruct Hp as [Hp Hprange].
    exists t0, tauE, y.
    repeat (split; [first [assumption | reflexivity] |]). cbv zeta.
    rewrite Hd by (destruct Hfirst as (Hr & _); destruct Hmin as (Hle & _); lia).
    rewrite Hp.
    destruct (nlt _ 70 || ngt _ 1200) eqn:Hout.
    + left. now split.
    + right. apply orb_false_iff in Hout. destruct Hout as [Hlo Hhi].
      repeat split; assumption.
  - left. split; [reflexivity |]. split; [| reflexivity].
    now apply tauEstimateOf_binary64_None.
Qed.

(** C4 (amended): [yinDetect] is a total function; its result is the
    no-detection value (-1, 0) exactly when the RMS it computes is under
    0.01, or no lag in [2, halfBuffer) has a stored d' under 0.15, or the
    frequency computed at the local minimum of the first dip is under 70 or
    over 1200; every other result is a detection that carries this
    frequency, a number from 70 to 1200 when the sample rate is not zero.
    The d' of a lag is the value that the code keeps in its [Float32Array]:
    the binary64 quotient d(tau) * tau / runningSum rounded to binary32. *)
Theorem yinDetect_binary64_no_detection_iff (buffer : list R) (sampleRate : R) :
  let result := Float.yinDetect Float.constructor buffer sampleRate in
  let threshold := literal64 0.15 in
  let frequencyAt tauE :=
    div64 sampleRate
      (Float.betterTauOf (Float.yinBufferOf buffer) (halfBufferOf buffer) tauE) in
  noDetection = mkResult (Fin (-1)) (Fin 0)
  /\ (forall tau, (1 <= tau < halfBufferOf buffer)%nat ->
        yinAt (Float.yinBufferOf buffer) tau = Float.dPrime buffer tau)
  /\ (result = noDetection <->
        nlt (Float.rmsOf buffer) (literal64 0.01) = true
        \/ (forall tau, (2 <= tau < halfBufferOf buffer)%nat ->
              nlt (Float.dPrime buffer tau) threshold = false)
        \/ (exists t0 tauE,
              Float.firstDip threshold buffer t0 /\ Float.dipMinimum buffer t0 tauE
              /\ (nlt (frequencyAt tauE) 70 = true
                  \/ ngt (frequencyAt tauE) 1200 = true)))
  /\ (result <> noDetection ->
        exists t0 tauE p,
          Float.firstDip threshold buffer t0 /\ Float.dipMinimum buffer t0 tauE
          /\ result = mkResult (frequencyAt tauE) (Fin p)
          /\ nlt (frequencyAt tauE) 70 = false
          /\ ngt (frequencyAt tauE) 1200 = false
          /\ (sampleRate <> 0 ->
              exists f, frequencyAt tauE = Fin f /\ 70 <= f <= 1200)).
Proof.
  intros result threshold frequencyAt.
  split; [reflexivity |].
  split; [apply yinBufferOf_binary64 |].
  pose proof (yinDetect_binary64_analysis buffer sampleRate) as Hcases.
  cbv zeta in Hcases. fold result threshold in Hcases.
  split; [split |].
  - intros Hnone.
    destruct Hcases as [[Hrms _] | [(_ & Hall & _) | (_ & t0 & tauE & y & Hfirst
                                      & Hmin & _ & _ & _ & _ & _ & Hres)]].
    + now left.
    + right. now left.
    + right. right. exists t0, tauE. repeat (split; [assumption |]).
      fold (frequencyAt tauE) in Hres.
      destruct Hres as [[Hout _] | (Hlo & _ & Hdet)].
      * apply orb_true_iff in Hout. exact Hout.
      * rewrite Hnone in Hdet. symmetry in Hdet.
        now apply in_range_not_sentinel in Hdet.
  - intros [Hrms | [Hall | (t0 & tauE & Hfirst & Hmin & Hout)]].
    + unfold result, Float.yinDetect. now rewrite Hrms.
    + destruct Hcases as [[_ H] | [(_ & _ & H) | (_ & t0 & tauE & _ & Hfirst & _)]];
        try assumption.
      destruct Hfirst as (Hr & Hu & _). rewrite (Hall t0 Hr) in Hu. discriminate.
    + destruct Hcases as [[_ H] | [(_ & _ & H) | (_ & t0' & tauE' & y & Hfirst'
                                      & Hmin' & _ & _ & _ & _ & _ & Hres)]];
        try assumption.
      pose proof (firstDip_binary64_unique _ _ _ _ Hfirst Hfirst') as <-.
      pose proof (dipMinimum_binary64_unique _ _ _ _ Hmin Hmin') as <-.
      fold (frequencyAt tauE) in Hres.
      destruct Hres as [[_ H] | (Hlo & Hhi & _)]; [assumption |].
      destruct Hout as [H | H]; congruence.
  - intros Hdet.
    destruct Hcases as [[_ H] | [(_ & _ & H) | (_ & t0 & tauE & y & Hfirst & Hmin
                                    & _ & _ & _ & _ & _ & Hres)]];
      try contradiction.
    fold (frequencyAt tauE) in Hres.
    destruct Hres as [[_ H] | (Hlo & Hhi & Hres)]; [contradiction |].
    exists t0, tauE, (round64 (1 - y)).
    repeat (split; [assumption |]).
    intros Hrate. apply in_range_finite; try assumption.
    apply frequency_not_NaN; [assumption | apply betterTauOf_not_NaN].
Qed.

(** C5 (amended): the confidence is a number in [0, 1]: 0 on the
    no-detection result and, on a detection, 1 - d'(tau) rounded to
    binary64, where tau is the lag before interpolation (the local minimum
    of the first dip) and d'(tau) the value stored for it in the
    [Float32Array], a binary32 number from 0 to under 0.15. *)
Theorem yinDetect_binary64_confidence (buffer : list R) (sampleRate : R) :
  0 < sampleRate ->
  let result := Float.yinDetect Float.constructor buffer sampleRate in
  let threshold := literal64 0.15 in
  exists p,
    probability result = Fin p /\ 0 <= p <= 1
    /\ (result = noDetection -> p = 0)
    /\ (result <> noDetection ->
        exists t0 tauE y,
          Float.firstDip threshold buffer t0 /\ Float.dipMinimum buffer t0 tauE
          /\ tauEstimateOf threshold (Float.yinBufferOf buffer) (halfBufferOf buffer)
             = Some tauE
          /\ yinAt (Float.yinBufferOf buffer) tauE = Fin y
          /\ Float.dPrime buffer tauE = Fin y
          /\ 0 <= y < round64 0.15
          /\ probability result = sub64 1 (Fin y)
          /\ p = round64 (1 - y)).
Proof.
  intros _ result threshold.
  pose proof (yinDetect_binary64_analysis buffer sampleRate) as Hcases.
  cbv zeta in Hcases. fold result threshold in Hcases.
  assert (Hno : result = noDetection ->
    exists p, probability result = Fin p /\ 0 <= p <= 1
      /\ (result = noDetection -> p = 0)
      /\ (result <> noDetection ->
          exists t0 tauE y,
            Float.firstDip threshold buffer t0 /\ Float.dipMinimum buffer t0 tauE
            /\ tauEstimateOf threshold (Float.yinBufferOf buffer)
                 (halfBufferOf buffer) = Some tauE
            /\ yinAt (Float.yinBufferOf buffer) tauE = Fin y
            /\ Float.dPrime buffer tauE = Fin y
            /\ 0 <= y < round64 0.15
            /\ probability result = sub64 1 (Fin y)
            /\ p = round64 (1 - y))).
  { intros Hnone. exists 0. rewrite Hnone.
    split; [reflexivity |]. split; [lra |]. split; [reflexivity |].
    intros Hne. now contradiction Hne. }
  destruct Hcases as [[_ H] | [(_ & _ & H) | (_ & t0 & tauE & y & Hfirst & Hmin
                                  & Htau & Hy & Hyr & Hp & Hpr & [[_ H] | (Hlo & Hhi & Hres)])]];
    try (now apply Hno).
  exists (round64 (1 - y)). rewrite Hres. cbn [probability].
  split; [reflexivity |]. split; [exact Hpr |]. split.
  - intros Hnone. now apply in_range_not_sentinel in Hnone.
  - intros _. exists t0, tauE, y. repeat (split; [assumption |]).
    destruct (yinBufferOf_binary64 buffer) as (_ & Hd & _).
    split.
    { rewrite Hd by (destruct Hfirst as (Hr & _); destruct Hmin as (Hle & _); lia).
      exact Hy. }
    repeat (split; [assumption |]).
    split; [| reflexivity]. rewrite <- Hy. now rewrite Hp.
Qed.

(** ** Exact integer arithmetic in binary64 *)

Lemma add64_int (a b : Z) :
  (Z.abs (a + b) <? 2 ^ 53)%Z = true ->
  add64 (Fin (IZR a)) (Fin (IZR b)) = Fin (IZR (a + b)).
Proof.
  intros H. apply Z.ltb_lt in H. unfold add64. cbn [nadd].
  rewrite <- plus_IZR. now apply binary64_IZR.
Qed.

Lemma sub64_int (a b : Z) :
  (Z.abs (a - b) <? 2 ^ 53)%Z = true ->
  sub64 (Fin (IZR a)) (Fin (IZR b)) = Fin (IZR (a - b)).
Proof.
  intros H. apply Z.ltb_lt in H. unfold sub64. cbn [nsub nneg nadd].
  replace (IZR a + - IZR b) with (IZR (a - b)) by (rewrite minus_IZR; lra).
  now apply binary64_IZR.
Qed.

Lemma mul64_int (a b : Z) :
  (Z.abs (a * b) <? 2 ^ 53)%Z = true ->
  mul64 (Fin (IZR a)) (Fin (IZR b)) = Fin (IZR (a * b)).
Proof.
  intros H. apply Z.ltb_lt in H. unfold mul64. cbn [nmul].
  rewrite <- mult_IZR. now apply binary64_IZR.
Qed.

Lemma div64_int (a b q : Z) :
  b <> 0%Z -> a = (q * b)%Z -> (Z.abs q <? 2 ^ 53)%Z = true ->
  div64 (Fin (IZR a)) (Fin (IZR b)) = Fin (IZR q).
Proof.
  intros Hb -> H. apply Z.ltb_lt in H. unfold div64.
  assert (Hb' : IZR b <> 0) by (intros E; apply eq_IZR in E; contradiction).
  rewrite ndiv_Fin by assumption.
  replace (IZR (q * b) / IZR b) with (IZR q) by (rewrite mult_IZR; field; assumption).
  now apply binary64_IZR.
Qed.

(** ** The estimator on two buffers of whole numbers *)

Lemma ramp_delta1 : Float.differenceAt ramp 3 1 = Fin (IZR 57).
Proof.
  unfold Float.differenceAt, forLoop. cbn [seq fold_left Nat.sub Nat.add].
  unfold sample, ramp. cbn [map lookup list_lookup Nat.add].
  repeat first [ rewrite sub64_int by reflexivity
               | rewrite mul64_int by reflexivity
               | rewrite add64_int by reflexivity ];
    evalZ. reflexivity.
Qed.

Lemma ramp_delta2 : Float.differenceAt ramp 3 2 = Fin (IZR 3).
Proof.
  unfold Float.differenceAt, forLoop. cbn [seq fold_left Nat.sub Nat.add].
  unfold sample, ramp. cbn [map lookup list_lookup Nat.add].
  repeat first [ rewrite sub64_int by reflexivity
               | rewrite mul64_int by reflexivity
               | rewrite add64_int by reflexivity ];
    evalZ. reflexivity.
Qed.

(** A stored value: the binary32 number next to a real. *)
Lemma binary32_near (x : R) (k n : Z) :
  (-126 <= n < 127)%Z -> powerRZ 2 n <= Rabs x < powerRZ 2 (n + 1) ->
  Rabs (x - IZR k * powerRZ 2 (n - 23)) < powerRZ 2 (n - 23) / 2 ->
  Rabs (IZR k * powerRZ 2 (n - 23)) <= powerRZ 2 (n + 1) ->
  binary32 (Fin x) = Fin (IZR k * powerRZ 2 (n - 23)).
Proof.
  intros Hn Hx Hnear Hsize.
  pose proof (lastPlace_normal 24 (-126) x n ltac:(lia) Hx) as Hlast.
  replace (n - (24 - 1))%Z with (n - 23)%Z in Hlast by lia.
  pose proof (roundNearest_near 24 (-126) x k) as Hr. cbv zeta in Hr.
  rewrite Hlast in Hr. specialize (Hr Hnear).
  unfold binary32. rewrite roundTo_Fin; rewrite Hr; [reflexivity |].
  assert (H : powerRZ 2 (n + 1) < powerRZ 2 128) by (apply powerRZ2_lt; lia). lra.
Qed.

Lemma literal64_001 : exists g, literal64 0.01 = Fin g /\ g <= / 64.
Proof.
  destruct (literal64_small 0.01 (-6) ltac:(lia)) as [Hlit Hb].
  { simpl powerRZ. apply Rabs_le. lra. }
  exists (round64 0.01). split; [exact Hlit |].
  simpl powerRZ in Hb. apply Rabs_le_between in Hb. lra.
Qed.

(** The silence gate lets a buffer through whose mean square is at least 1. *)
Lemma rms_gate_passed (total size : R) :
  0 < size -> size <= total <= size * 1099511627776 ->
  nlt (sqrt64 (div64 total size)) (literal64 0.01) = false.
Proof.
  intros Hsize [Hlo Hhi].
  assert (E40 : powerRZ 2 40 = 1099511627776) by (rewrite powerRZ2_IZR by lia; reflexivity).
  assert (Hq : 1 <= total / size <= 1099511627776).
  { split.
    - apply Rmult_le_reg_r with size; [assumption |]. unfold Rdiv.
      rewrite Rmult_assoc, Rinv_l by lra. lra.
    - apply Rmult_le_reg_r with size; [assumption |]. unfold Rdiv.
      rewrite Rmult_assoc, Rinv_l by lra. lra. }
  unfold div64. rewrite ndiv_Fin by lra.
  destruct (binary64_small (total / size) 40 ltac:(lia)) as [Hb Hr].
  { rewrite E40. apply Rabs_le. lra. }
  rewrite Hb. rewrite E40 in Hr. apply Rabs_le_between in Hr.
  pose proof (roundNearest_ge_pow2 53 (-1022) ltac:(lia) (total / size) 0 ltac:(lia)) as Hge.
  simpl powerRZ in Hge. specialize (Hge ltac:(lra)). fold (round64 (total / size)) in Hge.
  set (v := round64 (total / size)) in *.
  unfold sqrt64. rewrite nsqrt_Fin by lra.
  assert (Hs1 : 1 <= sqrt v).
  { rewrite <- sqrt_1. apply sqrt_le_1_alt. lra. }
  assert (Hs2 : sqrt v <= 1099511627776).
  { apply Rle_trans with v; [| lra].
    rewrite <- (sqrt_square v) at 2 by lra. apply sqrt_le_1_alt. nra. }
  destruct (binary64_small (sqrt v) 40 ltac:(lia)) as [Hb2 _].
  { rewrite E40. apply Rabs_le. lra. }
  rewrite Hb2.
  pose proof (roundNearest_ge_pow2 53 (-1022) ltac:(lia) (sqrt v) 0 ltac:(lia)) as Hge2.
  simpl powerRZ in Hge2. specialize (Hge2 Hs1).
  destruct literal64_001 as (g & Hg & Hgle). rewrite Hg.
  apply nlt_Fin_false. unfold round64. lra.
Qed.

Lemma ramp_half : halfBufferOf ramp = 3%nat.
Proof. reflexivity. Qed.

Lemma ramp_rms : nlt (Float.rmsOf ramp) (literal64 0.01) = false.
Proof.
  unfold Float.rmsOf, forLoop. cbn [length ramp map seq fold_left Nat.sub Nat.add].
  unfold sample. cbn [lookup list_lookup Nat.add]. repeat first [ rewrite sub64_int by reflexivity
               | rewrite mul64_int by reflexivity
               | rewrite add64_int by reflexivity ];
    evalZ.
  replace (INR 6) with (IZR 6) by (simpl; lra).
  apply rms_gate_passed; lra.
Qed.

Lemma ramp_runningSum2 : Float.runningSumAt ramp 2 = Fin (IZR 60).
Proof.
  cbn [Float.runningSumAt]. rewrite ramp_half, ramp_delta1, ramp_delta2.
  repeat first [ rewrite sub64_int by reflexivity
               | rewrite mul64_int by reflexivity
               | rewrite add64_int by reflexivity ];
    evalZ. reflexivity.
Qed.

Lemma tenth_stored :
  binary32 (Fin (round64 (/ 10))) = Fin (13421773 / 134217728).
Proof.
  assert (E : powerRZ 2 (-4 - 53) = / 144115188075855872).
  { replace (-4 - 53)%Z with (- (57))%Z by lia. rewrite powerRZ_neg'.
    rewrite powerRZ2_IZR by lia. reflexivity. }
  pose proof (round64_within (/ 10) (-4) ltac:(lia)) as Hw.
  simpl (powerRZ 2 (-4)) in Hw. simpl (powerRZ 2 (-4 + 1)) in Hw.
  rewrite E in Hw. rewrite Rabs_pos_eq in Hw by lra.
  specialize (Hw ltac:(lra)). apply Rabs_le_between in Hw.
  assert (E27 : powerRZ 2 (-4 - 23) = / 134217728).
  { replace (-4 - 23)%Z with (- (27))%Z by lia. rewrite powerRZ_neg'.
    rewrite powerRZ2_IZR by lia. reflexivity. }
  rewrite (binary32_near (round64 (/ 10)) 13421773 (-4)).
  - rewrite E27. f_equal.
  - lia.
  - simpl powerRZ. rewrite Rabs_pos_eq by lra. lra.
  - rewrite E27. apply Rabs_def1; lra.
  - rewrite E27. simpl powerRZ. apply Rabs_le. lra.
Qed.

Lemma ramp_quotient :
  div64 (mul64 (Float.differenceAt ramp 3 2) (INR 2)) (Float.runningSumAt ramp 2)
  = Fin (round64 (/ 10)).
Proof.
  rewrite ramp_delta2, ramp_runningSum2.
  replace (INR 2) with (IZR 2) by (simpl; lra).
  rewrite mul64_int by reflexivity.
  change (3 * 2)%Z with 6%Z.
  unfold div64. rewrite ndiv_Fin by lra.
  destruct (binary64_small (6 / 60) 0 ltac:(lia)) as [Hb _].
  { simpl powerRZ. apply Rabs_le. lra. }
  rewrite Hb. f_equal. f_equal. lra.
Qed.

Lemma ramp_dPrime2 : Float.dPrime ramp 2 = Fin (13421773 / 134217728).
Proof.
  unfold Float.dPrime. rewrite ramp_half, ramp_quotient. apply tenth_stored.
Qed.

(** On the buffer 0, 4, -1, 3, -2, 0 at 1000 Hz the lag is 2, d'(2) is
    6/60 and the value stored for it is the binary32 number
    13421773 / 2^27 = 0.100000001490116..., so that the result is 500 Hz
    with probability 120795955 / 2^27 = 0.899999998509883..., not 0.9. *)
Lemma yinDetect_binary64_ramp :
  Float.yinDetect Float.constructor ramp 1000
  = mkResult 500 (Fin (120795955 / 134217728)).
Proof.
  destruct (yinBufferOf_binary64 ramp) as (_ & Hd & _).
  specialize (Hd 2%nat ltac:(rewrite ramp_half; lia)). rewrite ramp_dPrime2 in Hd.
  destruct threshold_binary64 as [Hthr Hthr_range].
  unfold Float.yinDetect. rewrite ramp_rms, ramp_half.
  cbn [yinThreshold minFrequency maxFrequency Float.constructor].
  unfold tauEstimateOf. cbn [Nat.sub scanFrom]. rewrite Hd, Hthr.
  assert (Hu : nlt (Fin (13421773 / 134217728)) (Fin (round64 0.15)) = true)
    by (apply nlt_Fin; lra).
  rewrite Hu. cbn [walkDip Nat.add Nat.ltb Nat.leb andb].
  unfold Float.betterTauOf.
  change ((0 <? 2)%nat && (Z.of_nat 2 <? Z.of_nat 3 - 1)%Z) with false.
  cbv iota. rewrite Hd.
  replace (INR 2) with (IZR 2) by (simpl; lra).
  rewrite (div64_int 1000 2 500) by (lia || reflexivity).
  assert (Hp : sub64 1 (Fin (13421773 / 134217728)) = Fin (120795955 / 134217728)).
  { unfold sub64. cbn [nsub nneg nadd].
    assert (E27 : powerRZ 2 (-27) = / 134217728).
    { replace (-27)%Z with (- (27))%Z by lia. rewrite powerRZ_neg'.
      rewrite powerRZ2_IZR by lia. reflexivity. }
    replace (1 + - (13421773 / 134217728)) with (IZR 120795955 * powerRZ 2 (-27))
      by (rewrite E27; lra).
    unfold binary64.
    pose proof (roundNearest_dyadic 53 (-1022) ltac:(lia) 120795955 (-27)
                  ltac:(lia) ltac:(lia)) as Hr.
    rewrite roundTo_Fin; rewrite Hr; [f_equal; rewrite E27; lra |].
    rewrite E27. simpl powerRZ. apply Rabs_def1; lra. }
  rewrite Hp.
  assert (H1 : nlt (Fin (IZR 500)) (Fin 70) = false) by (apply nlt_Fin_false; lra).
  assert (H2 : ngt (Fin (IZR 500)) (Fin 1200) = false) by (apply nlt_Fin_false; lra).
  rewrite H1, H2. reflexivity.
Qed.

Lemma underThreshold_delta1 :
  Float.differenceAt underThreshold 3 1 = Fin (IZR 14177683137).
Proof.
  unfold Float.differenceAt, forLoop. cbn [seq fold_left Nat.sub Nat.add].
  unfold sample, underThreshold. cbn [map lookup list_lookup Nat.add].
  repeat first [ rewrite sub64_int by reflexivity
               | rewrite mul64_int by reflexivity
               | rewrite add64_int by reflexivity ];
    evalZ. reflexivity.
Qed.

Lemma underThreshold_delta2 :
  Float.differenceAt underThreshold 3 2 = Fin (IZR 1149541875).
Proof.
  unfold Float.differenceAt, forLoop. cbn [seq fold_left Nat.sub Nat.add].
  unfold sample, underThreshold. cbn [map lookup list_lookup Nat.add].
  repeat first [ rewrite sub64_int by reflexivity
               | rewrite mul64_int by reflexivity
               | rewrite add64_int by reflexivity ];
    evalZ. reflexivity.
Qed.

Lemma underThreshold_quotient :
  exists q,
    div64 (mul64 (Float.differenceAt underThreshold 3 2) (INR 2))
          (Float.runningSumAt underThreshold 2) = Fin q
    /\ Rabs (q - 2299083750 / 15327225012) <= / 72057594037927936.
Proof.
  cbn [Float.runningSumAt]. change (halfBufferOf underThreshold) with 3%nat.
  rewrite underThreshold_delta1, underThreshold_delta2.
  replace (INR 2) with (IZR 2) by (simpl; lra).
  rewrite mul64_int by reflexivity.
  change (Fin 0) with (Fin (IZR 0)).
  rewrite !add64_int by reflexivity.
  change (1149541875 * 2)%Z with 2299083750%Z.
  change (0 + 14177683137 + 1149541875)%Z with 15327225012%Z.
  unfold div64. rewrite ndiv_Fin by lra.
  set (q := 2299083750 / 15327225012).
  destruct (binary64_small q 0 ltac:(lia)) as [Hb _].
  { simpl powerRZ. unfold q. apply Rabs_le. lra. }
  rewrite Hb. exists (round64 q). split; [reflexivity |].
  assert (E56 : powerRZ 2 (-3 - 53) = / 72057594037927936).
  { replace (-3 - 53)%Z with (- (56))%Z by lia. rewrite powerRZ_neg'.
    rewrite powerRZ2_IZR by lia. reflexivity. }
  rewrite <- E56. apply round64_within; [lia |].
  simpl powerRZ. unfold q. rewrite Rabs_pos_eq by lra. lra.
Qed.

Lemma underThreshold_stored :
  Float.dPrime underThreshold 2 = Fin (10066330 / 67108864).
Proof.
  destruct underThreshold_quotient as (q & Hq & Hw).
  unfold Float.dPrime. change (halfBufferOf underThreshold) with 3%nat.
  rewrite Hq. apply Rabs_le_between in Hw.
  assert (E26 : powerRZ 2 (-3 - 23) = / 67108864).
  { replace (-3 - 23)%Z with (- (26))%Z by lia. rewrite powerRZ_neg'.
    rewrite powerRZ2_IZR by lia. reflexivity. }
  rewrite (binary32_near q 10066330 (-3)).
  - rewrite E26. f_equal.
  - lia.
  - simpl powerRZ. rewrite Rabs_pos_eq by lra. lra.
  - rewrite E26. apply Rabs_def1; lra.
  - rewrite E26. simpl powerRZ. apply Rabs_le. lra.
Qed.

Lemma threshold_near :
  exists t, literal64 0.15 = Fin t /\ Rabs (t - 0.15) <= / 72057594037927936.
Proof.
  destruct threshold_binary64 as [Hthr _]. exists (round64 0.15).
  split; [exact Hthr |].
  assert (E56 : powerRZ 2 (-3 - 53) = / 72057594037927936).
  { replace (-3 - 53)%Z with (- (56))%Z by lia. rewrite powerRZ_neg'.
    rewrite powerRZ2_IZR by lia. reflexivity. }
  pose proof (round64_within 0.15 (-3) ltac:(lia)) as Hw.
  simpl (powerRZ 2 (-3)) in Hw. simpl (powerRZ 2 (-3 + 1)) in Hw.
  rewrite E56, Rabs_pos_eq in Hw by lra.
  apply Hw. lra.
Qed.

Lemma underThreshold_not_under :
  forall tau, (2 <= tau < halfBufferOf underThreshold)%nat ->
    nlt (Float.dPrime underThreshold tau) (literal64 0.15) = false.
Proof.
  intros tau Htau. change (halfBufferOf underThreshold) with 3%nat in Htau.
  assert (tau = 2%nat) as -> by lia.
  rewrite underThreshold_stored.
  destruct threshold_near as (t & Ht & Hle). rewrite Ht.
  apply Rabs_le_between in Hle. apply nlt_Fin_false. lra.
Qed.

(** In exact arithmetic the same d'(2) is under the threshold. *)
Lemma underThreshold_exact :
  exists y, dPrime underThreshold 2 = Fin y /\ y < 0.15.
Proof.
  unfold dPrime, differenceSpec, cumulativeSpec.
  change (halfBufferOf underThreshold) with 3%nat.
  unfold sampleR, underThreshold.
  cbn [map seq nth sumR fold_right Nat.add pow].
  unfold differenceSpec, sampleR.
  change (halfBufferOf _) with 3%nat.
  cbn [map seq nth sumR fold_right Nat.add pow].
  replace (INR 2) with 2 by (simpl; lra).
  match goal with
  | |- exists y, ndiv (Fin ?a) (Fin ?b) = Fin y /\ _ =>
      replace a with 2299083750 by lra; replace b with 15327225012 by lra
  end.
  rewrite ndiv_Fin by lra.
  eexists. split; [reflexivity |]. lra.
Qed.

Lemma ramp_tauEstimate :
  tauEstimateOf (literal64 0.15) (Float.yinBufferOf ramp) (halfBufferOf ramp)
  = Some 2%nat.
Proof.
  destruct (yinBufferOf_binary64 ramp) as (_ & Hd & _).
  specialize (Hd 2%nat ltac:(rewrite ramp_half; lia)). rewrite ramp_dPrime2 in Hd.
  destruct threshold_binary64 as [Hthr Hthr_range].
  rewrite ramp_half. unfold tauEstimateOf. cbn [Nat.sub scanFrom]. rewrite Hd, Hthr.
  assert (Hu : nlt (Fin (13421773 / 134217728)) (Fin (round64 0.15)) = true)
    by (apply nlt_Fin; lra).
  rewrite Hu. reflexivity.
Qed.

(** In exact arithmetic d'(2) of this buffer is 6/60. *)
Lemma ramp_exact : dPrime ramp 2 = Fin (/ 10).
Proof.
  unfold dPrime, differenceSpec, cumulativeSpec.
  change (halfBufferOf ramp) with 3%nat.
  unfold sampleR, ramp.
  cbn [map seq nth sumR fold_right Nat.add pow].
  unfold differenceSpec, sampleR.
  change (halfBufferOf _) with 3%nat.
  cbn [map seq nth sumR fold_right Nat.add pow].
  replace (INR 2) with 2 by (simpl; lra).
  match goal with
  | |- ndiv (Fin ?a) (Fin ?b) = _ =>
      replace a with 6 by lra; replace b with 60 by lra
  end.
  rewrite ndiv_Fin by lra. f_equal. lra.
Qed.

Lemma underThreshold_rms :
  nlt (Float.rmsOf underThreshold) (literal64 0.01) = false.
Proof.
  unfold Float.rmsOf, forLoop.
  cbn [length underThreshold map seq fold_left Nat.sub Nat.add].
  unfold sample. cbn [lookup list_lookup Nat.add].
  repeat first [ rewrite sub64_int by reflexivity
               | rewrite mul64_int by reflexivity
               | rewrite add64_int by reflexivity ];
    evalZ.
  replace (INR 6) with (IZR 6) by (simpl; lra).
  apply rms_gate_passed; lra.
Qed.

Lemma underThreshold_frequency :
  div64 1000 (Float.betterTauOf (Float.yinBufferOf underThreshold)
                (halfBufferOf underThreshold) 2) = Fin 500.
Proof.
  unfold Float.betterTauOf. change (halfBufferOf underThreshold) with 3%nat.
  change ((0 <? 2)%nat && (Z.of_nat 2 <? Z.of_nat 3 - 1)%Z) with false.
  cbv iota. replace (INR 2) with (IZR 2) by (simpl; lra).
  apply (div64_int 1000 2 500); [lia | reflexivity | reflexivity].
Qed.

(** ** Where the stored values decide *)

(** C4, as stated, fails on the buffer 0, 61598, -19575, 42023, -39150, 0 at
    1000 Hz: the result is the no-detection value although the RMS passes
    the gate, lag 2 has d'(2) = 2299083750 / 15327225012 under 0.15 (as a
    real and as the binary64 quotient that the code computes) and the
    frequency of that lag, 500 Hz, is inside the range.  The value that the
    code stores and compares is the binary32 number 10066330 / 2^26, which
    is not under the threshold. *)
Lemma yinDetect_stored_not_under_threshold :
  Float.yinDetect Float.constructor underThreshold 1000 = noDetection
  /\ nlt (Float.rmsOf underThreshold) (literal64 0.01) = false
  /\ (2 <= 2 < halfBufferOf underThreshold)%nat
  /\ (exists y, dPrime underThreshold 2 = Fin y /\ y < 0.15)
  /\ (exists q,
        div64 (mul64 (Float.differenceAt underThreshold 3 2) (INR 2))
              (Float.runningSumAt underThreshold 2) = Fin q
        /\ nlt q (literal64 0.15) = true)
  /\ Float.dPrime underThreshold 2 = Fin (10066330 / 67108864)
  /\ nlt (Float.dPrime underThreshold 2) (literal64 0.15) = false
  /\ div64 1000 (Float.betterTauOf (Float.yinBufferOf underThreshold)
                   (halfBufferOf underThreshold) 2) = Fin 500
  /\ nlt 500 70 = false /\ ngt 500 1200 = false.
Proof.
  split.
  { unfold Float.yinDetect. rewrite underThreshold_rms.
    cbn [yinThreshold Float.constructor].
    assert (Hnone : tauEstimateOf (literal64 0.15) (Float.yinBufferOf underThreshold)
                      (halfBufferOf underThreshold) = None)
      by (apply tauEstimateOf_binary64_None, underThreshold_not_under).
    now rewrite Hnone. }
  split; [apply underThreshold_rms |].
  split; [change (halfBufferOf underThreshold) with 3%nat; lia |].
  split; [apply underThreshold_exact |].
  split.
  { destruct underThreshold_quotient as (q & Hq & Hw). exists q.
    split; [exact Hq |].
    destruct threshold_near as (t & Ht & Hle). rewrite Ht.
    apply Rabs_le_between in Hw, Hle. apply nlt_Fin. lra. }
  split; [apply underThreshold_stored |].
  split; [apply underThreshold_not_under;
          change (halfBufferOf underThreshold) with 3%nat; lia |].
  split; [apply underThreshold_frequency |].
  split; apply nlt_Fin_false; lra.
Qed.

Lemma yinDetect_binary64_no_detection_iff_witness :
  Float.yinDetect Float.constructor underThreshold 1000 = noDetection
  /\ Float.yinDetect Float.constructor [] 44100 = noDetection
  /\ exists f p,
       Float.yinDetect Float.constructor ramp 1000 = mkResult (Fin f) (Fin p)
       /\ 70 <= f <= 1200.
Proof.
  split; [| split].
  - apply (yinDetect_binary64_no_detection_iff underThreshold 1000).
    right. left. apply underThreshold_not_under.
  - apply (yinDetect_binary64_no_detection_iff [] 44100).
    right. left. intros tau Htau. unfold halfBufferOf in Htau. simpl in Htau. lia.
  - destruct (yinDetect_binary64_no_detection_iff ramp 1000)
      as (_ & _ & _ & Hdet).
    destruct Hdet as (t0 & tauE & p & _ & _ & Hres & _ & _ & Hf).
    + rewrite yinDetect_binary64_ramp. apply in_range_not_sentinel.
      apply nlt_Fin_false. lra.
    + destruct (Hf ltac:(lra)) as (f & Hfreq & Hrange).
      exists f, p. rewrite Hres, Hfreq. now split.
Defined.

Lemma yinDetect_binary64_confidence_witness :
  exists y,
    Float.dPrime ramp 2 = Fin y
    /\ y = 13421773 / 134217728
    /\ probability (Float.yinDetect Float.constructor ramp 1000)
       = Fin (round64 (1 - y))
    /\ round64 (1 - y) = 120795955 / 134217728
    /\ 0 <= round64 (1 - y) <= 1.
Proof.
  destruct (yinDetect_binary64_confidence ramp 1000 ltac:(lra))
    as (p & Hp & Hrange & _ & Hdet).
  destruct Hdet as (t0 & tauE & y & _ & _ & Htau & _ & Hy & _ & _ & Hpy).
  - rewrite yinDetect_binary64_ramp. apply in_range_not_sentinel.
    apply nlt_Fin_false. lra.
  - rewrite ramp_tauEstimate in Htau. injection Htau as <-.
    exists y. split; [exact Hy |].
    rewrite ramp_dPrime2 in Hy. injection Hy as <-.
    split; [reflexivity |]. rewrite Hpy in Hp, Hrange.
    split; [exact Hp |]. split; [| exact Hrange].
    rewrite yinDetect_binary64_ramp in Hp. cbn [probability] in Hp.
    now injection Hp as <-.
Defined.

(** C5, as stated, fails on the buffer 0, 4, -1, 3, -2, 0 at 1000 Hz: the
    lag is 2 and d'(2) is 6/60, but the confidence is
    120795955 / 2^27 = 0.899999998509883..., under 1 - 1/10 as a real and
    under the binary64 value of 1 - 0.1: the code subtracts the binary32
    number it has stored for the lag. *)
Lemma yinDetect_confidence_from_stored :
  Float.yinDetect Float.constructor ramp 1000
  = mkResult 500 (Fin (120795955 / 134217728))
  /\ tauEstimateOf (literal64 0.15) (Float.yinBufferOf ramp) (halfBufferOf ramp)
     = Some 2%nat
  /\ dPrime ramp 2 = Fin (/ 10)
  /\ div64 (mul64 (Float.differenceAt ramp 3 2) (INR 2)) (Float.runningSumAt ramp 2)
     = Fin (round64 (/ 10))
  /\ Float.dPrime ramp 2 = Fin (13421773 / 134217728)
  /\ 120795955 / 134217728 < 1 - / 10
  /\ 120795955 / 134217728 < round64 (1 - round64 (/ 10)).
Proof.
  split; [apply yinDetect_binary64_ramp |].
  split; [apply ramp_tauEstimate |].
  split; [apply ramp_exact |].
  split; [apply ramp_quotient |].
  split; [apply ramp_dPrime2 |].
  split; [lra |].
  assert (E57 : powerRZ 2 (-4 - 53) = / 144115188075855872).
  { replace (-4 - 53)%Z with (- (57))%Z by lia. rewrite powerRZ_neg'.
    rewrite powerRZ2_IZR by lia. reflexivity. }
  assert (E54 : powerRZ 2 (-1 - 53) = / 18014398509481984).
  { replace (-1 - 53)%Z with (- (54))%Z by lia. rewrite powerRZ_neg'.
    rewrite powerRZ2_IZR by lia. reflexivity. }
  pose proof (round64_within (/ 10) (-4) ltac:(lia)) as Hw.
  simpl (powerRZ 2 (-4)) in Hw. simpl (powerRZ 2 (-4 + 1)) in Hw.
  rewrite E57, Rabs_pos_eq in Hw by lra.
  specialize (Hw ltac:(lra)). apply Rabs_le_between in Hw.
  set (t := round64 (/ 10)) in *.
  pose proof (round64_within (1 - t) (-1) ltac:(lia)) as Hv.
  simpl (powerRZ 2 (-1)) in Hv. simpl (powerRZ 2 (-1 + 1)) in Hv.
  rewrite E54, Rabs_pos_eq in Hv by lra.
  specialize (Hv ltac:(lra)). apply Rabs_le_between in Hv. lra.
Qed.

(** ** The pitch meter in binary64 *)

(** Rounding does not cross an integer below 2^53. *)
Lemma round64_le_int (x : R) (k : Z) :
  Rabs x < 9007199254740992 -> x <= IZR k -> round64 x <= IZR k.
Proof.
  intros Hx Hk. destruct (Req_dec x 0) as [-> | Hne].
  - unfold round64. now rewrite roundNearest_0.
  - replace (IZR k) with (IZR k * powerRZ 2 0) by (simpl; lra).
    apply roundNearest_le; [simpl; lra |].
    apply lastPlace_le; [assumption | | lia].
    rewrite powerRZ2_IZR by lia. exact Hx.
Qed.

Lemma round64_ge_int (x : R) (k : Z) :
  Rabs x < 9007199254740992 -> IZR k <= x -> IZR k <= round64 x.
Proof.
  intros Hx Hk. destruct (Req_dec x 0) as [-> | Hne].
  - unfold round64. now rewrite roundNearest_0.
  - replace (IZR k) with (IZR k * powerRZ 2 0) by (simpl; lra).
    apply roundNearest_ge; [simpl; lra |].
    apply lastPlace_le; [assumption | | lia].
    rewrite powerRZ2_IZR by lia. exact Hx.
Qed.

Lemma binary64_bounded (a : R) :
  Rabs a <= 1073741824 -> binary64 (Fin a) = Fin (round64 a).
Proof.
  intros Ha. apply (binary64_small a 30 ltac:(lia)).
  rewrite powerRZ2_IZR by lia. exact Ha.
Qed.

(** The position inside the display range. *)
Lemma position_rounded (c : R) :
  -50 <= c <= 50 ->
  let left := round64 (round64 (round64 (c + 50) / 100) * 100) in
  mul64 (div64 (add64 c 50) 100) 100 = Fin left
  /\ 0 <= left <= 100
  /\ Rabs (left - (c + 50)) <= / 1000000000000.
Proof.
  intros Hc. cbv zeta.
  assert (Em47 : powerRZ 2 (6 - 53) = / 140737488355328).
  { replace (6 - 53)%Z with (- (47))%Z by lia. rewrite powerRZ_neg'.
    rewrite powerRZ2_IZR by lia. reflexivity. }
  assert (Em53 : powerRZ 2 (0 - 53) = / 9007199254740992).
  { replace (0 - 53)%Z with (- (53))%Z by lia. rewrite powerRZ_neg'.
    rewrite powerRZ2_IZR by lia. reflexivity. }
  set (s := round64 (c + 50)).
  assert (Hs : 0 <= s <= 100).
  { split; [apply (round64_ge_int _ 0) | apply (round64_le_int _ 100)];
      try (apply Rabs_def1; lra); lra. }
  assert (Hse : Rabs (s - (c + 50)) <= / 140737488355328).
  { rewrite <- Em47. apply round64_error; [lia |].
    simpl powerRZ. apply Rabs_def1; lra. }
  set (q := round64 (s / 100)).
  assert (Hq : 0 <= q <= 1).
  { split; [apply (round64_ge_int _ 0) | apply (round64_le_int _ 1)];
      try (apply Rabs_def1; lra); lra. }
  assert (Hqe : Rabs (q - s / 100) <= / 9007199254740992).
  { rewrite <- Em53. apply round64_error; [lia |].
    simpl powerRZ. apply Rabs_def1; lra. }
  set (left := round64 (q * 100)).
  assert (Hl : 0 <= left <= 100).
  { split; [apply (round64_ge_int _ 0) | apply (round64_le_int _ 100)];
      try (apply Rabs_def1; lra); lra. }
  assert (Hle : Rabs (left - q * 100) <= / 140737488355328).
  { rewrite <- Em47. apply round64_error; [lia |].
    simpl powerRZ. apply Rabs_def1; lra. }
  split; [| split; [exact Hl |]].
  - unfold mul64, div64, add64. cbn [nadd].
    rewrite binary64_bounded by (apply Rabs_le; lra). fold s.
    rewrite ndiv_Fin by lra.
    rewrite binary64_bounded by (apply Rabs_le; lra). fold q.
    cbn [nmul]. rewrite binary64_bounded by (apply Rabs_le; lra). reflexivity.
  - apply Rabs_le_between in Hse, Hqe, Hle. apply Rabs_le. lra.
Qed.

(** X19: for a finite cents offset the indicator position is a percentage
    between 0 and 100, computed in binary64: 0 from -50 cents down, 100 from
    50 cents up, and in between within 10^-12 of cents + 50 (not always equal
    to it: the quotient by 100 is rounded); for NaN the position is NaN. *)
Theorem updatePitchMeter_position (cents : R) :
  exists left,
    meter_left (Float.updatePitchMeter cents) = Fin left
    /\ 0 <= left <= 100
    /\ (-50 <= cents <= 50 -> Rabs (left - (cents + 50)) <= / 1000000000000)
    /\ (cents <= -50 -> left = 0)
    /\ (50 <= cents -> left = 100)
    /\ meter_left (Float.updatePitchMeter NaN) = NaN.
Proof.
  assert (Hclamp : exists c, nmax (-50) (nmin 50 cents) = Fin c
                             /\ -50 <= c <= 50
                             /\ (-50 <= cents <= 50 -> c = cents)
                             /\ (cents <= -50 -> c = -50)
                             /\ (50 <= cents -> c = 50)).
  { cbn [nmin nle]. unfold Rleb.
    destruct (Rle_dec 50 cents) as [Hhi | Hhi]; cbn [nmax nle]; unfold Rleb.
    - destruct (Rle_dec (-50) 50) as [_ | H]; [| lra].
      exists 50. repeat split; intros; lra.
    - destruct (Rle_dec (-50) cents) as [Hlo | Hlo].
      + exists cents. repeat split; intros; lra.
      + exists (-50). repeat split; intros; lra. }
  destruct Hclamp as (c & Hc & Hcr & Hin & Hlow & Hhigh).
  destruct (position_rounded c Hcr) as (Hpos & Hrange & Herr).
  unfold Float.updatePitchMeter. cbn [meter_left]. rewrite Hc, Hpos.
  eexists. split; [reflexivity |]. split; [exact Hrange |].
  split; [| split; [| split]].
  - intros H. rewrite (Hin H) in *. exact Herr.
  - intros H. rewrite (Hlow H).
    replace (-50 + 50) with (IZR 0) by lra. unfold round64.
    rewrite roundNearest_IZR by lia.
    replace (IZR 0 / 100) with (IZR 0) by lra.
    rewrite roundNearest_IZR by lia.
    replace (IZR 0 * 100) with (IZR 0) by lra.
    now rewrite roundNearest_IZR by lia.
  - intros H. rewrite (Hhigh H).
    replace (50 + 50) with (IZR 100) by lra. unfold round64.
    rewrite roundNearest_IZR by lia.
    replace (IZR 100 / 100) with (IZR 1) by lra.
    rewrite roundNearest_IZR by lia.
    replace (IZR 1 * 100) with (IZR 100) by lra.
    now rewrite roundNearest_IZR by lia.
  - reflexivity.
Qed.

(** ** The nearest note, with rounding *)

Section Nearest.

Variable Math_log2 : num -> num.

(** X6: when [Math.log2] is accurate to 2^-40 at the binary64 quotient
    freq/440, the note returned for 20 <= freq <= 5000 is the nearest one up
    to rounding: freq is within 50.00000001 cents of the equal-tempered
    pitch of the returned MIDI number (half a semitone is 50 cents, and at
    the boundary between two notes the rounded sum decides). *)
Theorem frequencyToNote_nearest (freq l : R) :
  20 <= freq <= 5000 ->
  Math_log2 (Fin (round64 (freq / 440))) = Fin l ->
  Rabs (l - Rlog2 (round64 (freq / 440))) <= / 1099511627776 ->
  exists info midi,
    Float.frequencyToNote Math_log2 freq = Some info
    /\ ni_midiNote info = Fin (IZR midi)
    /\ Rabs (12 * Rlog2 (freq / 440) + 69 - IZR midi) <= / 2 + / 10000000000
    /\ Rabs (1200 * Rlog2 (freq / (440 * Rpower 2 (IZR (midi - 69) / 12))))
       <= 50 + / 100000000.
Proof.
  intros Hf Hlog Hacc.
  destruct (computed_note_near freq l Hf Hacc) as [Hl Hv].
  destruct (computed_note_number l Hl) as [Hcomputed Hsize].
  set (v := round64 (round64 (12 * l) + 69)) in *.
  pose proof (Rround_bound v) as Hm.
  set (midi := Rround v) in *.
  set (x := freq / 440) in *.
  assert (Hx : 0 < x) by (unfold x; apply Rdiv_lt_0_compat; lra).
  apply Rabs_le_between in Hv.
  assert (Hnear : Rabs (12 * Rlog2 x + 69 - IZR midi) <= / 2 + / 10000000000)
    by (apply Rabs_le; lra).
  eexists. exists midi. split.
  - apply (frequencyToNote_computed Math_log2 freq v); [lra | | lra].
    rewrite binary64_quotient by lra. fold x. now rewrite Hlog.
  - cbn [ni_midiNote]. split; [reflexivity |]. split; [exact Hnear |].
    assert (Hcents : 1200 * Rlog2 (freq / (440 * Rpower 2 (IZR (midi - 69) / 12)))
                     = 100 * (12 * Rlog2 x + 69 - IZR midi)).
    { replace (freq / (440 * Rpower 2 (IZR (midi - 69) / 12)))
        with (x / Rpower 2 (IZR (midi - 69) / 12)).
      - rewrite Rlog2_div by (try apply Rpower2_pos; lra).
        rewrite Rlog2_pow2, minus_IZR. lra.
      - unfold x. field. pose proof (Rpower2_pos (IZR (midi - 69) / 12)). lra. }
    rewrite Hcents. apply Rabs_le_between in Hnear. apply Rabs_le. lra.
Qed.

End Nearest.

Lemma frequencyToNote_nearest_witness :
  exists info midi,
    Float.frequencyToNote (fun x => binary64 (nlog2 x)) 450 = Some info
    /\ ni_midiNote info = Fin (IZR midi)
    /\ Rabs (12 * Rlog2 (450 / 440) + 69 - IZR midi) <= / 2 + / 10000000000.
Proof.
  assert (Em53 : powerRZ 2 (- (53)) = / 9007199254740992).
  { rewrite powerRZ_neg'. rewrite powerRZ2_IZR by lia. reflexivity. }
  assert (Hrel : Rabs (round64 (450 / 440) - 450 / 440)
                 <= 450 / 440 * / 9007199254740992).
  { pose proof (roundNearest_relative 53 (-1022) (450 / 440)) as H.
    rewrite Em53, Rabs_pos_eq in H by lra. apply H.
    apply Rle_trans with (powerRZ 2 0); [apply powerRZ2_le; lia |].
    simpl powerRZ. lra. }
  set (r := round64 (450 / 440)) in *.
  assert (Hr : 1 <= r <= 2) by (apply Rabs_le_between in Hrel; lra).
  assert (HL : 0 <= Rlog2 r <= 1).
  { split.
    - rewrite <- Rlog2_1. apply Rlog2_le; lra.
    - change 1 with (IZR 1). rewrite <- Rlog2_powerRZ.
      apply Rlog2_le; [lra |]. simpl powerRZ. lra. }
  destruct (frequencyToNote_nearest (fun x => binary64 (nlog2 x)) 450
              (round64 (Rlog2 r)))
    as (info & midi & H1 & H2 & H3 & _).
  - lra.
  - cbv beta. fold r. rewrite nlog2_Fin by lra.
    apply binary64_bounded. apply Rabs_le. lra.
  - fold r. apply Rle_trans with (powerRZ 2 (0 - 53)).
    + apply round64_error; [lia |]. simpl powerRZ. apply Rabs_def1; lra.
    + replace (0 - 53)%Z with (- (53))%Z by lia. rewrite Em53. lra.
  - exists info, midi. repeat split; assumption.
Defined.

(** ** The entries of the YIN buffer *)

(** X10: the entries of [yinBuffer] as the code stores them: as many as
    half the buffer, 1 at lag 0, and at each lag from 1 on the binary64
    quotient d(tau) * tau / runningSum rounded to binary32, which is NaN
    (nothing but equal samples so far), a number that is not negative, or
    +Infinity. *)
Theorem yinBufferOf_entries (buffer : list R) :
  length (Float.yinBufferOf buffer) = halfBufferOf buffer
  /\ forall tau v, Float.yinBufferOf buffer !! tau = Some v ->
       (tau = 0%nat -> v = Fin 1)
       /\ ((1 <= tau)%nat ->
           v = binary32
                 (div64 (mul64 (Float.differenceAt buffer (halfBufferOf buffer) tau)
                               (INR tau))
                        (Float.runningSumAt buffer tau))
           /\ v = Float.dPrime buffer tau
           /\ (v = NaN \/ v = PInf \/ exists y, v = Fin y /\ 0 <= y)).
Proof.
  destruct (yinLoop_binary64 buffer (halfBufferOf buffer) ltac:(lia))
    as (_ & Hlen & Hfilled & Hzero).
  fold (Float.yinBufferOf buffer) in Hlen, Hfilled, Hzero.
  split; [exact Hlen |].
  intros tau v Hv.
  assert (Hlt : (tau < halfBufferOf buffer)%nat).
  { rewrite <- Hlen. eapply lookup_lt_Some. exact Hv. }
  split.
  - intros ->. rewrite Hzero in Hv by lia. now injection Hv as <-.
  - intros Htau. rewrite Hfilled in Hv by lia. injection Hv as <-.
    split; [reflexivity |]. split; [reflexivity |].
    destruct (dPrime_nanOrNonneg buffer tau ltac:(lia)) as [Hn | Hn].
    + now left.
    + right. destruct (Float.dPrime buffer tau) as [y | | |];
        cbn [nonneg] in Hn; try contradiction.
      * right. now exists y.
      * now left.
Qed.

(** ** Detections and the probability gate, in binary64 *)

(** A binary32 number under the threshold is at most 10066329 / 2^26, the
    largest one below 0.15. *)
Lemma binary32_under_threshold (x : R) :
  0 <= x -> roundNearest 24 (-126) x < 0.15 + / 1000000000 ->
  roundNearest 24 (-126) x <= 10066329 / 67108864.
Proof.
  intros Hx Hy.
  assert (E26 : powerRZ 2 (-26) = / 67108864).
  { replace (-26)%Z with (- (26))%Z by lia. rewrite powerRZ_neg'.
    rewrite powerRZ2_IZR by lia. reflexivity. }
  destruct (Rlt_dec x (/ 8)) as [Hlow | Hhigh].
  - pose proof (roundNearest_le_pow2 24 (-126) ltac:(lia) x (-3) ltac:(lia)) as H.
    simpl powerRZ in H. specialize (H ltac:(lra)). lra.
  - destruct (Rlt_dec x (/ 4)) as [Hin | Hout].
    + assert (Hlast : lastPlace 24 (-126) x = (-26)%Z).
      { rewrite (lastPlace_normal 24 (-126) x (-3)); [reflexivity | lia |].
        simpl powerRZ. rewrite Rabs_pos_eq by lra. lra. }
      unfold roundNearest in *. cbv zeta in *. rewrite Hlast in *.
      rewrite E26 in *.
      set (n := Znearest_even (x * powerRZ 2 (- -26))) in *.
      assert (Hn : IZR n < IZR 10066330).
      { apply Rmult_lt_reg_r with (/ 67108864); lra. }
      apply lt_IZR in Hn.
      assert (Hle : IZR n <= IZR 10066329) by (apply IZR_le; lia).
      apply Rmult_le_reg_r with 67108864; [lra |].
      unfold Rdiv. rewrite !Rmult_assoc, Rinv_l by lra. lra.
    + pose proof (roundNearest_ge_pow2 24 (-126) ltac:(lia) x (-2) ltac:(lia)) as H.
      simpl powerRZ in H. specialize (H ltac:(lra)). lra.
Qed.

Lemma quotient_nanOrNonneg (buffer : list R) (tau : nat) :
  (1 <= tau <= halfBufferOf buffer)%nat ->
  nanOrNonneg
    (div64 (mul64 (Float.differenceAt buffer (halfBufferOf buffer) tau) (INR tau))
           (Float.runningSumAt buffer tau)).
Proof.
  intros Htau. unfold div64.
  apply roundTo_nanOrNonneg, ndiv_nonneg.
  - pose proof (differenceAt_nonneg buffer tau ltac:(lia)) as Hd.
    unfold mul64. apply binary64_nonneg.
    assert (Hpos : 0 < INR tau) by (apply lt_0_INR; lia).
    destruct (Float.differenceAt buffer (halfBufferOf buffer) tau) as [a | | |];
      cbn [nonneg nmul] in *; try easy.
    + apply Rmult_le_pos; lra.
    + destruct (Req_dec_T (INR tau) 0); [lra |].
      unfold inf_of_sign. destruct (Rlt_dec 0 (INR tau)); [exact I | lra].
  - apply runningSumAt_nonneg. lia.
Qed.

(** A stored d' under the threshold is a binary32 number from 0 to
    10066329 / 2^26 = 0.149999991059... *)
Lemma dPrime_stored_under (buffer : list R) (tau : nat) (y : R) :
  (1 <= tau <= halfBufferOf buffer)%nat ->
  Float.dPrime buffer tau = Fin y -> y < 0.15 + / 1000000000 ->
  0 <= y <= 10066329 / 67108864.
Proof.
  intros Htau Hy Hlt. unfold Float.dPrime in Hy.
  destruct (quotient_nanOrNonneg buffer tau Htau) as [Hn | Hn].
  - rewrite Hn in Hy. discriminate.
  - destruct (div64 _ _) as [x | | |]; cbn [nonneg] in Hn; try easy.
    unfold binary32, roundTo in Hy. cbv zeta in Hy.
    destruct (Rleb _ _).
    + unfold inf_of_sign in Hy. destruct (Rlt_dec _ _); discriminate.
    + injection Hy as <-. split.
      * now apply roundNearest_nonneg.
      * now apply binary32_under_threshold.
Qed.

(** X31: in binary64, a result of [yinDetect] with a positive frequency
    comes from a lag whose stored d' is under the threshold, hence at most
    10066329 / 2^26, the largest binary32 number below 0.15; its probability
    1 - d' (rounded) is above 0.85, and it gets through the 0.8 gate of
    [detectPitch]. *)
Theorem yinDetect_binary64_passes_gate (buffer : list R) (sampleRate : R) :
  let result := Float.yinDetect Float.constructor buffer sampleRate in
  ngt (frequency result) 0 = true ->
  exists tauE y p,
    tauEstimateOf (literal64 0.15) (Float.yinBufferOf buffer) (halfBufferOf buffer)
    = Some tauE
    /\ yinAt (Float.yinBufferOf buffer) tauE = Fin y
    /\ 0 <= y <= 10066329 / 67108864
    /\ probability result = Fin p /\ p = round64 (1 - y) /\ 0.85 < p <= 1
    /\ reportsPitch Float.constructor true result = true.
Proof.
  intros result Hpos.
  assert (Hne : result <> noDetection).
  { intros Hnone. rewrite Hnone in Hpos. cbn [frequency noDetection] in Hpos.
    apply nlt_Fin in Hpos. lra. }
  pose proof (yinDetect_binary64_analysis buffer sampleRate) as Hcases.
  cbv zeta in Hcases. fold result in Hcases.
  destruct Hcases as [[_ H] | [(_ & _ & H) | (_ & t0 & tauE & y & Hfirst & Hmin
                                  & Htau & Hy & Hyr & Hp & Hpr & [[_ H] | (Hlo & Hhi & Hres)])]];
    try contradiction.
  destruct threshold_near as (t & Ht & Hnear).
  destruct threshold_binary64 as [Hthr _]. rewrite Hthr in Ht. injection Ht as <-.
  apply Rabs_le_between in Hnear.
  assert (HtauE : (1 <= tauE <= halfBufferOf buffer)%nat).
  { destruct Hfirst as (Hr & _). destruct Hmin as (Hle & _). lia. }
  pose proof (dPrime_stored_under buffer tauE y HtauE Hy ltac:(lra)) as Hstored.
  assert (E54 : powerRZ 2 (-1 - 53) = / 18014398509481984).
  { replace (-1 - 53)%Z with (- (54))%Z by lia. rewrite powerRZ_neg'.
    rewrite powerRZ2_IZR by lia. reflexivity. }
  assert (Hp1 : Rabs (round64 (1 - y) - (1 - y)) <= / 9007199254740992).
  { assert (E53 : powerRZ 2 (0 - 53) = / 9007199254740992).
    { replace (0 - 53)%Z with (- (53))%Z by lia. rewrite powerRZ_neg'.
      rewrite powerRZ2_IZR by lia. reflexivity. }
    rewrite <- E53. apply round64_error; [lia |].
    simpl powerRZ. apply Rabs_def1; lra. }
  apply Rabs_le_between in Hp1.
  assert (Hgate : literal64 0.8 = Fin (round64 0.8)
                  /\ Rabs (round64 0.8 - 0.8) <= / 18014398509481984).
  { destruct (literal64_small 0.8 0 ltac:(lia)) as [Hlit _].
    { simpl powerRZ. apply Rabs_le. lra. }
    split; [exact Hlit |]. rewrite <- E54. apply round64_within; [lia |].
    simpl powerRZ. rewrite Rabs_pos_eq by lra. lra. }
  destruct Hgate as [Hlit Hg]. apply Rabs_le_between in Hg.
  exists tauE, y, (round64 (1 - y)).
  split; [exact Htau |]. split.
  { destruct (yinBufferOf_binary64 buffer) as (_ & Hd & _).
    rewrite Hd by (destruct Hfirst as (Hr & _); destruct Hmin as (Hle & _); lia).
    exact Hy. }
  split; [exact Hstored |]. rewrite Hres. cbn [probability frequency].
  split; [reflexivity |]. split; [reflexivity |]. split; [lra |].
  unfold reportsPitch. cbn [frequency probability andb
                            yinProbabilityThreshold Float.constructor].
  assert (Hf : ngt (div64 sampleRate
                      (Float.betterTauOf (Float.yinBufferOf buffer)
                         (halfBufferOf buffer) tauE)) 0 = true).
  { rewrite Hres in Hpos. exact Hpos. }
  rewrite Hf, Hlit. cbn [andb]. apply nle_Fin. lra.
Qed.

Lemma yinDetect_binary64_passes_gate_witness :
  reportsPitch Float.constructor true
    (Float.yinDetect Float.constructor ramp 1000) = true.
Proof.
  destruct (yinDetect_binary64_passes_gate ramp 1000)
    as (tauE & y & p & _ & _ & _ & _ & _ & _ & Hgate).
  - rewrite yinDetect_binary64_ramp. cbn [frequency]. apply nlt_Fin. lra.
  - exact Hgate.
Defined.

